(** * Quark IPAM: a shallow embedding of [quark/ipam.py] and [quark/db/api.py]

    The development follows the layering of the sources: the address
    arithmetic borrowed from [netaddr], the process-wide pseudo random
    generator of Python's [random] module, the v6 candidate generators, the
    relational store behind [quark.db.api], and the allocation engine with
    its three strategies. *)

From Stdlib Require Import ZArith List Bool Lia String.
From Stdlib Require Import Sorting.Permutation Sorting.Sorted.
Import ListNotations.
Open Scope Z_scope.

Set Implicit Arguments.

(** ** Exceptions and results *)

Module Exn.

(** The exception classes the engine raises or meets.  [DBError] stands for
    any other [Exception] coming out of the store layer. *)
Inductive exn : Type :=
| IpAddressGenerationFailure
| MacAddressGenerationFailure
| IpAddressInUse
| IPAddressRetryableFailure
| IPAddressPolicyRetryableFailure
| IPAddressNotInSubnet
| DBDuplicateEntry
| DBError
| AddrFormatError
| AddrConversionError
| ValueError
| TypeError
| StopIteration.

Definition exn_eqb (a b : exn) : bool :=
  match a, b with
  | IpAddressGenerationFailure, IpAddressGenerationFailure
  | MacAddressGenerationFailure, MacAddressGenerationFailure
  | IpAddressInUse, IpAddressInUse
  | IPAddressRetryableFailure, IPAddressRetryableFailure
  | IPAddressPolicyRetryableFailure, IPAddressPolicyRetryableFailure
  | IPAddressNotInSubnet, IPAddressNotInSubnet
  | DBDuplicateEntry, DBDuplicateEntry
  | DBError, DBError
  | AddrFormatError, AddrFormatError
  | AddrConversionError, AddrConversionError
  | ValueError, ValueError
  | TypeError, TypeError
  | StopIteration, StopIteration => true
  | _, _ => false
  end.

(** Modelled from the spec: [quark/exceptions.py] is not among the sources.
    Section 7 lists [IPAddressRetryableFailure] and
    [IPAddressPolicyRetryableFailure] as the retryable kinds that the engine
    catches; [except q_exc.IPAddressRetryableFailure] therefore matches
    both. *)
Definition is_IPAddressRetryableFailure (e : exn) : bool :=
  match e with
  | IPAddressRetryableFailure | IPAddressPolicyRetryableFailure => true
  | _ => false
  end.

Inductive res (A : Type) : Type :=
| Ok (a : A)
| Raise (e : exn).

Arguments Ok {A} a.
Arguments Raise {A} e.

End Exn.
Import Exn.

(** ** netaddr: addresses, networks, MAC identifiers *)

Module Netaddr.

Record IPAddress : Type := mkIP { ip_ver : Z; ip_value : Z }.

Definition IPAddress_eqb (a b : IPAddress) : bool :=
  (ip_ver a =? ip_ver b) && (ip_value a =? ip_value b).

Definition width (ver : Z) : Z := if ver =? 4 then 32 else 128.

(** [netaddr.IPAddress(int)]: the smallest address family that holds the
    integer. *)
Definition IPAddress_of_int (v : Z) : res IPAddress :=
  if (0 <=? v) && (v <=? 2 ^ 32 - 1) then Ok (mkIP 4 v)
  else if (0 <=? v) && (v <=? 2 ^ 128 - 1) then Ok (mkIP 6 v)
  else Raise AddrFormatError.

Definition V4_MAPPED : Z := 0xffff00000000.

(** [IPAddress.ipv4()] *)
Definition ipv4 (a : IPAddress) : res IPAddress :=
  if ip_ver a =? 4 then Ok a
  else if (0 <=? ip_value a) && (ip_value a <=? 0xffffffff)
       then Ok (mkIP 4 (ip_value a))
  else if (V4_MAPPED <=? ip_value a) && (ip_value a <=? 0xffffffffffff)
       then Ok (mkIP 4 (ip_value a - V4_MAPPED))
  else Raise AddrConversionError.

(** [IPAddress.ipv6()] with its default [ipv4_compatible=False]. *)
Definition ipv6 (a : IPAddress) : IPAddress :=
  if ip_ver a =? 4 then mkIP 6 (V4_MAPPED + ip_value a)
  else mkIP 6 (ip_value a).

(** [bool(IPAddress)]: an address is truthy when its value is not zero. *)
Definition ip_truthy (a : IPAddress) : bool := negb (ip_value a =? 0).

(** [netaddr.IPNetwork]: the address as written, and the prefix length.
    [net_value] is [IPNetwork.value], the address part as it was given. *)
Record IPNetwork : Type :=
  mkNet { net_ver : Z; net_value : Z; net_prefixlen : Z }.

Definition net_hostbits (n : IPNetwork) : Z := width (net_ver n) - net_prefixlen n.

(** [IPNetwork.first], the network base. *)
Definition net_first (n : IPNetwork) : Z :=
  Z.shiftl (Z.shiftr (net_value n) (net_hostbits n)) (net_hostbits n).

(** [IPNetwork.size] *)
Definition net_size (n : IPNetwork) : Z := 2 ^ net_hostbits n.

Definition net_last (n : IPNetwork) : Z := net_first n + net_size n - 1.

(** [ip in IPNetwork] *)
Definition net_contains (n : IPNetwork) (a : IPAddress) : bool :=
  (net_ver n =? ip_ver a) &&
  (Z.shiftr (ip_value a) (net_hostbits n) =? Z.shiftr (net_value n) (net_hostbits n)).

(** [ip in IPSet(cidrs)] *)
Definition ipset_contains (s : list IPNetwork) (a : IPAddress) : bool :=
  existsb (fun n => net_contains n a) s.

(** [netaddr.EUI(int).eui64().value]: an EUI-48 gets [ff:fe] inserted between
    its two halves, an EUI-64 is kept. *)
Definition eui64_value (mac : Z) : res Z :=
  if (0 <=? mac) && (mac <=? 2 ^ 48 - 1) then
    Ok (Z.lor (Z.lor (Z.shiftl (Z.shiftr mac 24) 40) 0xfffe000000)
              (Z.land mac 0xffffff))
  else if (0 <=? mac) && (mac <=? 2 ^ 64 - 1) then Ok mac
  else Raise AddrFormatError.

(** [netaddr.EUI(int)]: the integer has to fit an EUI-48 or an EUI-64. *)
Definition EUI_of_int (mac : Z) : res Z :=
  if (0 <=? mac) && (mac <=? 2 ^ 64 - 1) then Ok mac else Raise AddrFormatError.

End Netaddr.
Import Netaddr.

(** ** The process-wide generator of Python's [random] module (MT19937) *)

Module Random.

Definition N_ : nat := 624.
Definition M_ : nat := 397.
Definition mask32 (x : Z) : Z := Z.land x 0xffffffff.

Record rng_state : Type := mkRng { mt : list Z; mti : nat }.

Definition get (l : list Z) (i : nat) : Z := nth i l 0.

Fixpoint set (l : list Z) (i : nat) (v : Z) : list Z :=
  match l, i with
  | [], _ => []
  | _ :: t, O => v :: t
  | h :: t, S j => h :: set t j v
  end.

(** [init_genrand] *)
Fixpoint init_genrand_from (k : nat) (i : Z) (prev : Z) : list Z :=
  match k with
  | O => []
  | S k' =>
      let x := mask32 (1812433253 * Z.lxor prev (Z.shiftr prev 30) + i) in
      x :: init_genrand_from k' (i + 1) x
  end.

Definition init_genrand (s : Z) : list Z :=
  let s0 := mask32 s in s0 :: init_genrand_from (N_ - 1) 1 s0.

Definition wrap_i (m : list Z) (i : nat) : list Z * nat :=
  if Nat.leb N_ i then (set m 0 (get m (N_ - 1)), 1%nat) else (m, i).

Fixpoint init_by_array_1 (k : nat) (key : list Z) (m : list Z) (i j : nat)
  : list Z * nat :=
  match k with
  | O => (m, i)
  | S k' =>
      let p := get m (i - 1) in
      let v := mask32 (Z.lxor (get m i) (Z.lxor p (Z.shiftr p 30) * 1664525)
                       + get key j + Z.of_nat j) in
      let '(m1, i1) := wrap_i (set m i v) (S i) in
      let j1 := if Nat.leb (List.length key) (S j) then O else S j in
      init_by_array_1 k' key m1 i1 j1
  end.

Fixpoint init_by_array_2 (k : nat) (m : list Z) (i : nat) : list Z :=
  match k with
  | O => m
  | S k' =>
      let p := get m (i - 1) in
      let v := mask32 (Z.lxor (get m i) (Z.lxor p (Z.shiftr p 30) * 1566083941)
                       - Z.of_nat i) in
      let '(m1, i1) := wrap_i (set m i v) (S i) in
      init_by_array_2 k' m1 i1
  end.

Definition init_by_array (key : list Z) : rng_state :=
  let m0 := init_genrand 19650218 in
  let '(m1, i1) := init_by_array_1 (Nat.max N_ (List.length key)) key m0 1 0 in
  let m2 := init_by_array_2 (N_ - 1) m1 i1 in
  mkRng (set m2 0 0x80000000) N_.

(** The seed is cut into 32-bit chunks from the right. *)
Fixpoint chunks32 (fuel : nat) (n : Z) : list Z :=
  match fuel with
  | O => []
  | S f => if n =? 0 then [] else Z.land n 0xffffffff :: chunks32 f (Z.shiftr n 32)
  end.

(** [random.seed(a)] for an integer [a] *)
Definition seed (a : Z) : rng_state :=
  let n := Z.abs a in
  match chunks32 (S (Z.to_nat (Z.log2 n))) n with
  | [] => init_by_array [0]
  | key => init_by_array key
  end.

Definition mag01 (y : Z) : Z := if Z.testbit y 0 then 0x9908b0df else 0.

Definition mix (a b : Z) : Z :=
  Z.lor (Z.land a 0x80000000) (Z.land b 0x7fffffff).

Fixpoint twist_from (k : nat) (kk : nat) (m : list Z) : list Z :=
  match k with
  | O => m
  | S k' =>
      let y := mix (get m kk) (get m (Nat.modulo (kk + 1) N_)) in
      let src := get m (Nat.modulo (kk + M_) N_) in
      twist_from k' (S kk)
        (set m kk (Z.lxor (Z.lxor src (Z.shiftr y 1)) (mag01 y)))
  end.

Definition temper (y0 : Z) : Z :=
  let y1 := Z.lxor y0 (Z.shiftr y0 11) in
  let y2 := Z.lxor y1 (Z.land (Z.shiftl y1 7) 0x9d2c5680) in
  let y3 := Z.lxor y2 (Z.land (Z.shiftl y2 15) 0xefc60000) in
  Z.lxor y3 (Z.shiftr y3 18).

(** [genrand_int32] *)
Definition genrand_int32 (s : rng_state) : Z * rng_state :=
  let s1 := if Nat.leb N_ (mti s) then mkRng (twist_from N_ 0 (mt s)) 0 else s in
  (temper (get (mt s1) (mti s1)), mkRng (mt s1) (S (mti s1))).

(** [random.getrandbits(64)]: two words, the first one least significant. *)
Definition getrandbits64 (s : rng_state) : Z * rng_state :=
  let '(lo, s1) := genrand_int32 s in
  let '(hi, s2) := genrand_int32 s1 in
  (Z.lor lo (Z.shiftl hi 32), s2).

End Random.

(** ** The v6 candidate generators of [quark/ipam.py] *)

Module Generators.

(** [netaddr.IPAddress("::0200:0:0:0").value] *)
Definition MAGIC_INT : Z := 144115188075855872.

(** A port id is given by [int(uuid.UUID(port_id))], the 128-bit value of
    the identifier. *)
Definition uuid_int : Type := Z.

Definition rfc2462_ip (mac : Z) (cidr : IPNetwork) : res Z :=
  let int_val := net_value cidr in
  match eui64_value mac with
  | Ok e => Ok (Z.lxor (int_val + e) MAGIC_INT)
  | Raise x => Raise x
  end.

(** A Python generator is a suspended computation.  [rfc3041_ip] is either
    not yet started (its body runs [random.seed] on the first [next]) or
    suspended at its [yield], holding [int_val]. *)
Inductive rfc3041_gen : Type :=
| R_new (port_id : uuid_int) (cidr : IPNetwork)
| R_loop (int_val : Z).

(** One [next()] on [rfc3041_ip]; the state of the [random] module is shared
    by the whole process and threaded through. *)
Definition rfc3041_next (g : rfc3041_gen) (rng : Random.rng_state)
  : Z * rfc3041_gen * Random.rng_state :=
  match g with
  | R_new port_id cidr =>
      let rng1 := Random.seed port_id in
      let int_val := net_value cidr in
      let '(bits, rng2) := Random.getrandbits64 rng1 in
      (Z.lxor (int_val + bits) MAGIC_INT, R_loop int_val, rng2)
  | R_loop int_val =>
      let '(bits, rng2) := Random.getrandbits64 rng in
      (Z.lxor (int_val + bits) MAGIC_INT, R_loop int_val, rng2)
  end.

Inductive v6_gen : Type :=
| G_new (mac : option Z) (port_id : uuid_int) (cidr : IPNetwork)
| G_rfc3041 (r : rfc3041_gen)
| G_done.

(** [generate_v6(mac, port_id, cidr)] creates the generator; nothing runs
    before the first [next()]. *)
Definition generate_v6 (mac : option Z) (port_id : uuid_int) (cidr : IPNetwork)
  : v6_gen := G_new mac port_id cidr.

Definition v6_next (g : v6_gen) (rng : Random.rng_state)
  : res Z * v6_gen * Random.rng_state :=
  match g with
  | G_new (Some mac) port_id cidr =>
      match rfc2462_ip mac cidr with
      | Ok v => (Ok v, G_rfc3041 (R_new port_id cidr), rng)
      | Raise x => (Raise x, G_done, rng)
      end
  | G_new None port_id cidr =>
      let '(v, r, rng') := rfc3041_next (R_new port_id cidr) rng in
      (Ok v, G_rfc3041 r, rng')
  | G_rfc3041 r =>
      let '(v, r', rng') := rfc3041_next r rng in
      (Ok v, G_rfc3041 r', rng')
  | G_done => (Raise StopIteration, G_done, rng)
  end.

(** [list(itertools.islice(g, n))] with nothing else touching [random]. *)
Fixpoint v6_take (n : nat) (g : v6_gen) (rng : Random.rng_state)
  : res (list Z) * v6_gen * Random.rng_state :=
  match n with
  | O => (Ok [], g, rng)
  | S n' =>
      match v6_next g rng with
      | (Ok v, g1, rng1) =>
          match v6_take n' g1 rng1 with
          | (Ok vs, g2, rng2) => (Ok (v :: vs), g2, rng2)
          | other => other
          end
      | (Raise x, g1, rng1) => (Raise x, g1, rng1)
      end
  end.

(** Two generators living in the same process, advanced in the order a
    schedule gives: [false] is a [next()] on the first, [true] on the
    second.  The values each one yielded are collected separately. *)
Fixpoint v6_interleave (sched : list bool) (g1 g2 : v6_gen)
  (rng : Random.rng_state) : list (res Z) * list (res Z) :=
  match sched with
  | [] => ([], [])
  | false :: rest =>
      let '(v, g1', rng') := v6_next g1 rng in
      let '(o1, o2) := v6_interleave rest g1' g2 rng' in
      (v :: o1, o2)
  | true :: rest =>
      let '(v, g2', rng') := v6_next g2 rng in
      let '(o1, o2) := v6_interleave rest g1 g2' rng' in
      (o1, v :: o2)
  end.

End Generators.

(** ** The relational store: rows, keyword filters, queries *)

Module Store.

Open Scope string_scope.
Open Scope Z_scope.

(** Identifiers are UUIDs, kept as their 128-bit value. *)
Definition uuid : Type := Z.

(** Python values that travel in keyword arguments and SQL columns. *)
Inductive scalar : Type :=
| SNone
| SBool (b : bool)
| SInt (z : Z)
| SStr (s : string)
| SId (u : uuid)
| SAddr (a : IPAddress).

Inductive pyval : Type :=
| PScalar (s : scalar)
| PList (l : list scalar).

Definition scalar_truthy (s : scalar) : bool :=
  match s with
  | SNone => false
  | SBool b => b
  | SInt z => negb (z =? 0)
  | SStr s => negb (String.eqb s EmptyString)
  | SId _ => true
  | SAddr a => ip_truthy a
  end.

Definition truthy (v : pyval) : bool :=
  match v with
  | PScalar s => scalar_truthy s
  | PList [] => false
  | PList (_ :: _) => true
  end.

(** SQL equality of a column with a bound value; NULL equals nothing. *)
Definition scalar_eqb (a b : scalar) : bool :=
  match a, b with
  | SBool x, SBool y => Bool.eqb x y
  | SInt x, SInt y => x =? y
  | SStr x, SStr y => String.eqb x y
  | SId x, SId y => x =? y
  | SAddr x, SAddr y => IPAddress_eqb x y
  | _, _ => false
  end.

(** *** Keyword dictionaries *)

Definition kwargs : Type := list (string * pyval).

Fixpoint kw_get (k : string) (d : kwargs) : option pyval :=
  match d with
  | [] => None
  | (k', v) :: t => if String.eqb k k' then Some v else kw_get k t
  end.

Fixpoint kw_set (k : string) (v : pyval) (d : kwargs) : kwargs :=
  match d with
  | [] => [(k, v)]
  | (k', v') :: t =>
      if String.eqb k k' then (k, v) :: t else (k', v') :: kw_set k v t
  end.

Definition kw_del (k : string) (d : kwargs) : kwargs :=
  filter (fun kv => negb (String.eqb k (fst kv))) d.

Definition mem_str (k : string) (l : list string) : bool :=
  existsb (String.eqb k) l.

(** [_listify] *)
Definition _listify (filters : kwargs) : kwargs :=
  fold_left
    (fun d key =>
       match kw_get key d with
       | None => d
       | Some v =>
           if negb (truthy v) then d
           else match v with
                | PScalar s => kw_set key (PList [s]) d
                | PList _ => d
                end
       end)
    ["name"; "network_id"; "id"; "device_id"; "tenant_id";
     "subnet_id"; "mac_address"; "shared"; "version"; "segment_id";
     "device_owner"; "ip_address"; "used_by_tenant_id"; "group_id"]
    filters.

(** *** Models *)

Inductive model : Type := MIPAddress | MMacAddress | MSubnet.

Definition model_eqb (a b : model) : bool :=
  match a, b with
  | MIPAddress, MIPAddress | MMacAddress, MMacAddress | MSubnet, MSubnet => true
  | _, _ => false
  end.

(** Modelled from the spec: the mapped classes live in [quark/db/models.py],
    which is not among the sources.  The column names are those of the data
    model of section 3 and of the keys the engine reads and writes. *)
Definition column_attrs (m : model) : list string :=
  match m with
  | MIPAddress =>
      ["id"; "address"; "address_readable"; "version"; "subnet_id";
       "network_id"; "used_by_tenant_id"; "allocated_at"; "_deallocated";
       "deallocated_at"; "address_type"; "transaction_id"]
  | MMacAddress =>
      ["address"; "mac_address_range_id"; "tenant_id"; "deallocated";
       "deallocated_at"; "transaction_id"]
  | MSubnet =>
      ["id"; "network_id"; "tenant_id"; "_cidr"; "first_ip"; "last_ip";
       "ip_version"; "next_auto_assign_ip"; "segment_id"; "do_not_use";
       "ip_policy_id"; "_allocation_pool_cache"]
  end.

(** [_model_attrs] *)
Definition _model_attrs (m : model) : list string :=
  let a := column_attrs m in
  let a := if mem_str "_cidr" a then (a ++ ["cidr"])%list else a in
  if mem_str "_deallocated" a then (a ++ ["deallocated"])%list else a.

(** The SQL conditions [_model_query] can produce for these models. *)
Inductive model_filter : Type :=
| F_in (col : string) (vals : list scalar)
| F_eq (col : string) (v : scalar)
| F_deallocated_flag (is_set : bool)
| F_deallocated_at_le (t : Z).

Record Context : Type :=
  mkContext { tenant_id : string; is_admin : bool }.

(** [context.elevated()] *)
Definition elevated (c : Context) : Context := mkContext (tenant_id c) true.

Definition eq_filters : list string :=
  ["address"; "cidr"; "deallocated"; "ip_version"; "mac_address_range_id";
   "transaction_id"].

Definition in_filters : list string :=
  ["device_id"; "device_owner"; "group_id"; "id"; "mac_address"; "name";
   "network_id"; "segment_id"; "subnet_id"; "used_by_tenant_id"; "version"].

Fixpoint addresses_ipv6 (l : list scalar) : res (list scalar) :=
  match l with
  | [] => Ok []
  | SAddr a :: t =>
      match addresses_ipv6 t with
      | Ok t' => Ok (SInt (ip_value (ipv6 a)) :: t')
      | Raise e => Raise e
      end
  | _ :: _ => Raise TypeError
  end.

(** The condition one filter entry turns into; [None] when the entry adds
    nothing. *)
Definition filter_of_entry (now : Z) (m : model) (key : string) (value : pyval)
  : res (option model_filter) :=
  match value with
  | PScalar SNone => Ok None
  | _ =>
      if mem_str key in_filters then
        match value with
        | PList l => Ok (Some (F_in key l))
        | PScalar _ => Raise TypeError
        end
      else if mem_str key eq_filters then
        match value with
        | PScalar s => Ok (Some (F_eq key s))
        | PList _ => Raise TypeError
        end
      else if String.eqb key "_deallocated" then
        Ok (Some (F_deallocated_flag (truthy value)))
      else if String.eqb key "ip_address" then
        match value with
        | PList l =>
            match addresses_ipv6 l with
            | Ok vs => Ok (Some (F_in "address" vs))
            | Raise e => Raise e
            end
        | PScalar _ => Raise TypeError
        end
      else if String.eqb key "reuse_after" then
        match value with
        | PScalar (SInt s) => Ok (Some (F_deallocated_at_le (now - s)))
        | _ => Raise TypeError
        end
      else if String.eqb key "tenant_id" then
        match value with
        | PList l =>
            Ok (Some (F_in (if model_eqb m MIPAddress
                            then "used_by_tenant_id" else "tenant_id") l))
        | PScalar _ => Raise TypeError
        end
      else Ok None
  end.

Fixpoint filters_of_entries (now : Z) (m : model) (d : kwargs)
  : res (list model_filter) :=
  match d with
  | [] => Ok []
  | (key, value) :: t =>
      match filter_of_entry now m key value with
      | Raise e => Raise e
      | Ok o =>
          match filters_of_entries now m t with
          | Raise e => Raise e
          | Ok fs => Ok (match o with Some f => f :: fs | None => fs end)
          end
      end
  end.

(** [_model_query] *)
Definition _model_query (now : Z) (context : Context) (m : model)
  (filters : kwargs) : res (list model_filter) :=
  let attrs := _model_attrs m in
  let filters :=
    filter
      (fun kv =>
         let x := fst kv in
         mem_str x attrs
         || (String.eqb x "tenant_id" && model_eqb m MIPAddress)
         || (String.eqb x "ip_address" && model_eqb m MIPAddress)
         || (String.eqb x "reuse_after"
             && (model_eqb m MIPAddress || model_eqb m MMacAddress)))
      filters in
  let has_tenant :=
    match kw_get "tenant_id" filters with
    | Some v => truthy v
    | None => false
    end in
  let filters :=
    if negb has_tenant && negb (is_admin context)
    then kw_set "tenant_id" (PList [SStr (tenant_id context)]) filters
    else filters in
  filters_of_entries now m filters.

End Store.
Import Store.

(** ** Rows and the state of the world *)

Module Models.

Open Scope string_scope.
Open Scope Z_scope.

Record IPPolicy : Type :=
  mkIPPolicy { policy_size : Z; exclude : list IPNetwork }.

Record Subnet : Type :=
  mkSubnet {
    sub_id : uuid;
    sub_network_id : uuid;
    sub_tenant_id : string;
    cidr : IPNetwork;
    first_ip : Z;
    last_ip : Z;
    ip_version : Z;
    next_auto_assign_ip : Z;
    segment_id : option string;
    do_not_use : bool;
    ip_policy : option IPPolicy
  }.

(** [address_readable] holds the address whose [str()] the column stores. *)
Record IPAddressRow : Type :=
  mkIPAddressRow {
    ip_id : uuid;
    address : Z;
    address_readable : IPAddress;
    version : Z;
    subnet_id : uuid;
    network_id : uuid;
    used_by_tenant_id : string;
    allocated_at : option Z;
    _deallocated : bool;
    deallocated_at : option Z;
    address_type : option string;
    transaction_id : option uuid
  }.

Record MacAddressRange : Type :=
  mkMacAddressRange {
    range_id : uuid;
    first_address : Z;
    last_address : Z;
    next_auto_assign_mac : Z;
    range_do_not_use : bool
  }.

Record MacAddress : Type :=
  mkMacAddress {
    mac_address : Z;
    mac_address_range_id : option uuid;
    mac_tenant_id : string;
    mac_deallocated : bool;
    mac_deallocated_at : option Z;
    mac_transaction_id : option uuid
  }.

(** Modelled from the spec: [IPPolicy.get_ip_policy_cidrs] is declared in
    [quark/db/models.py], which is not among the sources.  Section 4.2: it
    returns the set of the excluded CIDRs of the subnet's policy; the callers
    test the result against [None], which stands for a subnet without
    policy. *)
Definition get_ip_policy_cidrs (subnet : Subnet) : option (list IPNetwork) :=
  option_map exclude (ip_policy subnet).

Definition opt_id (o : option uuid) : scalar :=
  match o with Some u => SId u | None => SNone end.

Definition opt_str (o : option string) : scalar :=
  match o with Some s => SStr s | None => SNone end.

(** The value of a named column of a row. *)
Definition ip_col (c : string) (r : IPAddressRow) : scalar :=
  if String.eqb c "id" then SId (ip_id r)
  else if String.eqb c "address" then SInt (address r)
  else if String.eqb c "version" then SInt (version r)
  else if String.eqb c "subnet_id" then SId (subnet_id r)
  else if String.eqb c "network_id" then SId (network_id r)
  else if String.eqb c "used_by_tenant_id" then SStr (used_by_tenant_id r)
  else if String.eqb c "deallocated" then SBool (_deallocated r)
  else if String.eqb c "transaction_id" then opt_id (transaction_id r)
  else if String.eqb c "address_type" then opt_str (address_type r)
  else SNone.

Definition mac_col (c : string) (r : MacAddress) : scalar :=
  if String.eqb c "address" then SInt (mac_address r)
  else if String.eqb c "mac_address_range_id" then opt_id (mac_address_range_id r)
  else if String.eqb c "tenant_id" then SStr (mac_tenant_id r)
  else if String.eqb c "deallocated" then SBool (mac_deallocated r)
  else if String.eqb c "transaction_id" then opt_id (mac_transaction_id r)
  else SNone.

Definition subnet_col (c : string) (r : Subnet) : scalar :=
  if String.eqb c "id" then SId (sub_id r)
  else if String.eqb c "network_id" then SId (sub_network_id r)
  else if String.eqb c "tenant_id" then SStr (sub_tenant_id r)
  else if String.eqb c "segment_id" then opt_str (segment_id r)
  else if String.eqb c "ip_version" then SInt (ip_version r)
  else SNone.

Section Eval.
Variable R : Type.
Variable col : string -> R -> scalar.
Variable dealloc_flag : R -> bool.
Variable dealloc_at : R -> option Z.

(** The truth of one SQL condition on one row. *)
Definition eval_filter (f : model_filter) (r : R) : bool :=
  match f with
  | F_in c vals => existsb (scalar_eqb (col c r)) vals
  | F_eq c v => scalar_eqb (col c r) v
  | F_deallocated_flag b => Bool.eqb (dealloc_flag r) b
  | F_deallocated_at_le t =>
      match dealloc_at r with
      | Some d => d <=? t
      | None => false
      end
  end.

(** [query.filter( *model_filters)]: all the conditions hold. *)
Definition matches (fs : list model_filter) (r : R) : bool :=
  forallb (fun f => eval_filter f r) fs.

(** Modelled from the spec: [quark_sa.update] is called with
    [update_args={"mysql_limit": 1}] but is not defined in the sources.
    Section 4.3: [UPDATE ... WHERE filters LIMIT 1], which changes at most
    one matching row and returns the number of rows affected. *)
Fixpoint update_limit_1 (fs : list model_filter) (upd : R -> R) (rows : list R)
  : Z * list R :=
  match rows with
  | [] => (0, [])
  | r :: t =>
      if matches fs r then (1, upd r :: t)
      else let '(n, t') := update_limit_1 fs upd t in (n, r :: t')
  end.

(** [query.first()] *)
Definition first (fs : list model_filter) (rows : list R) : option R :=
  find (matches fs) rows.
End Eval.

Definition subnet_matches :=
  matches subnet_col (fun _ : Subnet => false) (fun _ : Subnet => @None Z).

Record DB : Type :=
  mkDB {
    subnets : list Subnet;
    ip_addresses : list IPAddressRow;
    mac_address_ranges : list MacAddressRange;
    mac_addresses : list MacAddress
  }.

(** What a call can see and change: the tables, the clock, the failures the
    store is going to report (one entry per statement, [true] for a
    statement that raises), the state of the [random] module, the source of
    fresh identifiers and the events handed to the notifier. *)
Record World : Type :=
  mkWorld {
    db : DB;
    utcnow : Z;
    faults : list bool;
    rng : Random.rng_state;
    next_uuid : uuid;
    notifications : list (string * uuid)
  }.

Definition with_db (f : DB -> DB) (w : World) : World :=
  mkWorld (f (db w)) (utcnow w) (faults w) (rng w) (next_uuid w) (notifications w).

Definition set_subnets (l : list Subnet) (d : DB) : DB :=
  mkDB l (ip_addresses d) (mac_address_ranges d) (mac_addresses d).
Definition set_ip_addresses (l : list IPAddressRow) (d : DB) : DB :=
  mkDB (subnets d) l (mac_address_ranges d) (mac_addresses d).
Definition set_mac_address_ranges (l : list MacAddressRange) (d : DB) : DB :=
  mkDB (subnets d) (ip_addresses d) l (mac_addresses d).
Definition set_mac_addresses (l : list MacAddress) (d : DB) : DB :=
  mkDB (subnets d) (ip_addresses d) (mac_address_ranges d) l.

End Models.
Import Models.

(** ** Computations: state and exceptions *)

Module Py.

Definition M (A : Type) : Type := World -> res A * World.

Definition ret {A} (a : A) : M A := fun w => (Ok a, w).

Definition bind {A B} (m : M A) (k : A -> M B) : M B :=
  fun w => match m w with
           | (Ok a, w') => k a w'
           | (Raise e, w') => (Raise e, w')
           end.

Definition raise {A} (e : exn) : M A := fun w => (Raise e, w).

Definition lift {A} (r : res A) : M A := fun w => (r, w).

(** [try: m except <handled>: h] *)
Definition try_except {A} (m : M A) (handled : exn -> bool) (h : exn -> M A)
  : M A :=
  fun w => match m w with
           | (Raise e, w') => if handled e then h e w' else (Raise e, w')
           | ok => ok
           end.

(** [except Exception] *)
Definition any_Exception (_ : exn) : bool := true.

Definition get_world : M World := fun w => (Ok w, w).
Definition get_db : M DB := fun w => (Ok (db w), w).
Definition modify_db (f : DB -> DB) : M unit := fun w => (Ok tt, with_db f w).

(** One statement sent to the store: it raises when the store says so. *)
Definition stmt : M unit :=
  fun w =>
    match faults w with
    | true :: t =>
        (Raise DBError,
         mkWorld (db w) (utcnow w) t (rng w) (next_uuid w) (notifications w))
    | false :: t =>
        (Ok tt, mkWorld (db w) (utcnow w) t (rng w) (next_uuid w) (notifications w))
    | [] => (Ok tt, w)
    end.

(** [with context.session.begin():] the changes of the block are undone
    when it is left by an exception. *)
Definition with_begin {A} (m : M A) : M A :=
  fun w => match m w with
           | (Raise e, w') => (Raise e, with_db (fun _ => db w) w')
           | ok => ok
           end.

Definition fresh_uuid : M uuid :=
  fun w => (Ok (next_uuid w),
            mkWorld (db w) (utcnow w) (faults w) (rng w) (next_uuid w + 1)
                    (notifications w)).

Definition notify (event : string) (ip : uuid) : M unit :=
  fun w => (Ok tt,
            mkWorld (db w) (utcnow w) (faults w) (rng w) (next_uuid w)
                    (notifications w ++ [(event, ip)])).

End Py.
Import Py.

Declare Scope py_scope.
Delimit Scope py_scope with py.
Notation "x <- m ;; k" := (bind m (fun x => k))
  (at level 100, m at next level, right associativity) : py_scope.
Notation "m ;;; k" := (bind m (fun _ => k))
  (at level 100, right associativity) : py_scope.
Open Scope py_scope.

(** ** [quark.db.api] *)

Module Db_api.

Open Scope string_scope.
Open Scope Z_scope.

Definition now_query (context : Context) (m : model) (filters : kwargs)
  : M (list model_filter) :=
  fun w => (_model_query (utcnow w) context m filters, w).

(** [transaction_create] *)
Definition transaction_create (context : Context) : M uuid :=
  stmt ;;; fresh_uuid.

(** *** IP addresses *)

(** [ip_address_find(..., scope=ONE)] *)
Definition ip_address_find_one (context : Context) (filters : kwargs)
  : M (option IPAddressRow) :=
  let filters := _listify filters in
  stmt ;;;
  fs <- now_query context MIPAddress filters ;;
  d <- get_db ;;
  ret (first ip_col _deallocated deallocated_at fs (ip_addresses d)).

(** [ip_address_reallocate]: the claim.  [True] when one row was updated. *)
Definition ip_address_reallocate (context : Context)
  (update_kwargs : IPAddressRow -> IPAddressRow) (filters : kwargs) : M bool :=
  let filters := _listify filters in
  stmt ;;;
  fs <- now_query context MIPAddress filters ;;
  d <- get_db ;;
  let '(row_count, rows) :=
    update_limit_1 ip_col _deallocated deallocated_at fs update_kwargs
                   (ip_addresses d) in
  modify_db (set_ip_addresses rows) ;;;
  ret (row_count =? 1).

(** [context.session.delete(address)] *)
Definition ip_address_delete (a : IPAddressRow) : M unit :=
  modify_db (fun d =>
    set_ip_addresses
      (filter (fun r => negb (ip_id r =? ip_id a)) (ip_addresses d)) d).

(** [address.get('subnet')] *)
Definition subnet_of (d : DB) (a : IPAddressRow) : option Subnet :=
  find (fun s => sub_id s =? subnet_id a) (subnets d).

(** The address a row stands for, read in the family of its subnet, as
    [ip_address_reallocate_find] computes it before its two checks. *)
Definition row_addr (subnet : Subnet) (a : IPAddressRow) : res IPAddress :=
  match IPAddress_of_int (address a) with
  | Raise e => Raise e
  | Ok addr => if ip_version subnet =? 4 then ipv4 addr else Ok (ipv6 addr)
  end.

(** [ip_address_reallocate_find] *)
Definition ip_address_reallocate_find (context : Context) (transaction_id : uuid)
  : M (option IPAddressRow) :=
  o <- ip_address_find_one context
         [("transaction_id", PScalar (SId transaction_id))] ;;
  match o with
  | None => ret None
  | Some address =>
      d <- get_db ;;
      match subnet_of d address with
      | None => ret None
      | Some subnet =>
          if do_not_use subnet then ret None
          else
            addr <- lift (row_addr subnet address) ;;
            let policy := get_ip_policy_cidrs subnet in
            if match policy with
               | Some p => ipset_contains p addr
               | None => false
               end
            then ip_address_delete address ;;; ret None
            else if negb (net_contains (cidr subnet) addr)
            then ip_address_delete address ;;; ret None
            else ret (Some address)
      end
  end.

(** The unique index on [(subnet_id, address)]. *)
Definition ip_unique_conflict (d : DB) (sid : uuid) (addr : Z) : bool :=
  existsb (fun r => (subnet_id r =? sid) && (address r =? addr)) (ip_addresses d).

(** [ip_address_create]; the row reaches the table when the enclosing
    [session.begin()] block commits, where a duplicate key is reported. *)
Definition ip_address_create (context : Context) (addr : IPAddress)
  (sid : uuid) (ver : Z) (net_id : uuid) (atype : option string)
  : M IPAddressRow :=
  stmt ;;;
  id <- fresh_uuid ;;
  w <- get_world ;;
  let row :=
    mkIPAddressRow id (ip_value (ipv6 addr)) addr ver sid net_id
                   (tenant_id context) (Some (utcnow w)) false None atype None in
  if ip_unique_conflict (db w) sid (address row) then raise DBDuplicateEntry
  else modify_db (fun d => set_ip_addresses (ip_addresses d ++ [row])%list d) ;;;
       ret row.

(** [ip_address_update] *)
Definition ip_address_update (context : Context) (a : IPAddressRow)
  (kwargs : IPAddressRow -> IPAddressRow) : M IPAddressRow :=
  stmt ;;;
  modify_db (fun d =>
    set_ip_addresses
      (map (fun r => if ip_id r =? ip_id a then kwargs a else r) (ip_addresses d))
      d) ;;;
  ret (kwargs a).

(** *** MAC addresses *)

Definition mac_address_find_one (context : Context) (filters : kwargs)
  : M (option MacAddress) :=
  let filters := _listify filters in
  stmt ;;;
  fs <- now_query context MMacAddress filters ;;
  d <- get_db ;;
  ret (first mac_col mac_deallocated mac_deallocated_at fs (mac_addresses d)).

(** [mac_address_reallocate] *)
Definition mac_address_reallocate (context : Context)
  (update_kwargs : MacAddress -> MacAddress) (filters : kwargs) : M bool :=
  let filters := _listify filters in
  stmt ;;;
  fs <- now_query context MMacAddress filters ;;
  d <- get_db ;;
  let '(row_count, rows) :=
    update_limit_1 mac_col mac_deallocated mac_deallocated_at fs update_kwargs
                   (mac_addresses d) in
  modify_db (set_mac_addresses rows) ;;;
  ret (row_count =? 1).

(** [mac_address_delete] *)
Definition mac_address_delete (context : Context) (mac : MacAddress) : M unit :=
  modify_db (fun d =>
    set_mac_addresses
      (filter (fun r => negb (mac_address r =? mac_address mac)) (mac_addresses d))
      d).

(** [mac["mac_address_range"]] *)
Definition range_of (d : DB) (mac : MacAddress) : option MacAddressRange :=
  match mac_address_range_id mac with
  | None => None
  | Some rid => find (fun r => range_id r =? rid) (mac_address_ranges d)
  end.

(** [mac_address_reallocate_find] *)
Definition mac_address_reallocate_find (context : Context) (transaction_id : uuid)
  : M (option MacAddress) :=
  o <- mac_address_find_one context
         [("transaction_id", PScalar (SId transaction_id))] ;;
  match o with
  | None => ret None
  | Some mac =>
      d <- get_db ;;
      match range_of d mac with
      | Some r =>
          if range_do_not_use r
          then mac_address_delete context mac ;;; ret None
          else ret (Some mac)
      | None => ret (Some mac)
      end
  end.

Definition mac_count (d : DB) (r : MacAddressRange) : Z :=
  Z.of_nat (List.length
    (filter (fun m => match mac_address_range_id m with
                      | Some rid => rid =? range_id r
                      | None => false
                      end) (mac_addresses d))).

(** The first row of the greatest count, as [ORDER BY count DESC LIMIT 1]
    leaves it. *)
Fixpoint best_range (d : DB) (l : list MacAddressRange)
  : option (MacAddressRange * Z) :=
  match l with
  | [] => None
  | r :: t =>
      match best_range d t with
      | Some (r', c') =>
          if c' <=? mac_count d r then Some (r, mac_count d r) else Some (r', c')
      | None => Some (r, mac_count d r)
      end
  end.

(** [mac_address_range_find_allocation_counts] *)
Definition mac_address_range_find_allocation_counts (context : Context)
  (address : option Z) (use_forbidden_mac_range : bool)
  : M (option (MacAddressRange * Z)) :=
  stmt ;;;
  d <- get_db ;;
  let by_address r :=
    match address with
    | Some a => if a =? 0 then true
                else (a <=? last_address r) && (first_address r <=? a)
    | None => true
    end in
  let ok r :=
    by_address r && negb (next_auto_assign_mac r =? -1)
    && (use_forbidden_mac_range || negb (range_do_not_use r)) in
  ret (best_range d (filter ok (mac_address_ranges d))).

Definition update_ranges (rid : uuid) (f : Z -> Z) (l : list MacAddressRange)
  : list MacAddressRange :=
  map (fun r =>
         if (range_id r =? rid) && negb (next_auto_assign_mac r =? -1)
         then mkMacAddressRange (range_id r) (first_address r) (last_address r)
                                (f (next_auto_assign_mac r)) (range_do_not_use r)
         else r) l.

(** [mac_range_update_next_auto_assign_mac] *)
Definition mac_range_update_next_auto_assign_mac (context : Context)
  (mac_range : MacAddressRange) : M unit :=
  stmt ;;;
  modify_db (fun d =>
    set_mac_address_ranges
      (update_ranges (range_id mac_range) (fun c => c + 1) (mac_address_ranges d)) d).

(** [mac_range_update_set_full] *)
Definition mac_range_update_set_full (context : Context)
  (mac_range : MacAddressRange) : M unit :=
  stmt ;;;
  modify_db (fun d =>
    set_mac_address_ranges
      (update_ranges (range_id mac_range) (fun _ => -1) (mac_address_ranges d)) d).

(** [context.session.refresh(rng)] *)
Definition refresh_range (r : MacAddressRange) : M MacAddressRange :=
  stmt ;;;
  d <- get_db ;;
  match find (fun x => range_id x =? range_id r) (mac_address_ranges d) with
  | Some r' => ret r'
  | None => raise DBError
  end.

(** [mac_address_create]; [address] is the primary key. *)
Definition mac_address_create (context : Context) (address : Z)
  (range : uuid) : M MacAddress :=
  stmt ;;;
  d <- get_db ;;
  let row := mkMacAddress address (Some range) (tenant_id context) false None None in
  if existsb (fun m => mac_address m =? address) (mac_addresses d)
  then raise DBDuplicateEntry
  else modify_db (fun d => set_mac_addresses (mac_addresses d ++ [row])%list d) ;;;
       ret row.

(** *** Subnets *)

(** [subnet_find(elevated, network_id=..., segment_id=...)], iterated. *)
Definition subnet_find (context : Context) (filters : kwargs)
  : M (list Subnet) :=
  let filters := _listify filters in
  stmt ;;;
  fs <- now_query context MSubnet filters ;;
  d <- get_db ;;
  ret (filter (subnet_matches fs) (subnets d)).

(** Modelled from the spec: the relationship [Subnet.generated_ips] is
    declared in [quark/db/models.py], which is not among the sources.
    Section 4.4 joins each candidate subnet with its current allocation
    count: the addresses of the subnet that are allocated. *)
Definition generated_ips (d : DB) (s : Subnet) : list IPAddressRow :=
  filter (fun a => (subnet_id a =? sub_id s) && negb (_deallocated a))
         (ip_addresses d).

(** [count(IPAddress.address)] over the outer join *)
Definition count_ips (d : DB) (s : Subnet) : Z :=
  Z.of_nat (List.length (generated_ips d s)).

(** [size - count] with [size = last_ip - first_ip] *)
Definition residual (x : Subnet * Z) : Z :=
  (last_ip (fst x) - first_ip (fst x)) - snd x.

(** [ORDER BY ip_version ASC, (size - count) ASC] compares two rows of the
    result by these two keys and by nothing else. *)
Definition order_le (a b : Subnet * Z) : bool :=
  (ip_version (fst a) <? ip_version (fst b))
  || ((ip_version (fst a) =? ip_version (fst b)) && (residual a <=? residual b)).

Fixpoint insert_ordered (x : Subnet * Z) (l : list (Subnet * Z))
  : list (Subnet * Z) :=
  match l with
  | [] => [x]
  | y :: t => if order_le x y then x :: y :: t else y :: insert_ordered x t
  end.

(** The rows leave the sort in key order; rows of equal keys stay in the
    order in which the store produced them. *)
Definition order_by (l : list (Subnet * Z)) : list (Subnet * Z) :=
  fold_right insert_ordered [] l.

(** The [WHERE] clause of [subnet_find_ordered_by_most_full]. *)
Definition most_full_candidate (net_id : uuid) (segment : option string)
  (subnet_ids : option (list uuid)) (ip_ver : option Z) (s : Subnet) : bool :=
  negb (do_not_use s)
  && (sub_network_id s =? net_id)
  && match ip_ver with
     | Some v => ip_version s =? v
     | None => true
     end
  && match segment with
     | Some seg =>
         if String.eqb seg EmptyString then true
         else match segment_id s with
              | Some seg' => String.eqb seg' seg
              | None => false
              end
     | None => true
     end
  && negb (next_auto_assign_ip s =? -1)
  && match subnet_ids with
     | Some (i :: ids) => existsb (Z.eqb (sub_id s)) (i :: ids)
     | _ => true
     end.

Definition most_full_rows (d : DB) (net_id : uuid) (segment : option string)
  (subnet_ids : option (list uuid)) (ip_ver : option Z) : list (Subnet * Z) :=
  order_by
    (map (fun s => (s, count_ips d s))
         (filter (most_full_candidate net_id segment subnet_ids ip_ver)
                 (subnets d))).

(** [subnet_find_ordered_by_most_full], iterated. *)
Definition subnet_find_ordered_by_most_full (context : Context) (net_id : uuid)
  (segment : option string) (subnet_ids : option (list uuid))
  (ip_ver : option Z) : M (list (Subnet * Z)) :=
  stmt ;;;
  d <- get_db ;;
  ret (most_full_rows d net_id segment subnet_ids ip_ver).

Definition set_next_auto_assign_ip (v : Z) (s : Subnet) : Subnet :=
  mkSubnet (sub_id s) (sub_network_id s) (sub_tenant_id s) (cidr s)
           (first_ip s) (last_ip s) (ip_version s) v (segment_id s)
           (do_not_use s) (ip_policy s).

(** The rows of [WHERE id = :id AND next_auto_assign_ip != -1]. *)
Definition cursor_open (sid : uuid) (s : Subnet) : bool :=
  (sub_id s =? sid) && negb (next_auto_assign_ip s =? -1).

Definition update_cursor (sid : uuid) (f : Z -> Z) (l : list Subnet)
  : list Subnet :=
  map (fun s => if cursor_open sid s
                then set_next_auto_assign_ip (f (next_auto_assign_ip s)) s
                else s) l.

Definition rows_matched (sid : uuid) (l : list Subnet) : Z :=
  Z.of_nat (List.length (filter (cursor_open sid) l)).

(** The two conditional updates as functions on the table: the new table
    and the count of the rows matched. *)
Definition next_auto_assign_ip_update (sid : uuid) (l : list Subnet)
  : Z * list Subnet :=
  (rows_matched sid l, update_cursor sid (fun c => c + 1) l).

Definition set_full_update (sid : uuid) (l : list Subnet) : Z * list Subnet :=
  (rows_matched sid l, update_cursor sid (fun _ => -1) l).

(** [subnet_update_next_auto_assign_ip] *)
Definition subnet_update_next_auto_assign_ip (context : Context)
  (subnet : Subnet) : M Z :=
  stmt ;;;
  d <- get_db ;;
  let '(n, l) := next_auto_assign_ip_update (sub_id subnet) (subnets d) in
  modify_db (set_subnets l) ;;;
  ret n.

(** [subnet_update_set_full] *)
Definition subnet_update_set_full (context : Context) (subnet : Subnet) : M Z :=
  stmt ;;;
  d <- get_db ;;
  let '(n, l) := set_full_update (sub_id subnet) (subnets d) in
  modify_db (set_subnets l) ;;;
  ret n.

(** [context.session.refresh(subnet)] *)
Definition refresh_subnet (s : Subnet) : M Subnet :=
  stmt ;;;
  d <- get_db ;;
  match find (fun x => sub_id x =? sub_id s) (subnets d) with
  | Some s' => ret s'
  | None => raise DBError
  end.

End Db_api.
Import Db_api.

(** ** [quark.ipam]: the allocation engine *)

Module Ipam.

Import Generators.
Open Scope string_scope.
Open Scope Z_scope.

(** The [QUARK] options the engine reads. *)
Record Conf : Type :=
  mkConf {
    v6_allocation_attempts : nat;
    mac_address_retry_max : nat;
    ip_address_retry_max : nat
  }.

(** Modelled from the spec: [quark/db/ip_types.py] is not among the sources;
    section 4.5.2 names the default address type [FIXED]. *)
Definition FIXED : string := "fixed".

(** The keyword arguments the engine looks at: [address_type] and
    [mac_address]. *)
Record Kwargs : Type :=
  mkKwargs { kw_address_type : option (option string);
             kw_mac_address : option MacAddress }.

Definition get_address_type (kw : Kwargs) : option string :=
  match kw_address_type kw with
  | Some t => t
  | None => Some FIXED
  end.

(** How a pass through a loop body ends. *)
Inductive ctl (A : Type) : Type :=
| Continue
| Break
| Return (a : A).
Arguments Continue {A}.
Arguments Break {A}.
Arguments Return {A} a.

(** [if ip_address:] for an optional [netaddr.IPAddress] *)
Definition supplied (ip_address : option IPAddress) : bool :=
  match ip_address with
  | Some a => ip_truthy a
  | None => false
  end.

(** [if mac_address:] for an optional integer *)
Definition mac_supplied (mac_address : option Z) : bool :=
  match mac_address with
  | Some a => negb (a =? 0)
  | None => false
  end.

Section Engine.

Variable conf : Conf.

(** *** [allocate_mac_address] *)

Definition mac_update_kwargs (transaction : uuid) (m : MacAddress) : MacAddress :=
  mkMacAddress (mac_address m) (mac_address_range_id m) (mac_tenant_id m)
               false None (Some transaction).

Definition mac_filter_kwargs (reuse_after : Z) (mac_address : option Z) : kwargs :=
  [("reuse_after", PScalar (SInt reuse_after));
   ("deallocated", PScalar (SBool true));
   ("address", PScalar (match mac_address with
                        | Some a => SInt a
                        | None => SNone
                        end))].

(** One pass through the body of the first loop. *)
Definition mac_reuse_attempt (context : Context) (reuse_after : Z)
  (mac_address : option Z) : M (ctl MacAddress) :=
  try_except
    (transaction <- with_begin (transaction_create context) ;;
     let elevated := elevated context in
     result <- mac_address_reallocate elevated (mac_update_kwargs transaction)
                 (mac_filter_kwargs reuse_after mac_address) ;;
     if negb result then ret Break
     else
       reallocated_mac <- mac_address_reallocate_find elevated transaction ;;
       match reallocated_mac with
       | Some m =>
           _ <- lift (EUI_of_int (Models.mac_address m)) ;;
           ret (Return m)
       | None => ret Continue
       end)
    any_Exception (fun _ => ret Continue).

Fixpoint mac_reuse_loop (retries : nat) (context : Context) (reuse_after : Z)
  (mac_address : option Z) : M (option MacAddress) :=
  match retries with
  | O => ret None
  | S n =>
      c <- mac_reuse_attempt context reuse_after mac_address ;;
      match c with
      | Return m => ret (Some m)
      | Break => ret None
      | Continue => mac_reuse_loop n context reuse_after mac_address
      end
  end.

(** The first [try] block of the second loop: the range and the address to
    create in it. *)
Definition mac_pick (context : Context) (mac_address : option Z)
  (use_forbidden_mac_range : bool) : M (ctl (MacAddressRange * Z)) :=
  with_begin
    (try_except
       (mac_range <- mac_address_range_find_allocation_counts
                       context mac_address use_forbidden_mac_range ;;
        match mac_range with
        | None => ret Break
        | Some (rng, addr_count) =>
            let last := last_address rng in
            let first := first_address rng in
            if last - first + 1 <=? addr_count then
              mac_range_update_set_full context rng ;;; ret Continue
            else if mac_supplied mac_address then
              match mac_address with
              | Some a => ret (Return (rng, a))
              | None => ret Continue
              end
            else
              let next_address := next_auto_assign_mac rng in
              (if last_address rng <? next_address + 1
               then mac_range_update_set_full context rng
               else mac_range_update_next_auto_assign_mac context rng) ;;;
              rng' <- refresh_range rng ;;
              ret (Return (rng', next_address))
        end)
       any_Exception (fun _ => ret Continue)).

Definition mac_create_attempt (context : Context) (mac_address : option Z)
  (use_forbidden_mac_range : bool) : M (ctl MacAddress) :=
  p <- mac_pick context mac_address use_forbidden_mac_range ;;
  match p with
  | Break => ret Break
  | Continue => ret Continue
  | Return (rng, next_address) =>
      try_except
        (_ <- lift (EUI_of_int next_address) ;;
         address <- with_begin
                      (mac_address_create context next_address (range_id rng)) ;;
         ret (Return address))
        any_Exception (fun _ => ret Continue)
  end.

Fixpoint mac_create_loop (retries : nat) (context : Context)
  (mac_address : option Z) (use_forbidden_mac_range : bool)
  : M (option MacAddress) :=
  match retries with
  | O => ret None
  | S n =>
      c <- mac_create_attempt context mac_address use_forbidden_mac_range ;;
      match c with
      | Return m => ret (Some m)
      | Break => ret None
      | Continue => mac_create_loop n context mac_address use_forbidden_mac_range
      end
  end.

(** [QuarkIpam.allocate_mac_address]; [mac_address] is the value of
    [netaddr.EUI(mac_address)] when an address was asked for. *)
Definition allocate_mac_address (context : Context) (net_id port_id : uuid)
  (reuse_after : Z) (mac_address : option Z) (use_forbidden_mac_range : bool)
  : M MacAddress :=
  r <- mac_reuse_loop (mac_address_retry_max conf) context reuse_after mac_address ;;
  match r with
  | Some m => ret m
  | None =>
      c <- mac_create_loop (mac_address_retry_max conf) context mac_address
             use_forbidden_mac_range ;;
      match c with
      | Some m => ret m
      | None => raise MacAddressGenerationFailure
      end
  end.

(** *** [attempt_to_reallocate_ip] *)

(** [version or [4, 6]] *)
Definition version_or_both (version : option Z) : pyval :=
  match version with
  | Some v => if v =? 0 then PList [SInt 4; SInt 6] else PScalar (SInt v)
  | None => PList [SInt 4; SInt 6]
  end.

(** The keyword filters of the claim, as the function builds them. *)
Definition ip_kwargs (net_id : uuid) (reuse_after : Z) (version : pyval)
  (ip_address : option IPAddress) (sub_ids : list uuid) : kwargs :=
  let d := [("network_id", PScalar (SId net_id));
            ("reuse_after", PScalar (SInt reuse_after));
            ("deallocated", PScalar (SBool true));
            ("ip_address", PScalar (match ip_address with
                                    | Some a => SAddr a
                                    | None => SNone
                                    end));
            ("version", version)] in
  let d := if supplied ip_address then kw_del "deallocated" d else d in
  match sub_ids with
  | [] => d
  | _ :: _ => kw_set "subnet_id" (PList (map SId sub_ids)) d
  end.

Definition ip_update_kwargs (context : Context) (kw : Kwargs)
  (transaction : uuid) (now : Z) (r : IPAddressRow) : IPAddressRow :=
  mkIPAddressRow (ip_id r) (address r) (address_readable r) (version r)
                 (subnet_id r) (network_id r) (tenant_id context) (Some now)
                 false None (get_address_type kw) (Some transaction).

(** One pass through the body of the retry loop. *)
Definition reallocate_attempt (context : Context) (kw : Kwargs)
  (filters : kwargs) : M (ctl IPAddressRow) :=
  try_except
    (transaction <- with_begin (transaction_create context) ;;
     w <- get_world ;;
     let elevated := elevated context in
     result <- ip_address_reallocate elevated
                 (ip_update_kwargs context kw transaction (utcnow w)) filters ;;
     if negb result then ret Break
     else
       updated_address <- ip_address_reallocate_find elevated transaction ;;
       match updated_address with
       | None => ret Continue
       | Some a => ret (Return a)
       end)
    any_Exception (fun _ => ret Continue).

Fixpoint reallocate_loop (retries : nat) (context : Context) (kw : Kwargs)
  (filters : kwargs) : M (list IPAddressRow) :=
  match retries with
  | O => ret []
  | S n =>
      c <- reallocate_attempt context kw filters ;;
      match c with
      | Return a => ret [a]
      | Break => ret []
      | Continue => reallocate_loop n context kw filters
      end
  end.

(** The subnet ids the claim is restricted to: the ones given, or those of
    the segment. *)
Definition reallocate_sub_ids (context : Context) (net_id : uuid)
  (segment : option string) (subnets : list uuid) : M (list uuid) :=
  match subnets with
  | _ :: _ => ret subnets
  | [] =>
      match segment with
      | Some seg =>
          if String.eqb seg EmptyString then ret []
          else
            found <- subnet_find (elevated context)
                       [("network_id", PScalar (SId net_id));
                        ("segment_id", PScalar (SStr seg))] ;;
            match map sub_id found with
            | [] => raise IpAddressGenerationFailure
            | ids => ret ids
            end
      | None => ret []
      end
  end.

(** [QuarkIpam.attempt_to_reallocate_ip] *)
Definition attempt_to_reallocate_ip (context : Context) (net_id port_id : uuid)
  (reuse_after : Z) (version : option Z) (ip_address : option IPAddress)
  (segment : option string) (subnets : list uuid) (kw : Kwargs)
  : M (list IPAddressRow) :=
  let version := version_or_both version in
  match version with
  | PScalar (SInt 6) => ret []
  | _ =>
      sub_ids <- reallocate_sub_ids context net_id segment subnets ;;
      reallocate_loop (ip_address_retry_max conf) context kw
        (ip_kwargs net_id reuse_after version ip_address sub_ids)
  end.

(** *** The create path *)

(** The candidate the subnet's cursor gives: the cursor was moved past it
    by the selector, or the subnet was marked full. *)
Definition auto_next_ip (subnet : Subnet) : res IPAddress :=
  match IPAddress_of_int (if negb (next_auto_assign_ip subnet =? -1)
                          then next_auto_assign_ip subnet - 1
                          else last_ip subnet) with
  | Raise e => Raise e
  | Ok n => if ip_version subnet =? 4 then ipv4 n else Ok n
  end.

(** [next_ip] of [_allocate_from_subnet]: the address asked for, or the
    one the cursor gives. *)
Definition choose_next_ip (subnet : Subnet) (ip_address : option IPAddress)
  : res IPAddress :=
  match ip_address with
  | Some a => if ip_truthy a then Ok a else auto_next_ip subnet
  | None => auto_next_ip subnet
  end.

(** [ip_policy_cidrs and next_ip in ip_policy_cidrs and not ip_address] *)
Definition violates_policy (subnet : Subnet) (ip_address : option IPAddress)
  (next_ip : IPAddress) : bool :=
  match get_ip_policy_cidrs subnet with
  | Some (c :: cs) => ipset_contains (c :: cs) next_ip
  | _ => false
  end && negb (supplied ip_address).

(** The insert of [_allocate_from_subnet], in its [session.begin()] block. *)
Definition insert_address (context : Context) (net_id : uuid) (subnet : Subnet)
  (next_ip : IPAddress) (kw : Kwargs) : M IPAddressRow :=
  with_begin
    (ip_address_create context next_ip (sub_id subnet) (ip_version subnet)
                       net_id (get_address_type kw)).

(** [QuarkIpam._allocate_from_subnet] *)
Definition _allocate_from_subnet (context : Context) (net_id : uuid)
  (subnet : Subnet) (port_id : uuid) (reuse_after : Z)
  (ip_address : option IPAddress) (kw : Kwargs) : M IPAddressRow :=
  next_ip <- lift (choose_next_ip subnet ip_address) ;;
  if violates_policy subnet ip_address next_ip
  then raise IPAddressPolicyRetryableFailure
  else
    try_except
      (insert_address context net_id subnet next_ip kw)
      any_Exception
      (fun _ => if supplied ip_address then raise IpAddressInUse
                else raise IPAddressRetryableFailure).

Definition set_rng (r : Random.rng_state) : M unit :=
  fun w => (Ok tt, mkWorld (db w) (utcnow w) (faults w) r (next_uuid w)
                           (notifications w)).

(** [next()] on a v6 generator, against the [random] state of the process. *)
Definition gen_next (g : v6_gen) : M (Z * v6_gen) :=
  fun w =>
    match v6_next g (rng w) with
    | (Ok v, g', r) => (Ok (v, g'), snd (set_rng r w))
    | (Raise e, _, r) => (Raise e, snd (set_rng r w))
    end.

Definition v6_claim_kwargs (context : Context) (kw : Kwargs) (now : Z)
  (r : IPAddressRow) : IPAddressRow :=
  mkIPAddressRow (ip_id r) (address r) (address_readable r) (version r)
                 (subnet_id r) (network_id r) (tenant_id context) (Some now)
                 false None (get_address_type kw) (transaction_id r).

(** The body of the [for tries, ip_address in enumerate(generate_v6(...))]
    loop; [remaining] is [v6_allocation_attempts - tries]. *)
Fixpoint v6_loop (remaining : nat) (g : v6_gen) (context : Context)
  (net_id : uuid) (subnet : Subnet) (reuse_after : Z) (kw : Kwargs)
  : M IPAddressRow :=
  x <- gen_next g ;;
  let '(candidate, g') := x in
  match remaining with
  | O => raise IpAddressGenerationFailure
  | S n =>
      a <- lift (IPAddress_of_int candidate) ;;
      let ip_address := ipv6 a in
      if match get_ip_policy_cidrs subnet with
         | Some p => ipset_contains p ip_address
         | None => false
         end
      then v6_loop n g' context net_id subnet reuse_after kw
      else
        claimed <-
          with_begin
            (address <- ip_address_find_one context
                          [("network_id", PScalar (SId net_id));
                           ("ip_address", PScalar (SAddr ip_address));
                           ("reuse_after", PScalar (SInt reuse_after));
                           ("deallocated", PScalar (SBool true));
                           ("subnet_id", PScalar (SId (sub_id subnet)))] ;;
             match address with
             | Some row =>
                 w <- get_world ;;
                 r <- ip_address_update context row
                        (v6_claim_kwargs context kw (utcnow w)) ;;
                 ret (Some r)
             | None => ret None
             end) ;;
        match claimed with
        | Some r => ret r
        | None =>
            created <-
              try_except
                (r <- with_begin
                        (ip_address_create context ip_address (sub_id subnet)
                           (ip_version subnet) net_id (get_address_type kw)) ;;
                 ret (Some r))
                (exn_eqb DBDuplicateEntry) (fun _ => ret None) ;;
            match created with
            | Some r => ret r
            | None => v6_loop n g' context net_id subnet reuse_after kw
            end
        end
  end.

(** [QuarkIpam._allocate_from_v6_subnet] *)
Definition _allocate_from_v6_subnet (context : Context) (net_id : uuid)
  (subnet : Subnet) (port_id : uuid) (reuse_after : Z)
  (ip_address : option IPAddress) (kw : Kwargs) : M IPAddressRow :=
  if supplied ip_address then
    _allocate_from_subnet context net_id subnet port_id reuse_after ip_address kw
  else
    let mac := option_map Models.mac_address (kw_mac_address kw) in
    v6_loop (v6_allocation_attempts conf)
            (generate_v6 mac port_id (cidr subnet))
            context net_id subnet reuse_after kw.

(** The dispatch on the family of the subnet: the create path. *)
Definition allocate_from (context : Context) (net_id : uuid) (subnet : Subnet)
  (port_id : uuid) (reuse_after : Z) (ip_address : option IPAddress)
  (kw : Kwargs) : M IPAddressRow :=
  if ip_version subnet =? 4
  then _allocate_from_subnet context net_id subnet port_id reuse_after
         ip_address kw
  else _allocate_from_v6_subnet context net_id subnet port_id reuse_after
         ip_address kw.

(** [QuarkIpam._allocate_ips_from_subnets].  [new_addresses] is a list
    object shared with the caller: what was appended before an exception
    stays in it, so the list comes back along with the exception. *)
Fixpoint _allocate_ips_from_subnets (context : Context)
  (new_addresses : list IPAddressRow) (net_id : uuid)
  (subnets : list (option Subnet)) (port_id : uuid) (reuse_after : Z)
  (ip_address : option IPAddress) (kw : Kwargs)
  : M (list IPAddressRow * option exn) :=
  match subnets with
  | [] => ret (new_addresses, None)
  | None :: rest =>
      _allocate_ips_from_subnets context new_addresses net_id rest port_id
        reuse_after ip_address kw
  | Some subnet :: rest =>
      r <- try_except
             (a <- allocate_from context net_id subnet port_id reuse_after
                     ip_address kw ;;
              ret (inl a))
             any_Exception (fun e => ret (inr e)) ;;
      match r with
      | inl address =>
          _allocate_ips_from_subnets context (new_addresses ++ [address])%list
            net_id rest port_id reuse_after ip_address kw
      | inr e => ret (new_addresses, Some e)
      end
  end.

(** *** [select_subnet] *)

Fixpoint select_loop (rows : list (Subnet * Z)) (context : Context)
  (ip_address : option IPAddress) (subnet_ids : option (list uuid))
  : M (option Subnet) :=
  match rows with
  | [] => ret None
  | (subnet, ips_in_subnet) :: rest =>
      let ipnet := cidr subnet in
      skip <-
        match ip_address with
        | Some a =>
            if ip_truthy a then
              requested_ip <-
                (if (net_ver ipnet =? 4) && negb (ip_ver a =? 4)
                 then lift (ipv4 a) else ret a) ;;
              if negb (net_contains ipnet requested_ip) then
                match subnet_ids with
                | Some _ => raise IPAddressNotInSubnet
                | None => ret true
                end
              else ret false
            else ret false
        | None => ret false
        end ;;
      if skip : bool then select_loop rest context ip_address subnet_ids
      else
        let ip_policy := if supplied ip_address then None else ip_policy subnet in
        let policy_size :=
          match ip_policy with Some p => policy_size p | None => 0 end in
        if ips_in_subnet + policy_size - 1 <? net_size ipnet then
          if negb (supplied ip_address) && (ip_version subnet =? 4) then
            let ip := next_auto_assign_ip subnet in
            updated <-
              (if (ip <? first_ip subnet) || (last_ip subnet <? ip)
               then subnet_update_set_full context subnet
               else subnet_update_next_auto_assign_ip context subnet) ;;
            if negb (updated =? 0)
            then s' <- refresh_subnet subnet ;; ret (Some s')
            else ret None
          else ret (Some subnet)
        else
          subnet_update_set_full context subnet ;;;
          select_loop rest context ip_address subnet_ids
  end.

(** [QuarkIpam.select_subnet] *)
Definition select_subnet (context : Context) (net_id : uuid)
  (ip_address : option IPAddress) (segment : option string)
  (subnet_ids : option (list uuid)) (ip_ver : option Z) : M (option Subnet) :=
  with_begin
    (subnets <- subnet_find_ordered_by_most_full context net_id segment
                  subnet_ids ip_ver ;;
     select_loop subnets context ip_address subnet_ids).

(** *** The strategies *)

Inductive Strategy : Type := ANY | BOTH | BOTH_REQUIRED.

(** [list.remove(x)]: the first occurrence goes, [ValueError] without one. *)
Fixpoint py_remove (x : Z) (l : list Z) : res (list Z) :=
  match l with
  | [] => Raise ValueError
  | y :: t =>
      if y =? x then Ok t
      else match py_remove x t with
           | Ok t' => Ok (y :: t')
           | Raise e => Raise e
           end
  end.

Fixpoint remove_versions (req : list Z) (ips : list IPAddressRow)
  : res (list Z) :=
  match ips with
  | [] => Ok req
  | ip :: t =>
      match py_remove (version ip) req with
      | Ok req' => remove_versions req' t
      | Raise e => Raise e
      end
  end.

(** [QuarkIpamBOTH.is_strategy_satisfied] *)
Definition BOTH_is_strategy_satisfied (reallocated_ips : list IPAddressRow)
  (allocate_complete : bool) : res bool :=
  match remove_versions [4; 6] reallocated_ips with
  | Raise e => Raise e
  | Ok req =>
      let ips_allocated := List.length req in
      if Nat.eqb ips_allocated 0 then Ok true
      else if Nat.eqb ips_allocated 1 && allocate_complete then Ok true
      else Ok false
  end.

(** The loop of [QuarkIpamBOTHREQ.is_strategy_satisfied], which looks at
    what is left of [req] after each address. *)
Fixpoint BOTHREQ_loop (req : list Z) (ips : list IPAddressRow) : res bool :=
  match ips with
  | [] => Ok false
  | ip :: t =>
      match py_remove (version ip) req with
      | Raise e => Raise e
      | Ok req' =>
          if Nat.eqb (List.length req') 0 then Ok true else BOTHREQ_loop req' t
      end
  end.

(** [QuarkIpamBOTHREQ.is_strategy_satisfied] *)
Definition BOTHREQ_is_strategy_satisfied (reallocated_ips : list IPAddressRow)
  (allocate_complete : bool) : res bool :=
  BOTHREQ_loop [4; 6] reallocated_ips.

(** [self.is_strategy_satisfied], as the caller's [if] reads it. *)
Definition is_strategy_satisfied (s : Strategy) (ip_addresses : list IPAddressRow)
  (allocate_complete : bool) : res bool :=
  match s with
  | ANY => Ok (match ip_addresses with [] => false | _ :: _ => true end)
  | BOTH => BOTH_is_strategy_satisfied ip_addresses allocate_complete
  | BOTH_REQUIRED => BOTHREQ_is_strategy_satisfied ip_addresses allocate_complete
  end.

(** [QuarkIpamBOTH.attempt_to_reallocate_ip] *)
Definition BOTH_attempt_to_reallocate_ip (context : Context)
  (net_id port_id : uuid) (reuse_after : Z) (version : option Z)
  (ip_address : option IPAddress) (segment : option string)
  (subnets : list uuid) (kw : Kwargs) : M (list IPAddressRow) :=
  a4 <- attempt_to_reallocate_ip context net_id port_id reuse_after (Some 4)
          ip_address segment subnets kw ;;
  a6 <- attempt_to_reallocate_ip context net_id port_id reuse_after (Some 6)
          ip_address segment subnets kw ;;
  ret (a4 ++ a6)%list.

(** [self.attempt_to_reallocate_ip] *)
Definition strategy_attempt_to_reallocate_ip (s : Strategy) :=
  match s with
  | ANY => attempt_to_reallocate_ip
  | BOTH | BOTH_REQUIRED => BOTH_attempt_to_reallocate_ip
  end.

(** [QuarkIpamANY._choose_available_subnet] *)
Definition ANY_choose_available_subnet (context : Context) (net_id : uuid)
  (version : option Z) (segment : option string)
  (ip_address : option IPAddress) (reallocated_ips : list IPAddressRow)
  : M (list Subnet) :=
  let ip_ver := match version with
                | Some v => if v =? 0 then None else Some v
                | None => None
                end in
  subnet <- select_subnet context net_id ip_address segment None ip_ver ;;
  match subnet with
  | Some s => ret [s]
  | None => raise IpAddressGenerationFailure
  end.

Fixpoint need_versions (need : list Z) (reallocated_ips : list IPAddressRow)
  : list Z :=
  match reallocated_ips with
  | [] => need
  | i :: t =>
      match py_remove (version i) need with
      | Ok need' => need_versions need' t
      | Raise _ => need_versions need t
      end
  end.

Fixpoint select_each (vers : list Z) (context : Context) (net_id : uuid)
  (ip_address : option IPAddress) (segment : option string) : M (list Subnet) :=
  match vers with
  | [] => ret []
  | ver :: t =>
      sub <- select_subnet context net_id ip_address segment None (Some ver) ;;
      rest <- select_each t context net_id ip_address segment ;;
      ret (match sub with Some s => s :: rest | None => rest end)
  end.

(** [QuarkIpamBOTH._choose_available_subnet] *)
Definition BOTH_choose_available_subnet (context : Context) (net_id : uuid)
  (version : option Z) (segment : option string)
  (ip_address : option IPAddress) (reallocated_ips : list IPAddressRow)
  : M (list Subnet) :=
  both_subnet_versions <-
    select_each (need_versions [4; 6] reallocated_ips) context net_id
                ip_address segment ;;
  match reallocated_ips, both_subnet_versions with
  | [], [] => raise IpAddressGenerationFailure
  | _, _ => ret both_subnet_versions
  end.

(** [QuarkIpamBOTHREQ._choose_available_subnet] *)
Definition BOTHREQ_choose_available_subnet (context : Context) (net_id : uuid)
  (version : option Z) (segment : option string)
  (ip_address : option IPAddress) (reallocated_ips : list IPAddressRow)
  : M (list Subnet) :=
  subnets <- BOTH_choose_available_subnet context net_id version segment
               ip_address reallocated_ips ;;
  if (List.length reallocated_ips + List.length subnets <? 2)%nat
  then raise IpAddressGenerationFailure
  else ret subnets.

(** [self._choose_available_subnet] *)
Definition _choose_available_subnet (s : Strategy) :=
  match s with
  | ANY => ANY_choose_available_subnet
  | BOTH => BOTH_choose_available_subnet
  | BOTH_REQUIRED => BOTHREQ_choose_available_subnet
  end.

(** *** [allocate_ip_address] *)

(** The subnets one attempt of [_try_allocate_ip_address] works on. *)
Definition choose_subnets (s : Strategy) (context : Context)
  (new_addresses : list IPAddressRow) (net_id : uuid) (segment : option string)
  (version : option Z) (ip_addr : option IPAddress) (sub : option uuid)
  : M (list (option Subnet)) :=
  match sub with
  | None =>
      l <- _choose_available_subnet s (elevated context) net_id version
             segment ip_addr new_addresses ;;
      ret (map Some l)
  | Some sid =>
      x <- select_subnet context net_id ip_addr segment (Some [sid]) None ;;
      ret [x]
  end.

(** The inner function [_try_allocate_ip_address]; it hands back the shared
    list [new_addresses]. *)
Fixpoint _try_allocate_ip_address (retries : nat) (s : Strategy)
  (context : Context) (new_addresses : list IPAddressRow) (net_id port_id : uuid)
  (reuse_after : Z) (segment : option string) (version : option Z)
  (kw : Kwargs) (ip_addr : option IPAddress) (sub : option uuid)
  : M (list IPAddressRow) :=
  match retries with
  | O => ret new_addresses
  | S n =>
      subnets <- choose_subnets s context new_addresses net_id segment version
                   ip_addr sub ;;
      r <- _allocate_ips_from_subnets context new_addresses net_id subnets
             port_id reuse_after ip_addr kw ;;
      match r with
      | (l, None) => ret l
      | (l, Some e) =>
          if is_IPAddressRetryableFailure e
          then _try_allocate_ip_address n s context l net_id port_id
                 reuse_after segment version kw ip_addr sub
          else raise e
      end
  end.

(** [itertools.izip_longest] *)
Fixpoint izip_longest {A B} (l1 : list A) (l2 : list B)
  : list (option A * option B) :=
  match l1, l2 with
  | [], [] => []
  | a :: t1, [] => (Some a, None) :: izip_longest t1 []
  | [], b :: t2 => (None, Some b) :: map (fun b => (None, Some b)) t2
  | a :: t1, b :: t2 => (Some a, Some b) :: izip_longest t1 t2
  end.

Fixpoint reallocate_each (s : Strategy) (context : Context)
  (new_addresses : list IPAddressRow) (net_id port_id : uuid) (reuse_after : Z)
  (segment : option string) (subnets : list uuid) (kw : Kwargs)
  (ip_addresses : list IPAddress) : M (list IPAddressRow) :=
  match ip_addresses with
  | [] => ret new_addresses
  | ip :: t =>
      l <- strategy_attempt_to_reallocate_ip s context net_id port_id
             reuse_after None (Some ip) segment subnets kw ;;
      reallocate_each s context (new_addresses ++ l)%list net_id port_id
        reuse_after segment subnets kw t
  end.

Fixpoint allocate_each (s : Strategy) (context : Context)
  (new_addresses : list IPAddressRow) (net_id port_id : uuid) (reuse_after : Z)
  (segment : option string) (version : option Z) (kw : Kwargs)
  (pairs : list (option IPAddress * option uuid)) : M (list IPAddressRow) :=
  match pairs with
  | [] => ret new_addresses
  | (ip_address, subnet) :: t =>
      l <- _try_allocate_ip_address (ip_address_retry_max conf) s context
             new_addresses net_id port_id reuse_after segment version kw
             ip_address subnet ;;
      allocate_each s context l net_id port_id reuse_after segment version kw t
  end.

Fixpoint _notify_new_addresses (new_addresses : list IPAddressRow) : M unit :=
  match new_addresses with
  | [] => ret tt
  | addr :: t =>
      notify "ip_block.address.create" (ip_id addr) ;;;
      _notify_new_addresses t
  end.

(** The reuse phase: one call per address asked for, or one call. *)
Definition reallocate_phase (s : Strategy) (context : Context)
  (new_addresses : list IPAddressRow) (net_id port_id : uuid) (reuse_after : Z)
  (segment : option string) (ip_addresses : list IPAddress)
  (subnets : list uuid) (kw : Kwargs) : M (list IPAddressRow) :=
  match ip_addresses with
  | _ :: _ =>
      reallocate_each s context new_addresses net_id port_id reuse_after
        segment subnets kw ip_addresses
  | [] =>
      l <- strategy_attempt_to_reallocate_ip s context net_id port_id
             reuse_after None None segment subnets kw ;;
      ret (new_addresses ++ l)%list
  end.

(** The create phase: one [_try_allocate_ip_address] per pair, or one. *)
Definition create_phase (s : Strategy) (context : Context)
  (new_addresses : list IPAddressRow) (net_id port_id : uuid) (reuse_after : Z)
  (segment : option string) (version : option Z) (ip_addresses : list IPAddress)
  (subnets : list uuid) (kw : Kwargs) : M (list IPAddressRow) :=
  match ip_addresses, subnets with
  | [], [] =>
      _try_allocate_ip_address (ip_address_retry_max conf) s context
        new_addresses net_id port_id reuse_after segment version kw None None
  | _, _ =>
      allocate_each s context new_addresses net_id port_id reuse_after
        segment version kw (izip_longest ip_addresses subnets)
  end.

(** [QuarkIpam.allocate_ip_address] for the strategy [s].  The result is the
    list object [new_addresses] as the call leaves it. *)
Definition allocate_ip_address (s : Strategy) (context : Context)
  (new_addresses : list IPAddressRow) (net_id port_id : uuid) (reuse_after : Z)
  (segment : option string) (version : option Z) (ip_addresses : list IPAddress)
  (subnets : list uuid) (kw : Kwargs) : M (list IPAddressRow) :=
  new_addresses <- reallocate_phase s context new_addresses net_id port_id
                     reuse_after segment ip_addresses subnets kw ;;
  satisfied <- lift (is_strategy_satisfied s new_addresses false) ;;
  if satisfied : bool then ret new_addresses
  else
    new_addresses <- create_phase s context new_addresses net_id port_id
                       reuse_after segment version ip_addresses subnets kw ;;
    satisfied <- lift (is_strategy_satisfied s new_addresses true) ;;
    if satisfied : bool
    then _notify_new_addresses new_addresses ;;; ret new_addresses
    else raise IpAddressGenerationFailure.

End Engine.

End Ipam.
Import Ipam Generators.

(** ** Notions the properties are stated with *)

Module Props.

Open Scope string_scope.
Open Scope Z_scope.

(** *** The cursor of a subnet *)

Definition cursor (sid : uuid) (l : list Subnet) : option Z :=
  option_map next_auto_assign_ip (find (fun s => sub_id s =? sid) l).

(** One conditional update issued for the subnet [sid], seen on the table. *)
Inductive cursor_step (sid : uuid) (l : list Subnet) : list Subnet -> Prop :=
| step_next_auto_assign_ip :
    cursor_step sid l (snd (next_auto_assign_ip_update sid l))
| step_set_full :
    cursor_step sid l (snd (set_full_update sid l)).

Inductive cursor_steps (sid : uuid) : list Subnet -> list Subnet -> Prop :=
| steps_nil : forall l, cursor_steps sid l l
| steps_cons : forall l l' l'',
    cursor_step sid l l' -> cursor_steps sid l' l'' -> cursor_steps sid l l''.

(** *** The order of the candidate subnets *)





(** *** Addresses and policies *)

(** The address of a row lies in the policy of the subnet: the test
    [ip_address_reallocate_find] applies to a claimed row. *)
Definition address_in_policy (subnet : Subnet) (a : IPAddressRow) : bool :=
  match row_addr subnet a, get_ip_policy_cidrs subnet with
  | Ok addr, Some p => ipset_contains p addr
  | _, _ => false
  end.

(** A row that passed the checks of [ip_address_reallocate_find] against
    the tables [d]. *)
Definition validated (d : DB) (a : IPAddressRow) : Prop :=
  exists subnet addr,
    subnet_of d a = Some subnet
    /\ do_not_use subnet = false
    /\ row_addr subnet a = Ok addr
    /\ address_in_policy subnet a = false
    /\ net_contains (cidr subnet) addr = true.

(** *** The filters of the claim on the IPAddress table *)

(** The conditions [ip_address_reallocate] hands to the [UPDATE] when
    [attempt_to_reallocate_ip] calls it. *)
Definition claim_filters (now : Z) (context : Context) (net_id : uuid)
  (reuse_after : Z) (version : option Z) (ip_address : option IPAddress)
  (sub_ids : list uuid) : res (list model_filter) :=
  _model_query now (elevated context) MIPAddress
    (_listify (ip_kwargs net_id reuse_after (version_or_both version)
                         ip_address sub_ids)).

(** [version or [4, 6]], listified. *)
Definition versions (version : option Z) : list scalar :=
  match version with
  | Some v => if v =? 0 then [SInt 4; SInt 6] else [SInt v]
  | None => [SInt 4; SInt 6]
  end.

End Props.
Import Props.

(** ** Stores and requests used in the examples *)

Module Examples.

Open Scope string_scope.
Open Scope Z_scope.

Definition conf : Conf := mkConf 10 20 20.
Definition tenant : Context := mkContext "tenant-a" false.
Definition no_kwargs : Kwargs := mkKwargs None None.

(** [2001:db8::/64] *)
Definition cidr_db8 : IPNetwork := mkNet 6 0x20010db8000000000000000000000000 64.
(** [52:54:00:12:34:56] *)
Definition mac_5254 : Z := 0x525400123456.
Definition port_a : uuid := 0x6d3b7a9e0c1f4a528f3e5b2c9d7e1a04.

(** [10.0.0.0/29] with [10.0.0.0] and [10.0.0.7] excluded. *)
Definition policy_29 : IPPolicy :=
  mkIPPolicy 2 [mkNet 4 0x0a000000 32; mkNet 4 0x0a000007 32].
Definition subnet_29 : Subnet :=
  mkSubnet 100 1 "tenant-a" (mkNet 4 0x0a000000 29)
           0xffff0a000000 0xffff0a000007 4 0xffff0a000000 None false
           (Some policy_29).
Definition subnet_db8 : Subnet :=
  mkSubnet 101 1 "tenant-a" cidr_db8
           0x20010db8000000000000000000000000
           0x20010db800000000ffffffffffffffff 6
           0x20010db8000000000000000000000000 None false None.

Definition world_of (d : DB) : World :=
  mkWorld d 1000 [] (Random.seed 0) 5000 [].

Definition world_v4 : World := world_of (mkDB [subnet_29] [] [] []).
Definition world_dual : World := world_of (mkDB [subnet_29; subnet_db8] [] [] []).


(** [10.0.0.3] *)
Definition ip_10_0_0_3 : IPAddress := mkIP 4 0x0a000003.

(** A deallocated MAC [00:00:00:00:00:03] in a range, the range being
    forbidden ([do_not_use]) in the first world and usable in the second. *)
Definition mac_row_3 : MacAddress :=
  mkMacAddress 3 (Some 900) "tenant-a" true (Some 0) None.
Definition range_forbidden : MacAddressRange := mkMacAddressRange 900 1 255 5 true.
Definition range_usable : MacAddressRange := mkMacAddressRange 900 1 255 5 false.
Definition world_forbidden_mac : World :=
  world_of (mkDB [] [] [range_forbidden] [mac_row_3]).
Definition world_usable_mac : World :=
  world_of (mkDB [] [] [range_usable] [mac_row_3]).

(** [10.0.0.3] on [10.0.0.0/29], deallocated long enough ago. *)
Definition ip_row_3 : IPAddressRow :=
  mkIPAddressRow 700 0xffff0a000003 ip_10_0_0_3 4 100 1 "tenant-a" None true
                 (Some 0) None None.
Definition world_reusable_ip : World :=
  world_of (mkDB [subnet_29] [ip_row_3] [] []).

(** [10.0.0.3] held by another tenant; the same with the cursor of the
    subnet standing on [10.0.0.3]. *)
Definition ip_row_3_used : IPAddressRow :=
  mkIPAddressRow 700 0xffff0a000003 ip_10_0_0_3 4 100 1 "tenant-b" (Some 10)
                 false None (Some "fixed") None.
Definition world_ip_in_use : World :=
  world_of (mkDB [subnet_29] [ip_row_3_used] [] []).
Definition subnet_29_at_3 : Subnet :=
  set_next_auto_assign_ip 0xffff0a000003 subnet_29.
Definition world_cursor_conflict : World :=
  world_of (mkDB [subnet_29_at_3] [ip_row_3_used] [] []).

(** [10.0.0.7], which the policy of [10.0.0.0/29] excludes. *)
Definition ip_10_0_0_7 : IPAddress := mkIP 4 0x0a000007.

End Examples.

(** ** Notions for the further properties *)

Module MoreProps.

Open Scope string_scope.
Open Scope Z_scope.


(** A computation whose exceptions all satisfy [P]. *)
Definition raises_only {A : Type} (P : exn -> Prop) (m : M A) : Prop :=
  forall w e w', m w = (Raise e, w') -> P e.


End MoreProps.
Import MoreProps.

Module StoreProps.

Open Scope string_scope.
Open Scope Z_scope.

(** The keys [_listify] looks at. *)
Definition listified_keys : list string :=
  ["name"; "network_id"; "id"; "device_id"; "tenant_id";
   "subnet_id"; "mac_address"; "shared"; "version"; "segment_id";
   "device_owner"; "ip_address"; "used_by_tenant_id"; "group_id"].

(** What [_listify] makes of the value of one of these keys. *)
Definition listified (v : pyval) : pyval :=
  if truthy v then match v with
                   | PScalar s => PList [s]
                   | PList l => PList l
                   end
  else v.

(** One key of [_listify]. *)
Definition listify_key (d : kwargs) (key : string) : kwargs :=
  match kw_get key d with
  | None => d
  | Some v =>
      if negb (truthy v) then d
      else match v with
           | PScalar s => kw_set key (PList [s]) d
           | PList _ => d
           end
  end.

(** The keys [_model_query] keeps for a model. *)
Definition kept_key (m : model) (x : string) : bool :=
  mem_str x (_model_attrs m)
  || (String.eqb x "tenant_id" && model_eqb m MIPAddress)
  || (String.eqb x "ip_address" && model_eqb m MIPAddress)
  || (String.eqb x "reuse_after"
      && (model_eqb m MIPAddress || model_eqb m MMacAddress)).

(** No tenant is asked for: [not filters.get("tenant_id")]. *)
Definition no_tenant_filter (filters : kwargs) : Prop :=
  match kw_get "tenant_id" filters with
  | Some v => truthy v = false
  | None => True
  end.

(** The filters name no port: [ip_address_find] adds conditions of its own
    for a truthy [device_id], [port_id] or [address_type], and
    [ip_address_find_one] stands for it on filters without them. *)
Definition no_port_filter (filters : kwargs) : Prop :=
  forall k,
    In k ["device_id"; "port_id"; "address_type"] ->
    match kw_get k filters with
    | Some v => truthy v = false
    | None => True
    end.

End StoreProps.
Import StoreProps.

Module SelectProps.

Open Scope Z_scope.

(** The address [select_subnet] tests against the CIDR of a candidate: the
    address asked for, turned into a v4 address for a v4 subnet. *)
Definition requested_ip (ipnet : IPNetwork) (a : IPAddress) : res IPAddress :=
  if (net_ver ipnet =? 4) && negb (ip_ver a =? 4) then ipv4 a else Ok a.

(** A MAC range before and after a conditional update of its cursor: the
    range is the same but for the cursor; a cursor that is [-1] stays, any
    other one stays, moves on by one or becomes [-1]. *)
Definition range_moved (r r' : MacAddressRange) : Prop :=
  range_id r' = range_id r
  /\ first_address r' = first_address r
  /\ last_address r' = last_address r
  /\ range_do_not_use r' = range_do_not_use r
  /\ (next_auto_assign_mac r = -1 -> next_auto_assign_mac r' = -1)
  /\ (next_auto_assign_mac r' = next_auto_assign_mac r
      \/ next_auto_assign_mac r' = next_auto_assign_mac r + 1
      \/ next_auto_assign_mac r' = -1).

(** A computation that leaves the ids of the stored subnets, and their
    order, as they are. *)
Definition keeps_ids {A : Type} (m : M A) : Prop :=
  forall w r w',
    m w = (r, w') -> map sub_id (subnets (db w')) = map sub_id (subnets (db w)).

(** A subnet [BOTH] may choose: of the network, of version 4 or 6, and of a
    version that none of the addresses already in hand has. *)
Definition fills_version (net_id : uuid) (reallocated_ips : list IPAddressRow)
  (s : Subnet) : Prop :=
  sub_network_id s = net_id
  /\ (ip_version s = 4 \/ ip_version s = 6)
  /\ ~ In (ip_version s) (map version reallocated_ips).

End SelectProps.
Import SelectProps.

Module ReuseProps.

Open Scope Z_scope.

(** Transaction ids are issued in increasing order: the ids on the stored
    addresses were issued before the next one. *)
Definition transactions_fresh (w : World) : Prop :=
  forall r T,
    In r (ip_addresses (db w)) -> transaction_id r = Some T -> T < next_uuid w.

(** What the retry loop of [attempt_to_reallocate_ip] keeps true of the
    world [w] it has reached from [w0]: the clock has not moved, the
    transaction ids are fresh, and a stored address with a deallocation time
    is an address of [w0]. *)
Definition reuse_inv (w0 w : World) : Prop :=
  utcnow w = utcnow w0
  /\ transactions_fresh w
  /\ forall r, In r (ip_addresses (db w)) -> deallocated_at r <> None ->
               In r (ip_addresses (db w0)).

(** An address the claim of [attempt_to_reallocate_ip] may take at time
    [now]: it is of the network, it was deallocated at least [reuse_after]
    before [now], it is the address asked for or else is marked
    deallocated, its version is asked for, and it lies in one of the
    subnets when subnets are given. *)
Definition reusable (now : Z) (net_id : uuid) (reuse_after : Z)
  (version : option Z) (ip_address : option IPAddress) (sub_ids : list uuid)
  (r : IPAddressRow) : Prop :=
  network_id r = net_id
  /\ (exists d, deallocated_at r = Some d /\ d <= now - reuse_after)
  /\ match ip_address with
     | Some a => address r = ip_value (ipv6 a)
     | None => _deallocated r = true
     end
  /\ In (SInt (Models.version r)) (versions version)
  /\ (sub_ids <> [] -> In (subnet_id r) sub_ids).

(** An address that belongs to the network and is held by the caller:
    marked allocated, with no deallocation time. *)
Definition allocated_to (context : Context) (net_id : uuid)
  (a : IPAddressRow) : Prop :=
  network_id a = net_id
  /\ used_by_tenant_id a = tenant_id context
  /\ _deallocated a = false
  /\ deallocated_at a = None.

End ReuseProps.
Import ReuseProps.


Module MacProps.

Open Scope Z_scope.

(** The ids of the transactions on the stored MAC addresses were issued
    before the next one. *)
Definition mac_transactions_fresh (w : World) : Prop :=
  forall r T,
    In r (mac_addresses (db w)) -> mac_transaction_id r = Some T ->
    T < next_uuid w.

(** [address] is the primary key of the MAC address table. *)
Definition mac_keys_unique (w : World) : Prop :=
  NoDup (map mac_address (mac_addresses (db w))).

(** A MAC address the claim of [allocate_mac_address] may take at time
    [now]: marked deallocated, at least [reuse_after] before [now]. *)
Definition mac_reusable (now reuse_after : Z) (r : MacAddress) : Prop :=
  mac_deallocated r = true
  /\ exists d, mac_deallocated_at r = Some d /\ d <= now - reuse_after.

(** What the loops of [allocate_mac_address] keep true of the world [w]
    they have reached from [w0]. *)
Definition mac_inv (w0 : World) (reuse_after : Z) (w : World) : Prop :=
  utcnow w = utcnow w0
  /\ mac_transactions_fresh w
  /\ (forall r, In r (mac_addresses (db w)) -> mac_deallocated_at r <> None ->
                In r (mac_addresses (db w0)))
  /\ (forall r0, In r0 (mac_addresses (db w0)) ->
                 mac_reusable (utcnow w0) reuse_after r0
                 \/ exists r, In r (mac_addresses (db w))
                              /\ mac_address r = mac_address r0).

(** A computation that leaves the MAC addresses, the clock and the source
    of identifiers as they are, however it ends. *)
Definition keeps_macs {A : Type} (m : M A) : Prop :=
  forall w r w',
    m w = (r, w') ->
    mac_addresses (db w') = mac_addresses (db w)
    /\ utcnow w' = utcnow w /\ next_uuid w' = next_uuid w.

(** The conditions [mac_address_range_find_allocation_counts] puts on a
    range. *)
Definition passes_range_filters (address : option Z) (forbidden : bool)
  (r : MacAddressRange) : Prop :=
  next_auto_assign_mac r <> -1
  /\ (forbidden = false -> range_do_not_use r = false)
  /\ (forall a, address = Some a -> a <> 0 ->
       first_address r <= a <= last_address r).

End MacProps.
Import MacProps.

(** ** [quark.ipam]: giving a MAC address back *)

Module Dealloc.

Open Scope string_scope.
Open Scope Z_scope.

(** [mac_address_update]: the stored row of the address takes the new
    values. *)
Definition mac_address_update (context : Context) (mac : MacAddress)
  (kwargs : MacAddress -> MacAddress) : M MacAddress :=
  stmt ;;;
  modify_db (fun d =>
    set_mac_addresses
      (map (fun r => if mac_address r =? mac_address mac then kwargs mac else r)
           (mac_addresses d))
      d) ;;;
  ret (kwargs mac).

(** [deallocated=True, deallocated_at=timeutils.utcnow()] *)
Definition mac_deallocate_kwargs (now : Z) (m : MacAddress) : MacAddress :=
  mkMacAddress (mac_address m) (mac_address_range_id m) (mac_tenant_id m)
               true (Some now) (mac_transaction_id m).

(** How [deallocate_mac_address] ends when it does not fail in the store:
    [NotFound] stands for the exception [exceptions.NotFound]. *)
Inductive dealloc_outcome : Type := Deallocated | NotFound.

(** [QuarkIpam.deallocate_mac_address].  The message of [NotFound] is
    built with [netaddr.EUI(address)], which raises for a value that is no
    address; [mac["mac_address_range"]["do_not_use"]] raises [TypeError]
    for a MAC address without a range. *)
Definition deallocate_mac_address (context : Context) (address : Z)
  : M dealloc_outcome :=
  mac <- mac_address_find_one context [("address", PScalar (SInt address))] ;;
  match mac with
  | None => _ <- lift (EUI_of_int address) ;; ret NotFound
  | Some mac =>
      d <- get_db ;;
      match range_of d mac with
      | None => raise TypeError
      | Some r =>
          if range_do_not_use r
          then mac_address_delete context mac ;;; ret Deallocated
          else
            w <- get_world ;;
            mac_address_update context mac (mac_deallocate_kwargs (utcnow w)) ;;;
            ret Deallocated
      end
  end.

(** The world [w] when the clock shows [t]. *)
Definition at_time (t : Z) (w : World) : World :=
  mkWorld (db w) t (faults w) (rng w) (next_uuid w) (notifications w).

End Dealloc.
Import Dealloc.

(** ** Notions for the v6 candidates *)

Module GenProps.

Open Scope Z_scope.

(** [x] is a number of [n] bits. *)
Definition fits (n x : Z) : Prop := 0 <= x < 2 ^ n.

(** The state of the [random] module holds 32-bit words. *)
Definition rng_ok (s : Random.rng_state) : Prop :=
  Forall (fits 32) (Random.mt s).

(** A generator of candidates for [cidr], started or not. *)
Definition gen_for (cidr : IPNetwork) (g : v6_gen) : Prop :=
  match g with
  | G_new _ _ c => c = cidr
  | G_rfc3041 (R_new _ c) => c = cidr
  | G_rfc3041 (R_loop int_val) => int_val = net_value cidr
  | G_done => True
  end.

(** [v] is an address of the network [cidr]. *)
Definition in_network (cidr : IPNetwork) (v : Z) : Prop :=
  net_first cidr <= v <= net_last cidr.

(** The generator [g] drawing from the state [rng]: once [rfc3041_ip] has
    been started it draws from the state it finds. *)
Definition gen_ready (cidr : IPNetwork) (g : v6_gen) (rng : Random.rng_state)
  : Prop :=
  gen_for cidr g
  /\ match g with
     | G_rfc3041 (R_loop _) => rng_ok rng
     | _ => True
     end.

(** A computation that draws nothing from the [random] module. *)
Definition keeps_rng {A : Type} (m : M A) : Prop :=
  forall w r w', m w = (r, w') -> rng w' = rng w.

End GenProps.
Import GenProps.

(** ** Further example worlds *)

Module MoreExamples.

Import Examples.

Open Scope string_scope.
Open Scope Z_scope.

(** [10.0.0.7], which the policy of [10.0.0.0/29] excludes, stored as an
    address that transaction [4999] has claimed. *)
Definition ip_row_7_claimed : IPAddressRow :=
  mkIPAddressRow 701 0xffff0a000007 ip_10_0_0_7 4 100 1 "tenant-a" (Some 1000)
                 false None None (Some 4999).
Definition world_claimed_in_policy : World :=
  world_of (mkDB [subnet_29] [ip_row_7_claimed] [] []).

(** The MAC address [00:00:00:00:00:04] in use, in a usable range. *)
Definition mac_row_4 : MacAddress :=
  mkMacAddress 4 (Some 900) "tenant-a" false None None.
Definition world_mac_in_use : World :=
  world_of (mkDB [] [] [range_usable] [mac_row_4]).

End MoreExamples.

Unset Implicit Arguments.

(** ** The v6 generators *)

Module GeneratorFacts.

Import Examples.
Open Scope Z_scope.

Lemma MAGIC_INT_is_universal_local_bit : MAGIC_INT = 0x0200000000000000.
Proof. reflexivity. Qed.

(** A first [next()] on [rfc3041_ip] seeds the generator of the process and
    so forgets the state it finds. *)
Lemma rfc3041_first_next_forgets_rng :
  forall port_id cidr r1 r2,
    rfc3041_next (R_new port_id cidr) r1 = rfc3041_next (R_new port_id cidr) r2.
Proof. reflexivity. Qed.

Lemma v6_take_rfc3041_new :
  forall n port_id cidr r1 r2,
    fst (fst (v6_take n (G_rfc3041 (R_new port_id cidr)) r1))
    = fst (fst (v6_take n (G_rfc3041 (R_new port_id cidr)) r2)).
Proof.
  intros [|n] port_id cidr r1 r2; [reflexivity|].
  cbn [v6_take v6_next].
  rewrite (rfc3041_first_next_forgets_rng port_id cidr r1 r2).
  reflexivity.
Qed.

(** Drained one after the other, with nothing else drawing from [random]
    meanwhile, two generators for the same arguments give the same values
    whatever state each one finds. *)
Lemma generate_v6_drained_alone :
  forall n mac port_id cidr r1 r2,
    fst (fst (v6_take n (generate_v6 mac port_id cidr) r1))
    = fst (fst (v6_take n (generate_v6 mac port_id cidr) r2)).
Proof.
  intros [|n] mac port_id cidr r1 r2; [reflexivity|].
  unfold generate_v6. destruct mac as [mac|].
  - cbn [v6_take v6_next].
    destruct (rfc2462_ip mac cidr) as [v|e]; [|reflexivity].
    pose proof (v6_take_rfc3041_new n port_id cidr r1 r2) as H.
    destruct (v6_take n (G_rfc3041 (R_new port_id cidr)) r1) as [[[vs1|e1] g1] s1];
      destruct (v6_take n (G_rfc3041 (R_new port_id cidr)) r2) as [[[vs2|e2] g2] s2];
      cbn in H |- *; congruence.
  - cbn [v6_take v6_next].
    rewrite (rfc3041_first_next_forgets_rng port_id cidr r1 r2).
    reflexivity.
Qed.

(** C6 asks that two generators made for the same [(mac, port_id, cidr)]
    yield the same values.  Evaluated on the code, with the two generators
    advanced in turn: both start with the same value, then the first one
    yields the second draw after the seed and the second one the third
    draw, because [rfc3041_ip] draws from the generator of the [random]
    module, which the two share.  The two sequences differ. *)
Theorem generate_v6_interleaved_diverge :
  forall rng,
    v6_interleave [false; true; false; true]
                  (generate_v6 None port_a cidr_db8)
                  (generate_v6 None port_a cidr_db8) rng
    = ([Ok 42540766411282592859395066622490562218;
        Ok 42540766411282592861304286780486654199],
       [Ok 42540766411282592859395066622490562218;
        Ok 42540766411282592873771587442346773545]).
Proof. intro rng. vm_compute. reflexivity. Qed.



End GeneratorFacts.

(** ** The cursor of a subnet *)

Module CursorFacts.

Import Examples.
Open Scope Z_scope.

Lemma sub_id_set_next_auto_assign_ip :
  forall v s, sub_id (set_next_auto_assign_ip v s) = sub_id s.
Proof. reflexivity. Qed.

(** The cursor after a conditional update that writes [f] of the old
    value. *)
Lemma cursor_update_cursor :
  forall sid f l,
    cursor sid (update_cursor sid f l)
    = option_map (fun c => if c =? -1 then c else f c) (cursor sid l).
Proof.
  intros sid f l. unfold cursor.
  induction l as [|s l IH]; [reflexivity|].
  cbn [update_cursor map find]. unfold cursor_open.
  destruct (sub_id s =? sid) eqn:Hid; cbn [andb].
  - destruct (next_auto_assign_ip s =? -1) eqn:Hc; cbn [negb].
    + rewrite Hid. cbn. rewrite Hc. reflexivity.
    + rewrite sub_id_set_next_auto_assign_ip, Hid. cbn. rewrite Hc. reflexivity.
  - rewrite Hid. exact IH.
Qed.

Lemma cursor_step_cases :
  forall sid l l' c,
    cursor_step sid l l' ->
    cursor sid l = Some c ->
    cursor sid l' = Some (if c =? -1 then -1 else c + 1)
    \/ cursor sid l' = Some (-1).
Proof.
  intros sid l l' c Hstep Hc.
  destruct Hstep; cbn [snd next_auto_assign_ip_update set_full_update];
    rewrite cursor_update_cursor, Hc; cbn [option_map].
  - left. destruct (c =? -1) eqn:E; [apply Z.eqb_eq in E; subst|]; reflexivity.
  - right. destruct (c =? -1) eqn:E; [apply Z.eqb_eq in E; subst|]; reflexivity.
Qed.

Lemma cursor_steps_defined :
  forall sid l l',
    cursor_steps sid l l' ->
    forall c, cursor sid l = Some c -> exists c', cursor sid l' = Some c'.
Proof.
  intros sid l l' H. induction H as [l | l l' l'' Hs _ IH]; intros c Hc.
  - eauto.
  - destruct (cursor_step_cases _ _ _ _ Hs Hc) as [H1 | H1]; eapply IH; exact H1.
Qed.



(** The monadic operations perform exactly these steps, or nothing when the
    statement fails. *)
Lemma subnet_update_next_auto_assign_ip_step :
  forall context subnet w,
    subnets (db (snd (subnet_update_next_auto_assign_ip context subnet w)))
    = subnets (db w)
    \/ cursor_step (sub_id subnet) (subnets (db w))
         (subnets (db (snd (subnet_update_next_auto_assign_ip context subnet w)))).
Proof.
  intros context subnet w.
  unfold subnet_update_next_auto_assign_ip, bind, stmt, get_db, modify_db, ret.
  destruct (faults w) as [|[|] t]; cbn; auto; right; apply step_next_auto_assign_ip.
Qed.

Lemma subnet_update_set_full_step :
  forall context subnet w,
    subnets (db (snd (subnet_update_set_full context subnet w))) = subnets (db w)
    \/ cursor_step (sub_id subnet) (subnets (db w))
         (subnets (db (snd (subnet_update_set_full context subnet w)))).
Proof.
  intros context subnet w.
  unfold subnet_update_set_full, bind, stmt, get_db, modify_db, ret.
  destruct (faults w) as [|[|] t]; cbn; auto; right; apply step_set_full.
Qed.

End CursorFacts.

(** ** The order of the candidate subnets *)

Module OrderFacts.

Import Examples.
Open Scope Z_scope.




Lemma insert_ordered_perm :
  forall x l, Permutation (x :: l) (insert_ordered x l).
Proof.
  intros x l. induction l as [|y t IH]; cbn [insert_ordered].
  - apply Permutation_refl.
  - destruct (order_le x y).
    + apply Permutation_refl.
    + eapply perm_trans; [apply perm_swap|]. apply perm_skip. exact IH.
Qed.





Lemma order_by_perm : forall l, Permutation l (order_by l).
Proof.
  induction l as [|x l IH]; cbn; [constructor|].
  eapply perm_trans; [apply perm_skip, IH | apply insert_ordered_perm].
Qed.




End OrderFacts.

(** ** The strategies *)

Module StrategyFacts.

Import Examples.
Open Scope Z_scope.

Lemma py_remove_In :
  forall x l l', py_remove x l = Ok l' ->
                 forall y, In y l -> y = x \/ In y l'.
Proof.
  intros x l. induction l as [|h t IH]; intros l' H y Hy; [destruct Hy|].
  cbn [py_remove] in H. destruct (h =? x) eqn:E.
  - injection H as <-. apply Z.eqb_eq in E. destruct Hy as [<-|Hy]; auto.
  - destruct (py_remove x t) as [t'|e] eqn:Ht; [|discriminate].
    injection H as <-. destruct Hy as [<-|Hy]; [right; left; reflexivity|].
    destruct (IH _ eq_refl _ Hy) as [->|Hin];
      [left; reflexivity | right; right; exact Hin].
Qed.

(** When the loop of [BOTH_REQUIRED] answers [True], each version that was
    required has been removed on behalf of an address of the list. *)
Lemma BOTHREQ_loop_true :
  forall ips req,
    BOTHREQ_loop req ips = Ok true ->
    forall x, In x req -> exists a, In a ips /\ version a = x.
Proof.
  induction ips as [|ip t IH]; intros req H x Hx; [discriminate|].
  cbn [BOTHREQ_loop] in H.
  destruct (py_remove (version ip) req) as [req'|e] eqn:Hr; [|discriminate].
  destruct (py_remove_In _ _ _ Hr x Hx) as [->|Hin].
  - exists ip. split; [left|]; reflexivity.
  - destruct req' as [|r req']; [destruct Hin|].
    cbn in H. destruct (IH _ H x Hin) as [a [Ha Hv]].
    exists a. split; [right|]; assumption.
Qed.

Lemma BOTHREQ_satisfied_versions :
  forall l allocate_complete,
    is_strategy_satisfied BOTH_REQUIRED l allocate_complete = Ok true ->
    (exists a, In a l /\ version a = 4) /\ (exists a, In a l /\ version a = 6).
Proof.
  intros l ac H. cbn in H. unfold BOTHREQ_is_strategy_satisfied in H.
  split; eapply BOTHREQ_loop_true; try exact H; cbn; auto.
Qed.

Lemma _notify_new_addresses_ok :
  forall l w, fst (_notify_new_addresses l w) = Ok tt.
Proof.
  induction l as [|a t IH]; intro w; [reflexivity|].
  cbn [_notify_new_addresses]. unfold bind, notify. apply IH.
Qed.

(** A successful return of [allocate_ip_address] hands back a list the
    strategy is satisfied with. *)
Lemma allocate_ip_address_returns_satisfied :
  forall conf s context new_addresses net_id port_id reuse_after segment
         version ip_addresses subnets kw w l w',
    allocate_ip_address conf s context new_addresses net_id port_id reuse_after
                        segment version ip_addresses subnets kw w = (Ok l, w') ->
    is_strategy_satisfied s l false = Ok true
    \/ is_strategy_satisfied s l true = Ok true.
Proof.
  intros conf s context new_addresses net_id port_id reuse_after segment
         version ip_addresses subnets kw w l w' H.
  unfold allocate_ip_address, bind, lift, ret, raise in H.
  destruct (reallocate_phase conf s context new_addresses net_id port_id
              reuse_after segment ip_addresses subnets kw w) as [[l1|e1] w1];
    [|discriminate].
  destruct (is_strategy_satisfied s l1 false) as [[|]|e] eqn:Hs1; [| |discriminate].
  - injection H as <- <-. left. exact Hs1.
  - destruct (create_phase conf s context l1 net_id port_id reuse_after segment
                version ip_addresses subnets kw w1) as [[l2|e2] w2];
      [|discriminate].
    destruct (is_strategy_satisfied s l2 true) as [[|]|e] eqn:Hs2;
      [| discriminate | discriminate].
    destruct (_notify_new_addresses l2 w2) as [[u|e] w3]; [|discriminate].
    injection H as <- <-. right. exact Hs2.
Qed.

(** C1.  Under [BOTH_REQUIRED], whenever [allocate_ip_address] returns
    without raising, the list [new_addresses] it leaves holds an address of
    version 4 and an address of version 6. *)
Theorem BOTH_REQUIRED_returns_both_versions :
  forall conf context new_addresses net_id port_id reuse_after segment
         version ip_addresses subnets kw w l w',
    allocate_ip_address conf BOTH_REQUIRED context new_addresses net_id port_id
                        reuse_after segment version ip_addresses subnets kw w
    = (Ok l, w') ->
    (exists a, In a l /\ Models.version a = 4)
    /\ (exists a, In a l /\ Models.version a = 6).
Proof.
  intros until w'. intro H.
  destruct (allocate_ip_address_returns_satisfied _ _ _ _ _ _ _ _ _ _ _ _ _ _ _ H)
    as [Hs|Hs]; eapply BOTHREQ_satisfied_versions; exact Hs.
Qed.

(** On the network with [10.0.0.0/29] and [2001:db8::/64] the call returns
    [10.0.0.1] and a v6 address. *)
Lemma BOTH_REQUIRED_dual_stack_example :
  exists l w',
    allocate_ip_address conf BOTH_REQUIRED tenant [] 1 port_a 0 None None [] []
                        no_kwargs world_dual = (Ok l, w')
    /\ (exists a, In a l /\ Models.version a = 4)
    /\ (exists a, In a l /\ Models.version a = 6).
Proof.
  eexists. eexists. split.
  - vm_compute. reflexivity.
  - eapply (BOTH_REQUIRED_returns_both_versions conf tenant [] 1 port_a 0 None
              None [] [] no_kwargs world_dual).
    vm_compute. reflexivity.
Defined.

End StrategyFacts.

(** ** The filters of the claim on the IPAddress table *)

Module ClaimFacts.

Import Examples.
Open Scope string_scope.
Open Scope Z_scope.

Lemma truthy_versions :
  forall version, truthy (version_or_both version) = true.
Proof.
  intros [v|]; [|reflexivity]. unfold version_or_both.
  destruct (v =? 0) eqn:E; [reflexivity|]. cbn. rewrite E. reflexivity.
Qed.

Lemma listify_versions :
  forall version,
    match version_or_both version with
    | PScalar s => PList [s]
    | PList l => PList l
    end = PList (versions version).
Proof.
  intros [v|]; [|reflexivity]. unfold version_or_both, versions.
  destruct (v =? 0); reflexivity.
Qed.

(** The conditions of the claim, spelled out. *)
Lemma claim_filters_eq :
  forall now context net_id reuse_after version ip_address sub_ids,
    claim_filters now context net_id reuse_after version ip_address sub_ids
    = match ip_address with
      | Some a =>
          if ip_truthy a then
            Ok (F_in "network_id" [SId net_id]
                  :: F_deallocated_at_le (now - reuse_after)
                  :: F_in "address" [SInt (ip_value (ipv6 a))]
                  :: F_in "version" (versions version)
                  :: match sub_ids with
                     | [] => []
                     | _ :: _ => [F_in "subnet_id" (map SId sub_ids)]
                     end)
          else Raise TypeError
      | None =>
          Ok (F_in "network_id" [SId net_id]
                :: F_deallocated_at_le (now - reuse_after)
                :: F_eq "deallocated" (SBool true)
                :: F_in "version" (versions version)
                :: match sub_ids with
                   | [] => []
                   | _ :: _ => [F_in "subnet_id" (map SId sub_ids)]
                   end)
      end.
Proof.
  intros now context net_id reuse_after version ip_address sub_ids.
  destruct version as [[|p|p]|]; destruct ip_address as [[ver [|q|q]]|];
    destruct sub_ids as [|i ids]; lazy -[Z.sub Z.add ipv6]; reflexivity.
Qed.

(** [ip_address_reallocate], called as [attempt_to_reallocate_ip] calls it,
    runs its [UPDATE ... LIMIT 1] under these conditions. *)
Lemma ip_address_reallocate_uses_claim_filters :
  forall context upd net_id reuse_after version ip_address sub_ids w,
    ip_address_reallocate (elevated context) upd
      (ip_kwargs net_id reuse_after (version_or_both version) ip_address sub_ids) w
    = (stmt ;;;
       fs <- lift (claim_filters (utcnow w) context net_id reuse_after version
                                 ip_address sub_ids) ;;
       d <- get_db ;;
       let '(row_count, rows) :=
         update_limit_1 ip_col _deallocated deallocated_at fs upd (ip_addresses d) in
       modify_db (set_ip_addresses rows) ;;;
       ret (row_count =? 1)) w.
Proof.
  intros. unfold ip_address_reallocate, now_query, claim_filters, bind, stmt, lift.
  destruct (faults w) as [|[|] t]; reflexivity.
Qed.

(** One row is touched exactly when some row meets all the conditions, and
    the row touched is the first such row. *)
Lemma update_limit_1_spec :
  forall (R : Type) col flag at_ fs (upd : R -> R) rows n rows',
    update_limit_1 col flag at_ fs upd rows = (n, rows') ->
    (n = 0 /\ rows' = rows
     /\ forallb (fun r => negb (matches col flag at_ fs r)) rows = true)
    \/ (n = 1 /\ exists pre r post,
          rows = (pre ++ r :: post)%list
          /\ rows' = (pre ++ upd r :: post)%list
          /\ matches col flag at_ fs r = true
          /\ forallb (fun r => negb (matches col flag at_ fs r)) pre = true).
Proof.
  intros R col flag at_ fs upd rows. induction rows as [|r t IH]; intros n rows' H.
  - injection H as <- <-. left. auto.
  - cbn [update_limit_1] in H. destruct (matches col flag at_ fs r) eqn:Hm.
    + injection H as <- <-. right. split; [reflexivity|].
      exists [], r, t. auto.
    + destruct (update_limit_1 col flag at_ fs upd t) as [n0 t'] eqn:Ht.
      injection H as <- <-.
      destruct (IH _ _ eq_refl)
        as [[Hn [Hr Hall]] | [Hn [pre [x [post [E1 [E2 [Hx Hpre]]]]]]]].
      * left. subst. cbn. rewrite Hm. auto.
      * right. split; [exact Hn|]. exists (r :: pre), x, post. subst.
        cbn. rewrite Hm. auto.
Qed.





End ClaimFacts.

(** ** The reuse phase of [allocate_mac_address] *)

Module MacFacts.

Import Examples.
Open Scope string_scope.
Open Scope Z_scope.

Lemma mac_reuse_loop_returns :
  forall n context reuse_after mac_address w m w',
    mac_reuse_attempt context reuse_after mac_address w = (Ok (Return m), w') ->
    mac_reuse_loop (S n) context reuse_after mac_address w = (Ok (Some m), w').
Proof.
  intros n context reuse_after mac_address w m w' H.
  cbn [mac_reuse_loop]. unfold bind. rewrite H. reflexivity.
Qed.

Lemma allocate_mac_address_reuse :
  forall conf context net_id port_id reuse_after mac_address forbidden w m w',
    mac_reuse_loop (mac_address_retry_max conf) context reuse_after mac_address w
    = (Ok (Some m), w') ->
    allocate_mac_address conf context net_id port_id reuse_after mac_address
                         forbidden w = (Ok m, w').
Proof.
  intros until w'. intro H.
  unfold allocate_mac_address, bind. rewrite H. reflexivity.
Qed.

(** C3 as stated fails.  In [world_forbidden_mac] the claim touches one row
    and the row is found again by its transaction id; its range is
    [do_not_use], so [mac_address_reallocate_find] deletes it and the
    attempt goes on to the next one instead of returning the row. *)
Lemma mac_claimed_in_forbidden_range_not_returned :
  ~ forall context reuse_after mac_address w T w1 w2 m w3,
      with_begin (transaction_create context) w = (Ok T, w1) ->
      mac_address_reallocate (elevated context) (mac_update_kwargs T)
        (mac_filter_kwargs reuse_after mac_address) w1 = (Ok true, w2) ->
      mac_address_find_one (elevated context)
        [("transaction_id", PScalar (SId T))] w2 = (Ok (Some m), w3) ->
      fst (mac_reuse_attempt context reuse_after mac_address w) = Ok (Return m).
Proof.
  intro H.
  specialize (H tenant 0 None world_forbidden_mac).
  specialize (H 5000 _ _ _ _ eq_refl eq_refl eq_refl).
  vm_compute in H. discriminate.
Qed.

(** The call as a whole then ends in [MacAddressGenerationFailure]: no
    other row can be claimed and the only range is forbidden. *)
Lemma mac_claimed_in_forbidden_range_fails :
  fst (allocate_mac_address conf tenant 1 port_a 0 None false world_forbidden_mac)
  = Raise MacAddressGenerationFailure
  /\ mac_addresses
       (db (snd (allocate_mac_address conf tenant 1 port_a 0 None false
                                      world_forbidden_mac))) = [].
Proof. split; vm_compute; reflexivity. Qed.

(** C3, amended.  In the reuse phase, when the claim reports one row and
    the row found again by the transaction id is a well-formed MAC whose
    range is not marked [do_not_use], the attempt returns that row and so
    does [allocate_mac_address].  When its range is marked [do_not_use] the
    row is deleted and the attempt returns nothing: the loop goes on. *)
Theorem mac_reuse_returns_refound_row :
  forall context reuse_after mac_address w T w1 w2 m w3,
    with_begin (transaction_create context) w = (Ok T, w1) ->
    mac_address_reallocate (elevated context) (mac_update_kwargs T)
      (mac_filter_kwargs reuse_after mac_address) w1 = (Ok true, w2) ->
    mac_address_find_one (elevated context)
      [("transaction_id", PScalar (SId T))] w2 = (Ok (Some m), w3) ->
    EUI_of_int (Models.mac_address m) = Ok (Models.mac_address m) ->
    ((forall r, range_of (db w3) m = Some r -> range_do_not_use r = false) ->
     mac_reuse_attempt context reuse_after mac_address w = (Ok (Return m), w3)
     /\ forall conf net_id port_id forbidden n,
          mac_address_retry_max conf = S n ->
          allocate_mac_address conf context net_id port_id reuse_after
                               mac_address forbidden w = (Ok m, w3))
    /\ (forall r, range_of (db w3) m = Some r -> range_do_not_use r = true ->
        mac_reuse_attempt context reuse_after mac_address w
        = (Ok Continue, snd (mac_address_delete (elevated context) m w3))).
Proof.
  intros context reuse_after mac_address w T w1 w2 m w3 HT Hclaim Hfind Heui.
  assert (Hfind' :
            forall k : option MacAddress -> M (ctl MacAddress),
              bind (mac_address_reallocate_find (elevated context) T)
                   k w2
              = match range_of (db w3) m with
                | Some r => if range_do_not_use r
                            then k None (snd (mac_address_delete (elevated context) m w3))
                            else k (Some m) w3
                | None => k (Some m) w3
                end).
  { intro k. unfold mac_address_reallocate_find, bind. rewrite Hfind.
    unfold get_db. destruct (range_of (db w3) m) as [r|]; [|reflexivity].
    destruct (range_do_not_use r); reflexivity. }
  split.
  - intro Hrange.
    assert (Hattempt :
              mac_reuse_attempt context reuse_after mac_address w
              = (Ok (Return m), w3)).
    { unfold mac_reuse_attempt, try_except.
      unfold bind at 1. rewrite HT.
      unfold bind at 1. rewrite Hclaim. cbn [negb].
      rewrite Hfind'.
      destruct (range_of (db w3) m) as [r|] eqn:Hr.
      - rewrite (Hrange r eq_refl). unfold bind, lift. rewrite Heui. reflexivity.
      - unfold bind, lift. rewrite Heui. reflexivity. }
    split; [exact Hattempt|].
    intros conf net_id port_id forbidden n Hn.
    apply allocate_mac_address_reuse. rewrite Hn.
    apply mac_reuse_loop_returns. exact Hattempt.
  - intros r Hr Hdnu.
    unfold mac_reuse_attempt, try_except.
    unfold bind at 1. rewrite HT.
    unfold bind at 1. rewrite Hclaim. cbn [negb].
    rewrite Hfind', Hr, Hdnu. reflexivity.
Qed.

(** A deallocated MAC in a usable range is claimed and returned. *)
Lemma mac_reuse_returns_refound_row_example :
  mac_reuse_attempt tenant 0 None world_usable_mac
  = (Ok (Return (mac_update_kwargs 5000 mac_row_3)),
     snd (mac_reuse_attempt tenant 0 None world_usable_mac)).
Proof.
  refine (proj1 (proj1 (mac_reuse_returns_refound_row tenant 0 None
                          world_usable_mac 5000 _ _
                          (mac_update_kwargs 5000 mac_row_3) _
                          eq_refl eq_refl _ eq_refl) _)).
  - vm_compute. reflexivity.
  - intros r Hr. vm_compute in Hr. injection Hr as <-. reflexivity.
Defined.

End MacFacts.

(** ** Reasoning about computations *)

Module PyFacts.

Lemma bind_Ok :
  forall (A B : Type) (m : M A) (k : A -> M B) w b w',
    bind m k w = (Ok b, w') ->
    exists a w1, m w = (Ok a, w1) /\ k a w1 = (Ok b, w').
Proof.
  intros A B m k w b w' H. unfold bind in H.
  destruct (m w) as [[a|e] w1]; [|discriminate].
  exists a, w1. split; [reflexivity | exact H].
Qed.

Lemma stmt_Ok :
  forall w u w', stmt w = (Ok u, w') -> db w' = db w /\ utcnow w' = utcnow w.
Proof.
  intros w u w' H. unfold stmt in H.
  destruct (faults w) as [|[|] t]; try discriminate;
    injection H as _ <-; split; reflexivity.
Qed.

Lemma try_except_Ok :
  forall (A : Type) (m : M A) handled (h : exn -> M A) w a w',
    try_except m handled h w = (Ok a, w') ->
    m w = (Ok a, w')
    \/ exists e w1, m w = (Raise e, w1) /\ handled e = true /\ h e w1 = (Ok a, w').
Proof.
  intros A m handled h w a w' H. unfold try_except in H.
  destruct (m w) as [[x|e] w1].
  - left. exact H.
  - destruct (handled e) eqn:He; [|discriminate].
    right. exists e, w1. auto.
Qed.

End PyFacts.

(** ** The reuse path for IP addresses *)

Module ReallocateFacts.

Import Examples PyFacts.
Open Scope string_scope.
Open Scope Z_scope.

Lemma ip_address_find_one_Ok :
  forall context filters w o w',
    ip_address_find_one context filters w = (Ok o, w') ->
    db w' = db w
    /\ exists fs,
         _model_query (utcnow w) context MIPAddress (_listify filters) = Ok fs
         /\ o = first ip_col _deallocated deallocated_at fs (ip_addresses (db w)).
Proof.
  intros context filters w o w' H. unfold ip_address_find_one in H.
  apply bind_Ok in H. destruct H as [u [w1 [Hs H]]].
  apply stmt_Ok in Hs. destruct Hs as [Hdb Hnow].
  apply bind_Ok in H. destruct H as [fs [w2 [Hq H]]].
  unfold now_query in Hq. rewrite Hnow in Hq.
  destruct (_model_query (utcnow w) context MIPAddress (_listify filters))
    as [fs'|e] eqn:Hfs; [|discriminate].
  injection Hq as <- <-.
  unfold bind, get_db, ret in H. injection H as <- <-.
  split; [exact Hdb|]. exists fs'. rewrite Hdb. auto.
Qed.

Lemma transaction_filter :
  forall now context T fs,
    _model_query now context MIPAddress
      (_listify [("transaction_id", PScalar (SId T))]) = Ok fs ->
    In (F_eq "transaction_id" (SId T)) fs.
Proof.
  intros now [tenant admin] T fs H.
  destruct admin; vm_compute in H; injection H as <-; cbn; auto.
Qed.

Lemma matches_In :
  forall (R : Type) col flag at_ fs f (r : R),
    matches col flag at_ fs r = true -> In f fs ->
    eval_filter col flag at_ f r = true.
Proof.
  intros R col flag at_ fs f r H Hin. unfold matches in H.
  rewrite forallb_forall in H. apply H. exact Hin.
Qed.

(** What [ip_address_reallocate_find] returns carries the transaction id,
    is a row of the table and has passed the checks. *)
Lemma ip_address_reallocate_find_Some :
  forall context T w a w',
    ip_address_reallocate_find context T w = (Ok (Some a), w') ->
    validated (db w') a
    /\ In a (ip_addresses (db w'))
    /\ transaction_id a = Some T.
Proof.
  intros context T w a w' H. unfold ip_address_reallocate_find in H.
  apply bind_Ok in H. destruct H as [o [w1 [Hf H]]].
  apply ip_address_find_one_Ok in Hf. destruct Hf as [Hdb [fs [Hfs Ho]]].
  destruct o as [row|]; [|discriminate].
  symmetry in Ho. unfold first in Ho. apply find_some in Ho.
  destruct Ho as [Hin Hm].
  pose proof (matches_In _ _ _ _ _ _ _ Hm (transaction_filter _ _ _ _ Hfs)) as Ht.
  unfold bind, get_db in H.
  destruct (subnet_of (db w1) row) as [subnet|] eqn:Hsub; [|discriminate].
  destruct (do_not_use subnet) eqn:Hdnu; [discriminate|].
  unfold lift in H.
  destruct (row_addr subnet row) as [addr|e] eqn:Haddr; [|discriminate].
  destruct (match get_ip_policy_cidrs subnet with
            | Some p => ipset_contains p addr
            | None => false
            end) eqn:Hpol.
  { unfold ip_address_delete, modify_db, ret in H. discriminate. }
  destruct (net_contains (cidr subnet) addr) eqn:Hnet; cbn [negb] in H.
  2:{ unfold ip_address_delete, modify_db, ret in H. discriminate. }
  unfold ret in H. injection H as <- <-.
  split; [|split].
  - exists subnet, addr. unfold address_in_policy. rewrite Haddr.
    repeat split; auto.
  - rewrite Hdb. exact Hin.
  - cbn in Ht. unfold ip_col in Ht. cbn in Ht.
    destruct (transaction_id row) as [t|]; cbn in Ht; [|discriminate].
    apply Z.eqb_eq in Ht. subst. reflexivity.
Qed.

Lemma reallocate_attempt_Return :
  forall context kw filters w a w',
    reallocate_attempt context kw filters w = (Ok (Return a), w') ->
    validated (db w') a
    /\ In a (ip_addresses (db w'))
    /\ exists T, transaction_id a = Some T.
Proof.
  intros context kw filters w a w' H. unfold reallocate_attempt in H.
  apply try_except_Ok in H. destruct H as [H | [e [w1 [_ [_ H]]]]].
  2:{ unfold ret in H. discriminate. }
  apply bind_Ok in H. destruct H as [T [w1 [_ H]]].
  apply bind_Ok in H. destruct H as [w0 [w2 [_ H]]].
  apply bind_Ok in H. destruct H as [result [w3 [_ H]]].
  destruct result; cbn [negb] in H; [|unfold ret in H; discriminate].
  apply bind_Ok in H. destruct H as [o [w4 [Hf H]]].
  destruct o as [row|]; unfold ret in H; [|discriminate].
  injection H as <- <-.
  destruct (ip_address_reallocate_find_Some _ _ _ _ _ Hf) as [Hv [Hin Ht]].
  eauto.
Qed.

Lemma reallocate_loop_result :
  forall n context kw filters w l w',
    reallocate_loop n context kw filters w = (Ok l, w') ->
    l = []
    \/ exists a, l = [a]
                 /\ validated (db w') a
                 /\ In a (ip_addresses (db w'))
                 /\ exists T, transaction_id a = Some T.
Proof.
  induction n as [|n IH]; intros context kw filters w l w' H.
  - unfold reallocate_loop, ret in H. injection H as <- _. left. reflexivity.
  - cbn [reallocate_loop] in H.
    apply bind_Ok in H. destruct H as [c [w1 [Ha H]]].
    destruct c as [| |a].
    + eapply IH. exact H.
    + unfold ret in H. injection H as <- _. left. reflexivity.
    + unfold ret in H. injection H as <- <-. right. exists a.
      split; [reflexivity|]. eapply reallocate_attempt_Return. exact Ha.
Qed.

(** The version [6] alone sends the caller to the create path; any other
    request runs the retry loop. *)
Lemma attempt_to_reallocate_ip_cases :
  forall conf context net_id port_id reuse_after version ip_address segment
         subnets kw,
    attempt_to_reallocate_ip conf context net_id port_id reuse_after version
                             ip_address segment subnets kw = ret []
    \/ attempt_to_reallocate_ip conf context net_id port_id reuse_after version
                                ip_address segment subnets kw
       = (sub_ids <- reallocate_sub_ids context net_id segment subnets ;;
          reallocate_loop (ip_address_retry_max conf) context kw
            (ip_kwargs net_id reuse_after (version_or_both version)
                       ip_address sub_ids)).
Proof.
  intros conf context net_id port_id reuse_after version ip_address segment
         subnets kw.
  unfold attempt_to_reallocate_ip.
  destruct (version_or_both version) as [s|l]; [|right; reflexivity].
  destruct s as [| | z | | |]; try (right; reflexivity).
  destruct z as [|p|p]; try (right; reflexivity).
  repeat (destruct p as [p|p|]; try (right; reflexivity)).
  left. reflexivity.
Qed.

(** C10.  Whenever the base [attempt_to_reallocate_ip] returns, it returns
    the empty list or a list of exactly one address, the one it claimed
    under its transaction id and that passed the checks of
    [ip_address_reallocate_find]; never two or more. *)
Theorem attempt_to_reallocate_ip_at_most_one :
  forall conf context net_id port_id reuse_after version ip_address segment
         subnets kw w l w',
    attempt_to_reallocate_ip conf context net_id port_id reuse_after version
                             ip_address segment subnets kw w = (Ok l, w') ->
    (List.length l <= 1)%nat
    /\ (l = []
        \/ exists a, l = [a]
                     /\ validated (db w') a
                     /\ In a (ip_addresses (db w'))
                     /\ exists T, transaction_id a = Some T).
Proof.
  intros conf context net_id port_id reuse_after version ip_address segment
         subnets kw w l w' H.
  assert (Hl : l = []
               \/ exists a, l = [a]
                            /\ validated (db w') a
                            /\ In a (ip_addresses (db w'))
                            /\ exists T, transaction_id a = Some T).
  { destruct (attempt_to_reallocate_ip_cases conf context net_id port_id
                reuse_after version ip_address segment subnets kw) as [E|E];
      rewrite E in H.
    - unfold ret in H. injection H as <- _. left. reflexivity.
    - apply bind_Ok in H. destruct H as [sub_ids [w1 [_ H]]].
      eapply reallocate_loop_result. exact H. }
  split; [|exact Hl].
  destruct Hl as [->|[a [-> _]]]; cbn; lia.
Qed.

(** [10.0.0.3], deallocated, is claimed again on its network. *)
Lemma attempt_to_reallocate_ip_example :
  Nat.le (List.length [ip_update_kwargs tenant no_kwargs 5000 1000 ip_row_3]) 1.
Proof.
  refine (proj1 (attempt_to_reallocate_ip_at_most_one conf tenant 1 port_a 0
                   None None None [] no_kwargs world_reusable_ip _ _ _)).
  vm_compute. reflexivity.
Defined.

End ReallocateFacts.

(** ** The create path: failures of the insert and retries *)

Module CreateFacts.

Import Examples PyFacts.
Open Scope string_scope.
Open Scope Z_scope.


(** An exception of the create path leaves [_allocate_ips_from_subnets]
    with the list as it stands. *)
Lemma _allocate_ips_from_subnets_raise :
  forall conf context new_addresses net_id subnet rest port_id reuse_after
         ip_address kw w e w',
    allocate_from conf context net_id subnet port_id reuse_after ip_address kw w
    = (Raise e, w') ->
    _allocate_ips_from_subnets conf context new_addresses net_id
      (Some subnet :: rest) port_id reuse_after ip_address kw w
    = (Ok (new_addresses, Some e), w').
Proof.
  intros conf context new_addresses net_id subnet rest port_id reuse_after
         ip_address kw w e w' H.
  cbn [_allocate_ips_from_subnets]. unfold bind at 1. unfold try_except.
  unfold bind at 1. rewrite H. reflexivity.
Qed.


Lemma allocate_each_raise :
  forall conf s context new_addresses net_id port_id reuse_after segment
         version kw ip_addr sub rest w e w',
    _try_allocate_ip_address conf (ip_address_retry_max conf) s context
      new_addresses net_id port_id reuse_after segment version kw ip_addr sub w
    = (Raise e, w') ->
    allocate_each conf s context new_addresses net_id port_id reuse_after
      segment version kw ((ip_addr, sub) :: rest) w = (Raise e, w').
Proof.
  intros conf s context new_addresses net_id port_id reuse_after segment
         version kw ip_addr sub rest w e w' H.
  cbn [allocate_each]. unfold bind. rewrite H. reflexivity.
Qed.



Lemma allocate_ip_address_in_use_example :
  fst (allocate_ip_address conf ANY tenant [] 1 port_a 0 None None [ip_10_0_0_3]
                           [] no_kwargs world_ip_in_use)
  = Raise IpAddressInUse.
Proof. vm_compute. reflexivity. Qed.

(** The cursor stands on [10.0.0.3], which is taken: the first attempt ends
    in [IPAddressRetryableFailure], the second one creates [10.0.0.4]. *)
Lemma allocate_ip_address_retry_example :
  fst (_allocate_from_subnet tenant 1
         (set_next_auto_assign_ip 0xffff0a000004 subnet_29) port_a 0 None
         no_kwargs world_cursor_conflict)
  = Raise IPAddressRetryableFailure
  /\ option_map (map address_readable)
       (match fst (allocate_ip_address conf ANY tenant [] 1 port_a 0 None None
                     [] [] no_kwargs world_cursor_conflict) with
        | Ok l => Some l
        | Raise _ => None
        end)
     = Some [mkIP 4 0x0a000004].
Proof. split; vm_compute; reflexivity. Qed.

End CreateFacts.

(** ** The create path and the IP policy *)

Module PolicyFacts.

Import Examples PyFacts ReallocateFacts.
Open Scope string_scope.
Open Scope Z_scope.

Lemma with_begin_Ok :
  forall (A : Type) (m : M A) w a w',
    with_begin m w = (Ok a, w') -> m w = (Ok a, w').
Proof.
  intros A m w a w' H. unfold with_begin in H.
  destruct (m w) as [[x|e] w1]; [exact H | discriminate].
Qed.

Lemma ip_address_create_Ok :
  forall context addr sid ver net_id atype w row w',
    ip_address_create context addr sid ver net_id atype w = (Ok row, w') ->
    address row = ip_value (ipv6 addr).
Proof.
  intros context addr sid ver net_id atype w row w' H.
  unfold ip_address_create in H.
  apply bind_Ok in H. destruct H as [u [w1 [_ H]]].
  apply bind_Ok in H. destruct H as [id [w2 [_ H]]].
  apply bind_Ok in H. destruct H as [w0 [w3 [_ H]]].
  match type of H with
  | (if ?c then _ else _) _ = _ => destruct c
  end.
  - unfold raise in H. discriminate.
  - unfold bind, modify_db, ret in H. injection H as <- _. reflexivity.
Qed.

Lemma IPAddress_of_int_Ok :
  forall v a,
    IPAddress_of_int v = Ok a ->
    ip_value a = v
    /\ ((ip_ver a = 4 /\ 0 <= v <= 4294967295)
        \/ (ip_ver a = 6 /\ 4294967295 < v <= 2 ^ 128 - 1)).
Proof.
  intros v a H. unfold IPAddress_of_int in H.
  change (2 ^ 32 - 1) with 4294967295 in H.
  destruct ((0 <=? v) && (v <=? 4294967295)) eqn:E4.
  - injection H as <-. apply andb_true_iff in E4. destruct E4 as [H0 H1].
    apply Z.leb_le in H0. apply Z.leb_le in H1. cbn. split; [reflexivity|].
    left. lia.
  - destruct ((0 <=? v) && (v <=? 2 ^ 128 - 1)) eqn:E6; [|discriminate].
    injection H as <-. apply andb_true_iff in E6. destruct E6 as [H0 H1].
    apply Z.leb_le in H0. apply Z.leb_le in H1. cbn. split; [reflexivity|].
    right. split; [reflexivity|]. split; [|exact H1].
    apply andb_false_iff in E4. destruct E4 as [E|E].
    + apply Z.leb_gt in E. lia.
    + apply Z.leb_gt in E. exact E.
Qed.

Lemma IPAddress_of_int_v6 :
  forall v, 4294967295 < v <= 2 ^ 128 - 1 -> IPAddress_of_int v = Ok (mkIP 6 v).
Proof.
  intros v [Hlo Hhi]. unfold IPAddress_of_int.
  change (2 ^ 32 - 1) with 4294967295.
  assert (E4 : (v <=? 4294967295) = false) by (apply Z.leb_gt; exact Hlo).
  rewrite E4, andb_false_r.
  assert (E0 : (0 <=? v) = true) by (apply Z.leb_le; lia).
  assert (E6 : (v <=? 2 ^ 128 - 1) = true) by (apply Z.leb_le; exact Hhi).
  rewrite E0, E6. reflexivity.
Qed.

(** [ipv4()] gives an address of the v4 family. *)
Lemma ipv4_Ok :
  forall n a, ipv4 n = Ok a ->
              (ip_ver n = 4 -> 0 <= ip_value n <= 4294967295) ->
              ip_ver a = 4 /\ 0 <= ip_value a <= 4294967295.
Proof.
  intros n a H Hn. unfold ipv4, V4_MAPPED in H.
  destruct (ip_ver n =? 4) eqn:E.
  - injection H as <-. apply Z.eqb_eq in E. auto.
  - destruct ((0 <=? ip_value n) && (ip_value n <=? 0xffffffff)) eqn:E1.
    + injection H as <-. apply andb_true_iff in E1. destruct E1 as [H0 H1].
      apply Z.leb_le in H0. apply Z.leb_le in H1. cbn. lia.
    + destruct ((0xffff00000000 <=? ip_value n)
                && (ip_value n <=? 0xffffffffffff)) eqn:E2; [|discriminate].
      injection H as <-. apply andb_true_iff in E2. destruct E2 as [H0 H1].
      apply Z.leb_le in H0. apply Z.leb_le in H1. cbn. lia.
Qed.

(** A v4 address stored in its v4-mapped form is read back as itself. *)
Lemma row_addr_v4 :
  forall subnet row a,
    (ip_version subnet =? 4) = true ->
    ip_ver a = 4 -> 0 <= ip_value a <= 4294967295 ->
    address row = ip_value (ipv6 a) ->
    row_addr subnet row = Ok a.
Proof.
  intros subnet row [ver v] Hs Hver Hv Haddr. cbn in Hver, Hv. subst ver.
  unfold row_addr. rewrite Haddr, Hs. unfold ipv6, V4_MAPPED. cbn [ip_ver ip_value].
  change (4 =? 4) with true. cbn [ip_value].
  rewrite IPAddress_of_int_v6
    by (change (2 ^ 128 - 1) with 340282366920938463463374607431768211455; lia).
  unfold ipv4, V4_MAPPED. cbn [ip_ver ip_value]. change (6 =? 4) with false.
  assert (E1 : (0xffff00000000 + v <=? 0xffffffff) = false) by (apply Z.leb_gt; lia).
  assert (E2 : (0xffff00000000 <=? 0xffff00000000 + v) = true) by (apply Z.leb_le; lia).
  assert (E3 : (0xffff00000000 + v <=? 0xffffffffffff) = true) by (apply Z.leb_le; lia).
  rewrite E1, andb_false_r, E2, E3. cbn [andb].
  f_equal. f_equal. lia.
Qed.

(** A generated v6 candidate is stored and read back as the address that
    was tested against the policy. *)
Lemma row_addr_v6 :
  forall subnet row candidate a,
    (ip_version subnet =? 4) = false ->
    IPAddress_of_int candidate = Ok a ->
    address row = ip_value (ipv6 (ipv6 a)) ->
    row_addr subnet row = Ok (ipv6 a).
Proof.
  intros subnet row candidate [ver v] Hs Ha Haddr.
  apply IPAddress_of_int_Ok in Ha. cbn [ip_ver ip_value] in Ha.
  destruct Ha as [-> Hcases].
  unfold row_addr. rewrite Haddr, Hs.
  destruct Hcases as [[-> Hv] | [-> Hv]]; unfold ipv6, V4_MAPPED;
    cbn [ip_ver ip_value].
  - change (4 =? 4) with true. cbn [ip_ver ip_value]. change (6 =? 4) with false.
    cbn [ip_value].
    rewrite IPAddress_of_int_v6
      by (change (2 ^ 128 - 1) with 340282366920938463463374607431768211455; lia).
    reflexivity.
  - change (6 =? 4) with false. cbn [ip_ver ip_value]. change (6 =? 4) with false.
    cbn [ip_value].
    rewrite IPAddress_of_int_v6 by exact Hv. reflexivity.
Qed.

Lemma auto_next_ip_v4 :
  forall subnet a,
    (ip_version subnet =? 4) = true ->
    auto_next_ip subnet = Ok a ->
    ip_ver a = 4 /\ 0 <= ip_value a <= 4294967295.
Proof.
  intros subnet a Hs H. unfold auto_next_ip in H.
  destruct (IPAddress_of_int
              (if negb (next_auto_assign_ip subnet =? -1)
               then next_auto_assign_ip subnet - 1 else last_ip subnet))
    as [n|e] eqn:Hn; [|discriminate].
  rewrite Hs in H. apply IPAddress_of_int_Ok in Hn.
  apply (ipv4_Ok n a H). intro Hv. destruct Hn as [Hval [[_ Hr]|[Hv6 _]]].
  - rewrite Hval. exact Hr.
  - rewrite Hv in Hv6. discriminate.
Qed.

(** The policy test of [_allocate_from_subnet] and the one applied to
    stored rows agree on the candidate. *)
Lemma violates_policy_false :
  forall subnet ip_address next_ip,
    supplied ip_address = false ->
    violates_policy subnet ip_address next_ip = false ->
    match get_ip_policy_cidrs subnet with
    | Some p => ipset_contains p next_ip
    | None => false
    end = false.
Proof.
  intros subnet ip_address next_ip Hs H. unfold violates_policy in H.
  rewrite Hs in H.
  destruct (get_ip_policy_cidrs subnet) as [[|c cs]|]; try reflexivity.
  cbn [negb] in H. rewrite andb_true_r in H. exact H.
Qed.

Lemma address_in_policy_of_row_addr :
  forall subnet row addr,
    row_addr subnet row = Ok addr ->
    match get_ip_policy_cidrs subnet with
    | Some p => ipset_contains p addr
    | None => false
    end = false ->
    address_in_policy subnet row = false.
Proof.
  intros subnet row addr Hr Hp. unfold address_in_policy. rewrite Hr.
  destruct (get_ip_policy_cidrs subnet); [exact Hp | reflexivity].
Qed.

Lemma choose_next_ip_not_supplied :
  forall subnet ip_address,
    supplied ip_address = false ->
    choose_next_ip subnet ip_address = auto_next_ip subnet.
Proof.
  intros subnet [a|] Hs; [|reflexivity].
  unfold choose_next_ip. cbn [supplied] in Hs. rewrite Hs. reflexivity.
Qed.

(** The v4 branch, with no address asked for. *)
Lemma _allocate_from_subnet_policy :
  forall context net_id subnet port_id reuse_after ip_address kw w row w',
    (ip_version subnet =? 4) = true ->
    supplied ip_address = false ->
    _allocate_from_subnet context net_id subnet port_id reuse_after ip_address
                          kw w = (Ok row, w') ->
    address_in_policy subnet row = false.
Proof.
  intros context net_id subnet port_id reuse_after ip_address kw w row w'
         Hv4 Hs H.
  unfold _allocate_from_subnet in H.
  apply bind_Ok in H. destruct H as [next_ip [w1 [Hn H]]].
  unfold lift in Hn. rewrite (choose_next_ip_not_supplied _ _ Hs) in Hn.
  destruct (auto_next_ip subnet) as [a|e] eqn:Ha; [|discriminate].
  injection Hn as <- <-.
  destruct (violates_policy subnet ip_address a) eqn:Hp;
    [unfold raise in H; discriminate|].
  apply try_except_Ok in H. destruct H as [H | [e [w2 [_ [_ H]]]]].
  2:{ rewrite Hs in H. unfold raise in H. discriminate. }
  unfold insert_address in H. apply with_begin_Ok in H.
  apply ip_address_create_Ok in H.
  destruct (auto_next_ip_v4 _ _ Hv4 Ha) as [Hver Hval].
  apply (address_in_policy_of_row_addr subnet row a).
  - apply row_addr_v4; assumption.
  - apply (violates_policy_false _ _ _ Hs Hp).
Qed.

(** The conditions of the [ip_address_find] of the v6 loop hold the
    candidate. *)
Lemma v6_find_filters :
  forall now context net_id x reuse_after sid fs,
    _model_query now context MIPAddress
      (_listify [("network_id", PScalar (SId net_id));
                 ("ip_address", PScalar (SAddr x));
                 ("reuse_after", PScalar (SInt reuse_after));
                 ("deallocated", PScalar (SBool true));
                 ("subnet_id", PScalar (SId sid))]) = Ok fs ->
    In (F_in "address" [SInt (ip_value (ipv6 x))]) fs.
Proof.
  intros now [tenant [|]] net_id [ver [|q|q]] reuse_after sid fs H;
    lazy -[Z.sub Z.add ipv6] in H;
    try discriminate; injection H as <-;
    apply in_cons, in_eq.
Qed.

Lemma ip_address_update_Ok :
  forall context a kwargs w r w',
    ip_address_update context a kwargs w = (Ok r, w') -> r = kwargs a.
Proof.
  intros context a kwargs w r w' H. unfold ip_address_update in H.
  apply bind_Ok in H. destruct H as [u [w1 [_ H]]].
  unfold bind, modify_db, ret in H. injection H as <- _. reflexivity.
Qed.

(** The v6 loop: whatever it returns has the address of a candidate that
    passed the policy test. *)
Lemma v6_loop_policy :
  forall remaining g context net_id subnet reuse_after kw w row w',
    (ip_version subnet =? 4) = false ->
    v6_loop remaining g context net_id subnet reuse_after kw w = (Ok row, w') ->
    address_in_policy subnet row = false.
Proof.
  induction remaining as [|n IH];
    intros g context net_id subnet reuse_after kw w row w' Hv6 H.
  - cbn [v6_loop] in H. apply bind_Ok in H. destruct H as [[c g'] [w1 [_ H]]].
    unfold raise in H. discriminate.
  - cbn [v6_loop] in H. apply bind_Ok in H. destruct H as [[c g'] [w1 [_ H]]].
    apply bind_Ok in H. destruct H as [a [w2 [Ha H]]].
    unfold lift in Ha.
    destruct (IPAddress_of_int c) as [a'|e] eqn:Hc; [|discriminate].
    injection Ha as <- <-.
    destruct (match get_ip_policy_cidrs subnet with
              | Some p => ipset_contains p (ipv6 a')
              | None => false
              end) eqn:Hp.
    { eapply IH; [exact Hv6 | exact H]. }
    apply bind_Ok in H. destruct H as [claimed [w3 [Hclaim H]]].
    apply with_begin_Ok in Hclaim.
    apply bind_Ok in Hclaim. destruct Hclaim as [found [w4 [Hfind Hclaim]]].
    destruct claimed as [r|].
    + unfold ret in H. injection H as <- <-.
      destruct found as [row0|]; [|unfold ret in Hclaim; discriminate].
      apply bind_Ok in Hclaim. destruct Hclaim as [w0 [w5 [_ Hclaim]]].
      apply bind_Ok in Hclaim. destruct Hclaim as [r' [w6 [Hupd Hclaim]]].
      unfold ret in Hclaim. injection Hclaim as <- _.
      apply ip_address_update_Ok in Hupd. subst r'.
      apply ip_address_find_one_Ok in Hfind.
      destruct Hfind as [_ [fs [Hfs Ho]]].
      symmetry in Ho. unfold first in Ho. apply find_some in Ho.
      destruct Ho as [_ Hm].
      pose proof (matches_In _ _ _ _ _ _ _ Hm (v6_find_filters _ _ _ _ _ _ _ Hfs))
        as Ht.
      cbn [eval_filter existsb] in Ht. rewrite orb_false_r in Ht.
      change (ip_col "address" row0) with (SInt (address row0)) in Ht.
      cbn [scalar_eqb] in Ht. apply Z.eqb_eq in Ht.
      apply (address_in_policy_of_row_addr subnet _ (ipv6 a')); [|exact Hp].
      apply (row_addr_v6 subnet _ c a' Hv6 Hc). exact Ht.
    + destruct found as [row0|].
      { apply bind_Ok in Hclaim. destruct Hclaim as [w0 [w5 [_ Hclaim]]].
        apply bind_Ok in Hclaim. destruct Hclaim as [r' [w6 [_ Hclaim]]].
        unfold ret in Hclaim. discriminate. }
      apply bind_Ok in H. destruct H as [created [w5 [Hcreate H]]].
      destruct created as [r|].
      * unfold ret in H. injection H as <- <-.
        apply try_except_Ok in Hcreate.
        destruct Hcreate as [Hcreate | [e [w6 [_ [_ Hcreate]]]]];
          [|unfold ret in Hcreate; discriminate].
        apply bind_Ok in Hcreate. destruct Hcreate as [r' [w6 [Hc' Hcreate]]].
        unfold ret in Hcreate. injection Hcreate as <- _.
        apply with_begin_Ok in Hc'. apply ip_address_create_Ok in Hc'.
        apply (address_in_policy_of_row_addr subnet _ (ipv6 a')); [|exact Hp].
        apply (row_addr_v6 subnet _ c a' Hv6 Hc). exact Hc'.
      * eapply IH; [exact Hv6 | exact H].
Qed.

(** C2 as stated fails: [10.0.0.7] is excluded by the policy of
    [10.0.0.0/29]; asked for by the caller, it is created and returned. *)
Lemma explicit_ip_in_policy_is_created :
  ~ forall conf context net_id subnet port_id reuse_after ip_address kw w row w',
      allocate_from conf context net_id subnet port_id reuse_after ip_address
                    kw w = (Ok row, w') ->
      address_in_policy subnet row = false.
Proof.
  intro H.
  specialize (H conf tenant 1 subnet_29 port_a 0 (Some ip_10_0_0_7) no_kwargs
                world_v4 _ _ eq_refl).
  vm_compute in H. discriminate.
Qed.

(** C2, amended.  Every address the create path returns when no address
    was asked for lies outside the IP policy of its subnet; an address the
    caller asked for is not tested against the policy. *)
Theorem create_path_respects_policy :
  forall conf context net_id subnet port_id reuse_after ip_address kw w row w',
    supplied ip_address = false ->
    allocate_from conf context net_id subnet port_id reuse_after ip_address
                  kw w = (Ok row, w') ->
    address_in_policy subnet row = false.
Proof.
  intros conf context net_id subnet port_id reuse_after ip_address kw w row w'
         Hs H.
  unfold allocate_from in H. destruct (ip_version subnet =? 4) eqn:Hv.
  - eapply _allocate_from_subnet_policy; eassumption.
  - unfold _allocate_from_v6_subnet in H. rewrite Hs in H.
    eapply v6_loop_policy; eassumption.
Qed.

(** The first address created on [10.0.0.0/29] is [10.0.0.1], outside the
    policy; the cursor stands past [10.0.0.1] as the selector leaves it. *)
Lemma create_path_respects_policy_example :
  address_in_policy (set_next_auto_assign_ip 0xffff0a000002 subnet_29)
    (mkIPAddressRow 5000 0xffff0a000001 (mkIP 4 0x0a000001) 4 100 1 "tenant-a"
                    (Some 1000) false None (Some "fixed") None)
  = false.
Proof.
  refine (create_path_respects_policy conf tenant 1
            (set_next_auto_assign_ip 0xffff0a000002 subnet_29) port_a 0 None
            no_kwargs world_v4 _ _ eq_refl _).
  vm_compute. reflexivity.
Defined.

End PolicyFacts.

(** ** What reaches the notifier *)

Module NotifyFacts.

Import Examples MoreExamples PyFacts.
Open Scope string_scope.
Open Scope Z_scope.















































End NotifyFacts.

(** ** More on the strategies *)

Module StrategyMore.

Import PyFacts.
Open Scope Z_scope.

(** Whether two versions are 4 and 6, in either order. *)
Lemma py_remove_46 :
  forall v,
    py_remove v [4; 6]
    = if v =? 4 then Ok [6] else if v =? 6 then Ok [4] else Raise ValueError.
Proof.
  intro v. cbn [py_remove]. rewrite (Z.eqb_sym 4 v), (Z.eqb_sym 6 v).
  destruct (v =? 4); [reflexivity|]. destruct (v =? 6); reflexivity.
Qed.

Lemma py_remove_1 :
  forall v x, py_remove v [x] = if v =? x then Ok [] else Raise ValueError.
Proof.
  intros v x. cbn [py_remove]. rewrite (Z.eqb_sym x v).
  destruct (v =? x); reflexivity.
Qed.

Lemma py_remove_nil : forall v, py_remove v [] = Raise ValueError.
Proof. reflexivity. Qed.

(** The lists [QuarkIpamBOTH.is_strategy_satisfied] accepts. *)
Lemma BOTH_satisfied_shape :
  forall ips allocate_complete,
    BOTH_is_strategy_satisfied ips allocate_complete = Ok true ->
    match map version ips with
    | [a] => a = 4 \/ a = 6
    | [a; b] => (a = 4 /\ b = 6) \/ (a = 6 /\ b = 4)
    | _ => False
    end.
Proof.
  intros ips ac H. unfold BOTH_is_strategy_satisfied in H.
  destruct ips as [|x [|y [|z t]]]; cbn [map remove_versions] in H |- *;
    try discriminate H; rewrite py_remove_46 in H;
    destruct (version x =? 4) eqn:E4;
    try (destruct (version x =? 6) eqn:E6; [|discriminate H]);
    try apply Z.eqb_eq in E4; try apply Z.eqb_eq in E6; auto;
    rewrite py_remove_1 in H.
  - destruct (version y =? 6) eqn:F; [|discriminate H].
    apply Z.eqb_eq in F. auto.
  - destruct (version y =? 4) eqn:F; [|discriminate H].
    apply Z.eqb_eq in F. auto.
  - destruct (version y =? 6); cbn in H; discriminate H.
  - destruct (version y =? 4); cbn in H; discriminate H.
Qed.

(** [QuarkIpamBOTH.is_strategy_satisfied] decided by the versions of the
    list: nothing gives [False]; one address of version 4 or 6 gives
    [allocate_complete]; a v4 and a v6 address give [True]; any other list,
    in particular any list of three addresses or more, two addresses of the
    same version, or a version other than 4 and 6, ends in [ValueError]
    from [list.remove]. *)
Theorem BOTH_is_strategy_satisfied_by_versions :
  forall ips allocate_complete,
    BOTH_is_strategy_satisfied ips allocate_complete
    = match map version ips with
      | [] => Ok false
      | [a] => if (a =? 4) || (a =? 6) then Ok allocate_complete
               else Raise ValueError
      | [a; b] => if ((a =? 4) && (b =? 6)) || ((a =? 6) && (b =? 4))
                  then Ok true else Raise ValueError
      | _ => Raise ValueError
      end.
Proof.
  intros ips ac. unfold BOTH_is_strategy_satisfied.
  destruct ips as [|x [|y [|z t]]]; cbn [map remove_versions].
  - reflexivity.
  - rewrite py_remove_46.
    destruct (version x =? 4); [destruct ac; reflexivity|].
    destruct (version x =? 6); [destruct ac; reflexivity | reflexivity].
  - rewrite py_remove_46.
    destruct (Z.eqb_spec (version x) 4) as [E4|N4].
    + rewrite py_remove_1.
      destruct (Z.eqb_spec (version x) 6) as [E6|_]; [lia|].
      cbn [andb orb]. rewrite orb_false_r.
      destruct (version y =? 6); reflexivity.
    + destruct (Z.eqb_spec (version x) 6) as [E6|N6]; [|reflexivity].
      rewrite py_remove_1. cbn [andb orb].
      destruct (version y =? 4); reflexivity.
  - rewrite py_remove_46.
    destruct (version x =? 4).
    + rewrite py_remove_1. destruct (version y =? 6); reflexivity.
    + destruct (version x =? 6); [|reflexivity].
      rewrite py_remove_1. destruct (version y =? 4); reflexivity.
Qed.

(** [QuarkIpamBOTHREQ.is_strategy_satisfied] looks at the first two
    addresses only: it answers [True] when they are a v4 and a v6 address,
    whatever follows and whatever [allocate_complete] is, [False] for no
    address or one address of version 4 or 6, and ends in [ValueError]
    otherwise. *)
Theorem BOTHREQ_is_strategy_satisfied_by_versions :
  forall ips allocate_complete,
    BOTHREQ_is_strategy_satisfied ips allocate_complete
    = match map version ips with
      | [] => Ok false
      | [a] => if (a =? 4) || (a =? 6) then Ok false else Raise ValueError
      | a :: b :: _ => if ((a =? 4) && (b =? 6)) || ((a =? 6) && (b =? 4))
                       then Ok true else Raise ValueError
      end.
Proof.
  intros ips ac. unfold BOTHREQ_is_strategy_satisfied.
  destruct ips as [|x [|y t]]; cbn [map BOTHREQ_loop].
  - reflexivity.
  - rewrite py_remove_46.
    destruct (version x =? 4); [reflexivity|].
    destruct (version x =? 6); reflexivity.
  - rewrite py_remove_46.
    destruct (Z.eqb_spec (version x) 4) as [E4|N4].
    + cbn [List.length Nat.eqb BOTHREQ_loop]. rewrite py_remove_1.
      destruct (Z.eqb_spec (version x) 6) as [E6|_]; [lia|].
      cbn [andb orb]. rewrite orb_false_r.
      destruct (version y =? 6); reflexivity.
    + destruct (Z.eqb_spec (version x) 6) as [E6|N6]; [|reflexivity].
      cbn [List.length Nat.eqb BOTHREQ_loop]. rewrite py_remove_1.
      destruct (version y =? 4); reflexivity.
Qed.

End StrategyMore.

(** ** Errors and results of the engine *)

Module EngineFacts.

Import Examples MoreExamples PyFacts StrategyMore.
Open Scope string_scope.
Open Scope Z_scope.

(** *** What the loops let out *)

Lemma try_except_any_ret :
  forall (A : Type) (m : M A) (c : A) w,
    exists a w', try_except m any_Exception (fun _ => ret c) w = (Ok a, w').
Proof.
  intros A m c w. unfold try_except, any_Exception, ret.
  destruct (m w) as [[a|e] w1]; eauto.
Qed.





Lemma reallocate_loop_never_raises :
  forall n context kw filters w,
    exists l w', reallocate_loop n context kw filters w = (Ok l, w').
Proof.
  induction n as [|n IH]; intros context kw filters w.
  - cbn. unfold ret. eauto.
  - cbn [reallocate_loop]. unfold bind, reallocate_attempt.
    match goal with
    | |- context [try_except ?m any_Exception ?h w] =>
        destruct (try_except_any_ret _ m Continue w) as [c [w1 E]]
    end.
    rewrite E. destruct c as [| |a]; [apply IH | | ]; unfold ret; eauto.
Qed.

Lemma segment_query :
  forall now context net_id c s,
    _model_query now (elevated context) MSubnet
      (_listify [("network_id", PScalar (SId net_id));
                 ("segment_id", PScalar (SStr (String c s)))])
    = Ok [F_in "network_id" [SId net_id];
          F_in "segment_id" [SStr (String c s)]].
Proof. reflexivity. Qed.


(** [attempt_to_reallocate_ip] raises only while it looks up the subnets
    of a segment: no subnet ids were given, a segment was, and the exception
    is [IpAddressGenerationFailure] (the segment has no subnet on the
    network) or a failure of the query; the tables are as before.  The retry
    loop itself lets nothing out. *)
Theorem attempt_to_reallocate_ip_raises :
  forall conf context net_id port_id reuse_after version ip_address segment
         subnets kw w e w',
    attempt_to_reallocate_ip conf context net_id port_id reuse_after version
                             ip_address segment subnets kw w = (Raise e, w') ->
    subnets = []
    /\ (exists seg, segment = Some seg /\ seg <> EmptyString)
    /\ (e = IpAddressGenerationFailure \/ e = DBError)
    /\ db w' = db w.
Proof.
  intros conf context net_id port_id reuse_after version ip_address segment
         subnets kw w e w' H.
  destruct (ReallocateFacts.attempt_to_reallocate_ip_cases conf context net_id
              port_id reuse_after version ip_address segment subnets kw)
    as [E|E]; rewrite E in H.
  { unfold ret in H. discriminate. }
  unfold bind in H.
  destruct (reallocate_sub_ids context net_id segment subnets w)
    as [[ids|e0] w1] eqn:Es.
  { destruct (reallocate_loop_never_raises (ip_address_retry_max conf) context kw
                (ip_kwargs net_id reuse_after (version_or_both version)
                           ip_address ids) w1) as [l [w2 El]].
    rewrite El in H. discriminate. }
  injection H as <- <-.
  unfold reallocate_sub_ids in Es.
  destruct subnets as [|i t]; [|unfold ret in Es; discriminate].
  destruct segment as [seg|]; [|unfold ret in Es; discriminate].
  destruct seg as [|c s]; [unfold ret in Es; discriminate|].
  cbn [String.eqb] in Es.
  split; [reflexivity|]. split; [exists (String c s); split; congruence|].
  unfold subnet_find, bind, stmt, now_query, get_db, ret, raise in Es.
  destruct (faults w) as [|[|] t] eqn:Ef.
  - cbn [utcnow db] in Es. rewrite segment_query in Es.
    destruct (map sub_id _) in Es; [|discriminate].
    injection Es as <- <-. auto.
  - injection Es as <- <-. auto.
  - cbn [utcnow db] in Es. rewrite segment_query in Es.
    destruct (map sub_id _) in Es; [|discriminate].
    injection Es as <- <-. auto.
Qed.

(** A segment with no subnet on the network. *)
Lemma attempt_to_reallocate_ip_raises_example :
  exists e w',
    attempt_to_reallocate_ip conf tenant 1 port_a 0 None None (Some "dmz") []
                             no_kwargs world_v4 = (Raise e, w')
    /\ @nil uuid = []
    /\ (exists seg, Some "dmz" = Some seg /\ seg <> EmptyString)
    /\ (e = IpAddressGenerationFailure \/ e = DBError)
    /\ db w' = db world_v4.
Proof.
  eexists. eexists. split; [vm_compute; reflexivity|].
  eapply (attempt_to_reallocate_ip_raises conf tenant 1 port_a 0 None None
           (Some "dmz") [] no_kwargs world_v4 _ _).
  vm_compute. reflexivity.
Defined.

(** *** The shared list only grows *)

Lemma _allocate_ips_from_subnets_appends :
  forall conf subs context new_addresses net_id port_id reuse_after ip_address
         kw w r w',
    _allocate_ips_from_subnets conf context new_addresses net_id subs port_id
                               reuse_after ip_address kw w = (r, w') ->
    exists added oe,
      r = Ok ((new_addresses ++ added)%list, oe)
      /\ (List.length added <= List.length subs)%nat.
Proof.
  intros conf subs.
  induction subs as [|[s|] rest IH];
    intros context new_addresses net_id port_id reuse_after ip_address kw w r w'
           H; cbn [_allocate_ips_from_subnets] in H.
  - unfold ret in H. injection H as <- _. exists [], None.
    rewrite app_nil_r. split; [reflexivity | cbn; lia].
  - unfold bind at 1 in H. unfold try_except in H. unfold bind at 1 in H.
    destruct (allocate_from conf context net_id s port_id reuse_after
                            ip_address kw w) as [[a|e] w1].
    + unfold ret in H. apply IH in H.
      destruct H as [added [oe [-> Hlen]]].
      exists (a :: added), oe. rewrite <- app_assoc. cbn.
      split; [reflexivity | lia].
    + unfold any_Exception, ret in H. injection H as <- _.
      exists [], (Some e). rewrite app_nil_r. split; [reflexivity | cbn; lia].
  - apply IH in H. destruct H as [added [oe [-> Hlen]]].
    exists added, oe. split; [reflexivity | cbn; lia].
Qed.

Lemma _try_allocate_ip_address_appends :
  forall conf retries s context new_addresses net_id port_id reuse_after
         segment version kw ip_addr sub w l w',
    _try_allocate_ip_address conf retries s context new_addresses net_id
      port_id reuse_after segment version kw ip_addr sub w = (Ok l, w') ->
    exists added, l = (new_addresses ++ added)%list.
Proof.
  intros conf retries.
  induction retries as [|n IH];
    intros s context new_addresses net_id port_id reuse_after segment version
           kw ip_addr sub w l w' H; cbn [_try_allocate_ip_address] in H.
  - unfold ret in H. injection H as <- _. exists []. rewrite app_nil_r.
    reflexivity.
  - apply bind_Ok in H. destruct H as [subs [w1 [_ H]]].
    unfold bind at 1 in H.
    destruct (_allocate_ips_from_subnets conf context new_addresses net_id subs
                port_id reuse_after ip_addr kw w1) as [r w2] eqn:E.
    apply _allocate_ips_from_subnets_appends in E.
    destruct E as [added [oe [-> _]]].
    destruct oe as [e|].
    + destruct (is_IPAddressRetryableFailure e); [|unfold raise in H; discriminate].
      apply IH in H. destruct H as [added' ->].
      exists (added ++ added')%list. rewrite app_assoc. reflexivity.
    + unfold ret in H. injection H as <- _. exists added. reflexivity.
Qed.

Lemma attempt_appends :
  forall (m : M (list IPAddressRow)) (k : list IPAddressRow -> M (list IPAddressRow))
         new_addresses,
    (forall l1 w l w', k (new_addresses ++ l1)%list w = (Ok l, w') ->
                       exists added, l = ((new_addresses ++ l1) ++ added)%list) ->
    forall w l w',
      bind m (fun l1 => k (new_addresses ++ l1)%list) w = (Ok l, w') ->
      exists added, l = (new_addresses ++ added)%list.
Proof.
  intros m k new_addresses Hk w l w' H.
  apply bind_Ok in H. destruct H as [l1 [w1 [_ H]]].
  apply Hk in H. destruct H as [added ->].
  exists (l1 ++ added)%list. rewrite app_assoc. reflexivity.
Qed.

Lemma reallocate_each_appends :
  forall conf s ips context new_addresses net_id port_id reuse_after segment
         subs kw w l w',
    reallocate_each conf s context new_addresses net_id port_id reuse_after
                    segment subs kw ips w = (Ok l, w') ->
    exists added, l = (new_addresses ++ added)%list.
Proof.
  intros conf s ips.
  induction ips as [|ip t IH];
    intros context new_addresses net_id port_id reuse_after segment subs kw
           w l w' H; cbn [reallocate_each] in H.
  - unfold ret in H. injection H as <- _. exists []. rewrite app_nil_r.
    reflexivity.
  - apply bind_Ok in H. destruct H as [l1 [w1 [_ H]]].
    apply IH in H. destruct H as [added ->].
    exists (l1 ++ added)%list. rewrite app_assoc. reflexivity.
Qed.

Lemma allocate_each_appends :
  forall conf s pairs context new_addresses net_id port_id reuse_after segment
         version kw w l w',
    allocate_each conf s context new_addresses net_id port_id reuse_after
                  segment version kw pairs w = (Ok l, w') ->
    exists added, l = (new_addresses ++ added)%list.
Proof.
  intros conf s pairs.
  induction pairs as [|[ip sub] t IH];
    intros context new_addresses net_id port_id reuse_after segment version kw
           w l w' H; cbn [allocate_each] in H.
  - unfold ret in H. injection H as <- _. exists []. rewrite app_nil_r.
    reflexivity.
  - apply bind_Ok in H. destruct H as [l1 [w1 [H1 H]]].
    apply _try_allocate_ip_address_appends in H1. destruct H1 as [a1 ->].
    apply IH in H. destruct H as [added ->].
    exists (a1 ++ added)%list. rewrite app_assoc. reflexivity.
Qed.

(** [allocate_ip_address] only appends to the list the caller hands in:
    what was in it stays, in place, whatever the strategy. *)
Theorem allocate_ip_address_appends :
  forall conf s context new_addresses net_id port_id reuse_after segment
         version ip_addresses subnets kw w l w',
    allocate_ip_address conf s context new_addresses net_id port_id reuse_after
                        segment version ip_addresses subnets kw w = (Ok l, w') ->
    exists added, l = (new_addresses ++ added)%list.
Proof.
  intros conf s context new_addresses net_id port_id reuse_after segment
         version ip_addresses subnets kw w l w' H.
  unfold allocate_ip_address in H.
  apply bind_Ok in H. destruct H as [l1 [w1 [H1 H]]].
  assert (P1 : exists added, l1 = (new_addresses ++ added)%list).
  { unfold reallocate_phase in H1. destruct ip_addresses as [|ip0 t].
    - apply bind_Ok in H1. destruct H1 as [l0 [w0 [_ H1]]].
      unfold ret in H1. injection H1 as <- _. eauto.
    - eapply reallocate_each_appends. exact H1. }
  destruct P1 as [a1 ->].
  apply bind_Ok in H. destruct H as [sat [w2 [_ H]]].
  destruct sat.
  - unfold ret in H. injection H as <- _. eauto.
  - apply bind_Ok in H. destruct H as [l2 [w3 [H2 H]]].
    assert (P2 : exists added, l2 = ((new_addresses ++ a1) ++ added)%list).
    { unfold create_phase in H2.
      destruct ip_addresses as [|ip0 t]; [destruct subnets as [|s0 t0]|].
      - eapply _try_allocate_ip_address_appends. exact H2.
      - eapply allocate_each_appends. exact H2.
      - eapply allocate_each_appends. exact H2. }
    destruct P2 as [a2 ->].
    apply bind_Ok in H. destruct H as [sat2 [w4 [_ H]]].
    destruct sat2; [|unfold raise in H; discriminate].
    apply bind_Ok in H. destruct H as [u [w5 [_ H]]].
    unfold ret in H. injection H as <- _.
    exists (a1 ++ a2)%list. rewrite app_assoc. reflexivity.
Qed.

(** The address reused is put behind the address handed in. *)
Lemma allocate_ip_address_appends_example :
  exists l w',
    allocate_ip_address conf ANY tenant [ip_row_3_used] 1 port_a 0 None None []
                        [] no_kwargs world_reusable_ip = (Ok l, w')
    /\ exists added, l = ([ip_row_3_used] ++ added)%list.
Proof.
  eexists. eexists. split; [vm_compute; reflexivity|].
  eapply (allocate_ip_address_appends conf ANY tenant [ip_row_3_used] 1 port_a 0
           None None [] [] no_kwargs world_reusable_ip _ _).
  vm_compute. reflexivity.
Defined.

(** *** The list a successful call leaves *)

(** Under [ANY] a successful [allocate_ip_address] leaves a list that is
    not empty.  Under [BOTH] it leaves one address of version 4 or 6, or
    two addresses, one of version 4 and one of version 6; a list of three
    or more, or with a version twice, makes the call end in [ValueError]
    instead. *)
Theorem allocate_ip_address_ANY_BOTH_result :
  forall conf context new_addresses net_id port_id reuse_after segment
         version ip_addresses subnets kw w l w',
    (allocate_ip_address conf ANY context new_addresses net_id port_id
       reuse_after segment version ip_addresses subnets kw w = (Ok l, w') ->
     l <> [])
    /\ (allocate_ip_address conf BOTH context new_addresses net_id port_id
          reuse_after segment version ip_addresses subnets kw w = (Ok l, w') ->
        match map Models.version l with
        | [a] => a = 4 \/ a = 6
        | [a; b] => (a = 4 /\ b = 6) \/ (a = 6 /\ b = 4)
        | _ => False
        end).
Proof.
  intros conf context new_addresses net_id port_id reuse_after segment
         version ip_addresses subnets kw w l w'.
  split; intro H;
    apply StrategyFacts.allocate_ip_address_returns_satisfied in H.
  - destruct H as [H|H]; cbn in H; destruct l; congruence.
  - assert (Hb : exists ac, BOTH_is_strategy_satisfied l ac = Ok true)
      by (destruct H as [H|H]; cbn in H; eauto).
    destruct Hb as [ac Hb].
    exact (BOTH_satisfied_shape l ac Hb).
Qed.

(** [ANY] on [10.0.0.0/29]; [BOTH] on the dual-stack network. *)
Lemma allocate_ip_address_ANY_BOTH_result_example :
  (exists l w',
      allocate_ip_address conf ANY tenant [] 1 port_a 0 None None [] []
                          no_kwargs world_v4 = (Ok l, w')
      /\ l <> [])
  /\ (exists l w',
        allocate_ip_address conf BOTH tenant [] 1 port_a 0 None None [] []
                            no_kwargs world_dual = (Ok l, w')
        /\ match map Models.version l with
           | [a] => a = 4 \/ a = 6
           | [a; b] => (a = 4 /\ b = 6) \/ (a = 6 /\ b = 4)
           | _ => False
           end).
Proof.
  split; eexists; eexists; (split; [vm_compute; reflexivity|]).
  - eapply (proj1 (allocate_ip_address_ANY_BOTH_result conf tenant [] 1 port_a 0
                    None None [] [] no_kwargs world_v4 _ _)).
    vm_compute. reflexivity.
  - eapply (proj2 (allocate_ip_address_ANY_BOTH_result conf tenant [] 1 port_a 0
                    None None [] [] no_kwargs world_dual _ _)).
    vm_compute. reflexivity.
Defined.

End EngineFacts.

(** ** Keyword filters and tenant scoping *)

Module StoreFacts.

Import Examples MoreExamples PyFacts.
Open Scope string_scope.
Open Scope Z_scope.

Lemma kw_get_kw_set_same :
  forall k v d, kw_get k (kw_set k v d) = Some v.
Proof.
  intros k v d. induction d as [|[k' v'] t IH]; cbn.
  - rewrite String.eqb_refl. reflexivity.
  - destruct (String.eqb k k') eqn:E; cbn; rewrite ?String.eqb_refl, ?E; auto.
Qed.

Lemma kw_get_kw_set_other :
  forall k k' v d, String.eqb k k' = false ->
                   kw_get k (kw_set k' v d) = kw_get k d.
Proof.
  intros k k' v d Hne. induction d as [|[k0 v0] t IH]; cbn.
  - rewrite Hne. reflexivity.
  - destruct (String.eqb k' k0) eqn:E; cbn.
    + apply String.eqb_eq in E. subst k0. rewrite Hne. reflexivity.
    + destruct (String.eqb k k0); [reflexivity | exact IH].
Qed.

Lemma kw_set_keys :
  forall k v d, kw_get k d <> None -> map fst (kw_set k v d) = map fst d.
Proof.
  intros k v d. induction d as [|[k' v'] t IH]; cbn; intro H.
  - contradiction.
  - destruct (String.eqb k k') eqn:E; cbn.
    + apply String.eqb_eq in E. subst. reflexivity.
    + rewrite IH by exact H. reflexivity.
Qed.

Lemma listified_idem : forall v, listified (listified v) = listified v.
Proof.
  intro v. unfold listified. destruct (truthy v) eqn:E.
  - destruct v as [s|l]; [reflexivity|]. rewrite E. reflexivity.
  - rewrite E. reflexivity.
Qed.

Lemma listify_key_get :
  forall key d k,
    kw_get k (listify_key d key)
    = if String.eqb k key then option_map listified (kw_get k d)
      else kw_get k d.
Proof.
  intros key d k. unfold listify_key.
  destruct (String.eqb k key) eqn:E.
  - apply String.eqb_eq in E. subst key.
    destruct (kw_get k d) as [v|] eqn:G; [|rewrite G; reflexivity].
    cbn [option_map]. unfold listified.
    destruct (truthy v) eqn:T; cbn [negb].
    + destruct v as [s|l]; [apply kw_get_kw_set_same | exact G].
    + exact G.
  - destruct (kw_get key d) as [v|]; [|reflexivity].
    destruct (negb (truthy v)); [reflexivity|].
    destruct v as [s|l]; [|reflexivity].
    apply kw_get_kw_set_other. exact E.
Qed.

Lemma listify_key_keys :
  forall key d, map fst (listify_key d key) = map fst d.
Proof.
  intros key d. unfold listify_key.
  destruct (kw_get key d) as [v|] eqn:G; [|reflexivity].
  destruct (negb (truthy v)); [reflexivity|].
  destruct v as [s|l]; [|reflexivity].
  apply kw_set_keys. rewrite G. discriminate.
Qed.

Lemma fold_listify_get :
  forall keys d k,
    kw_get k (fold_left listify_key keys d)
    = if mem_str k keys then option_map listified (kw_get k d)
      else kw_get k d.
Proof.
  induction keys as [|key t IH]; intros d k; cbn [fold_left mem_str existsb].
  - reflexivity.
  - rewrite IH, listify_key_get. fold (mem_str k t).
    destruct (String.eqb k key); cbn [orb].
    + destruct (mem_str k t); [|reflexivity].
      destruct (kw_get k d) as [v|]; [|reflexivity].
      cbn. rewrite listified_idem. reflexivity.
    + reflexivity.
Qed.

Lemma fold_listify_keys :
  forall keys d, map fst (fold_left listify_key keys d) = map fst d.
Proof.
  induction keys as [|key t IH]; intro d; cbn [fold_left].
  - reflexivity.
  - rewrite IH. apply listify_key_keys.
Qed.

Lemma _listify_get :
  forall filters k,
    kw_get k (_listify filters)
    = if mem_str k listified_keys
      then option_map listified (kw_get k filters)
      else kw_get k filters.
Proof.
  intros filters k. exact (fold_listify_get listified_keys filters k).
Qed.

(** [_listify] keeps the keys of the dictionary and their order.  Under one
    of the keys it knows, a truthy value that is not a list becomes a
    one-element list; lists, falsy values ([None], [0], the empty string, the
    address [0.0.0.0]) and the values of all other keys are left as they
    are. *)
Theorem _listify_lookup :
  forall filters k,
    map fst (_listify filters) = map fst filters
    /\ kw_get k (_listify filters)
       = if mem_str k listified_keys
         then option_map listified (kw_get k filters)
         else kw_get k filters.
Proof.
  intros filters k. split.
  - exact (fold_listify_keys listified_keys filters).
  - exact (_listify_get filters k).
Qed.

Lemma kw_get_filter :
  forall (p : string -> bool) k d,
    kw_get k (filter (fun kv => p (fst kv)) d)
    = if p k then kw_get k d else None.
Proof.
  intros p k d. induction d as [|[k' v'] t IH]; cbn.
  - destruct (p k); reflexivity.
  - destruct (p k') eqn:Ep; cbn.
    + destruct (String.eqb k k') eqn:E; [|exact IH].
      apply String.eqb_eq in E. subst. rewrite Ep. reflexivity.
    + rewrite IH. destruct (String.eqb k k') eqn:E; [|reflexivity].
      apply String.eqb_eq in E. subst. rewrite Ep. reflexivity.
Qed.

Lemma kw_set_In : forall k v d, In (k, v) (kw_set k v d).
Proof.
  intros k v d. induction d as [|[k' v'] t IH]; cbn.
  - auto.
  - destruct (String.eqb k k'); cbn; auto.
Qed.

Lemma filters_of_entries_In :
  forall now m d fs k v f,
    filters_of_entries now m d = Ok fs ->
    In (k, v) d ->
    filter_of_entry now m k v = Ok (Some f) ->
    In f fs.
Proof.
  intros now m d. induction d as [|[k' v'] t IH]; intros fs k v f H Hin Hf.
  - destruct Hin.
  - cbn [filters_of_entries] in H.
    destruct (filter_of_entry now m k' v') as [o|e] eqn:E; [|discriminate].
    destruct (filters_of_entries now m t) as [fs'|e]; [|discriminate].
    injection H as <-. destruct Hin as [Heq|Hin].
    + injection Heq as -> ->. rewrite Hf in E. injection E as <-. left.
      reflexivity.
    + specialize (IH fs' k v f eq_refl Hin Hf).
      destruct o; [right|]; exact IH.
Qed.

(** [_model_query] with its sanitising predicate named. *)
Lemma _model_query_eq :
  forall now context m filters,
    _model_query now context m filters
    = filters_of_entries now m
        (if negb match kw_get "tenant_id"
                         (filter (fun kv => kept_key m (fst kv)) filters) with
                 | Some v => truthy v
                 | None => false
                 end
            && negb (is_admin context)
         then kw_set "tenant_id" (PList [SStr (tenant_id context)])
                (filter (fun kv => kept_key m (fst kv)) filters)
         else filter (fun kv => kept_key m (fst kv)) filters).
Proof. reflexivity. Qed.

Lemma tenant_entry :
  forall now m t,
    filter_of_entry now m "tenant_id" (PList [SStr t])
    = Ok (Some (F_in (if model_eqb m MIPAddress then "used_by_tenant_id"
                      else "tenant_id") [SStr t])).
Proof. intros now m t. destruct m; reflexivity. Qed.

Lemma _model_query_tenant_entry :
  forall now context m d fs,
    is_admin context = false ->
    no_tenant_filter d ->
    _model_query now context m d = Ok fs ->
    In (F_in (if model_eqb m MIPAddress then "used_by_tenant_id"
              else "tenant_id") [SStr (tenant_id context)]) fs.
Proof.
  intros now context m d fs Hadmin Hno H.
  rewrite _model_query_eq, Hadmin in H.
  rewrite (kw_get_filter (kept_key m)) in H.
  unfold no_tenant_filter in Hno.
  assert (Hfalse :
            match (if kept_key m "tenant_id" then kw_get "tenant_id" d
                   else None) with
            | Some v => truthy v
            | None => false
            end = false).
  { destruct (kept_key m "tenant_id"); [|reflexivity].
    destruct (kw_get "tenant_id" d) as [v|]; [exact Hno | reflexivity]. }
  rewrite Hfalse in H. cbn [negb andb] in H.
  eapply filters_of_entries_In; [exact H | apply kw_set_In | apply tenant_entry].
Qed.

Lemma no_tenant_filter_listify :
  forall filters, no_tenant_filter filters -> no_tenant_filter (_listify filters).
Proof.
  intros filters Hno. unfold no_tenant_filter in *.
  rewrite (_listify_get filters "tenant_id").
  assert (Hmem : mem_str "tenant_id" listified_keys = true) by reflexivity.
  rewrite Hmem.
  destruct (kw_get "tenant_id" filters) as [v|]; [|exact I].
  cbn [option_map]. unfold listified. rewrite Hno. exact Hno.
Qed.

(** For a caller that is not admin and names no tenant, [_model_query] adds
    the condition that the tenant of the row is the caller's: on
    [used_by_tenant_id] for IP addresses, on [tenant_id] for the other
    models. *)
Lemma _model_query_tenant :
  forall now context m filters fs,
    is_admin context = false ->
    no_tenant_filter filters ->
    _model_query now context m (_listify filters) = Ok fs ->
    In (F_in (if model_eqb m MIPAddress then "used_by_tenant_id"
              else "tenant_id") [SStr (tenant_id context)]) fs.
Proof.
  intros now context m filters fs Hadmin Hno H.
  exact (_model_query_tenant_entry now context m (_listify filters) fs Hadmin
           (no_tenant_filter_listify filters Hno) H).
Qed.

(** A caller that is not admin and names no tenant gets from
    [ip_address_find] only a row used by its own tenant (the filters name
    no port, so that [ip_address_find] adds no condition of its own). *)
Theorem ip_address_find_tenant_scoped :
  forall context filters w row w',
    is_admin context = false ->
    no_tenant_filter filters ->
    no_port_filter filters ->
    ip_address_find_one context filters w = (Ok (Some row), w') ->
    used_by_tenant_id row = tenant_id context.
Proof.
  intros context filters w row w' Hadmin Hno _ H.
  apply ReallocateFacts.ip_address_find_one_Ok in H.
  destruct H as [_ [fs [Hfs Ho]]].
  symmetry in Ho. unfold first in Ho. apply find_some in Ho.
  destruct Ho as [_ Hm].
  pose proof (ReallocateFacts.matches_In _ _ _ _ _ _ _ Hm
                (_model_query_tenant _ _ _ _ _ Hadmin Hno Hfs)) as Ht.
  cbn [model_eqb eval_filter existsb] in Ht. rewrite orb_false_r in Ht.
  change (ip_col "used_by_tenant_id" row) with (SStr (used_by_tenant_id row)) in Ht.
  cbn [scalar_eqb] in Ht. apply String.eqb_eq in Ht. exact Ht.
Qed.

(** The tenant of [world_reusable_ip] looks for any address. *)
Lemma ip_address_find_tenant_scoped_example :
  exists row w',
    is_admin tenant = false
    /\ no_tenant_filter []
    /\ no_port_filter []
    /\ ip_address_find_one tenant [] world_reusable_ip = (Ok (Some row), w')
    /\ used_by_tenant_id row = tenant_id tenant.
Proof.
  eexists. eexists. split; [reflexivity|]. split; [exact I|].
  split; [exact (fun _ _ => I)|].
  split; [vm_compute; reflexivity|].
  eapply (ip_address_find_tenant_scoped tenant [] world_reusable_ip _ _
           eq_refl I (fun _ _ => I)).
  vm_compute. reflexivity.
Defined.

End StoreFacts.

(** ** Discarded rows, MAC ranges, subnets for an address asked for *)

Module SelectFacts.

Import Examples MoreExamples PyFacts.
Open Scope string_scope.
Open Scope Z_scope.

(** When [ip_address_reallocate_find] finds the claimed row and answers
    nothing, either the row and the tables are left as they are (the row has
    no subnet, or its subnet is [do_not_use]), or the subnet is usable, the
    address lies in the policy or outside the CIDR of the subnet, and the
    row is deleted. *)
Theorem ip_address_reallocate_find_discards :
  forall context T w row w1 w',
    ip_address_find_one context [("transaction_id", PScalar (SId T))] w
    = (Ok (Some row), w1) ->
    ip_address_reallocate_find context T w = (Ok None, w') ->
    (db w' = db w
     /\ (subnet_of (db w) row = None
         \/ exists s, subnet_of (db w) row = Some s /\ do_not_use s = true))
    \/ (exists s addr,
          subnet_of (db w) row = Some s
          /\ do_not_use s = false
          /\ row_addr s row = Ok addr
          /\ (address_in_policy s row = true
              \/ net_contains (cidr s) addr = false)
          /\ subnets (db w') = subnets (db w)
          /\ ip_addresses (db w')
             = filter (fun r => negb (ip_id r =? ip_id row))
                      (ip_addresses (db w))).
Proof.
  intros context T w row w1 w' Hf H.
  pose proof (ReallocateFacts.ip_address_find_one_Ok _ _ _ _ _ Hf) as [Hdb _].
  unfold ip_address_reallocate_find in H. unfold bind at 1 in H.
  rewrite Hf in H. unfold bind at 1 in H. unfold get_db in H.
  rewrite Hdb in H.
  destruct (subnet_of (db w) row) as [s|] eqn:Hs.
  2:{ unfold ret in H. injection H as <-. left. rewrite Hdb. auto. }
  destruct (do_not_use s) eqn:Hd.
  { unfold ret in H. injection H as <-. left. rewrite Hdb. eauto. }
  unfold bind at 1 in H. unfold lift in H.
  destruct (row_addr s row) as [addr|e] eqn:Ha; [|discriminate].
  right. exists s, addr.
  assert (Hdel :
            forall w2,
              db w2 = db w ->
              (ip_address_delete row ;;; ret (@None IPAddressRow)) w2
              = (Ok None, w') ->
              subnets (db w') = subnets (db w)
              /\ ip_addresses (db w')
                 = filter (fun r => negb (ip_id r =? ip_id row))
                          (ip_addresses (db w))).
  { intros w2 E Hx. unfold bind, ip_address_delete, modify_db, ret in Hx.
    injection Hx as <-. cbn. rewrite E. auto. }
  unfold address_in_policy. rewrite Ha.
  destruct (get_ip_policy_cidrs s) as [p|].
  - destruct (ipset_contains p addr) eqn:Hp.
    + destruct (Hdel w1 Hdb H). auto 10.
    + destruct (net_contains (cidr s) addr) eqn:Hn; cbn [negb] in H.
      * unfold ret in H. discriminate.
      * destruct (Hdel w1 Hdb H). auto 10.
  - destruct (net_contains (cidr s) addr) eqn:Hn; cbn [negb] in H.
    + unfold ret in H. discriminate.
    + destruct (Hdel w1 Hdb H). auto 10.
Qed.

(** [10.0.0.7] lies in the policy of its subnet: the claimed row is
    deleted. *)
Lemma ip_address_reallocate_find_discards_example :
  exists w1 w',
    ip_address_find_one tenant [("transaction_id", PScalar (SId 4999))]
                        world_claimed_in_policy
    = (Ok (Some ip_row_7_claimed), w1)
    /\ ip_address_reallocate_find tenant 4999 world_claimed_in_policy
       = (Ok None, w')
    /\ ip_addresses (db w') = [].
Proof.
  eexists. eexists. split; [vm_compute; reflexivity|].
  split; [vm_compute; reflexivity|].
  destruct (ip_address_reallocate_find_discards tenant 4999
              world_claimed_in_policy ip_row_7_claimed _ _ eq_refl eq_refl)
    as [[_ [Hs | [s [Hs Hd]]]] | [s [addr [_ [_ [_ [_ [_ Hrows]]]]]]]].
  - vm_compute in Hs. discriminate.
  - vm_compute in Hs. injection Hs as <-. vm_compute in Hd. discriminate.
  - exact Hrows.
Defined.

Lemma update_ranges_moved :
  forall rid f l,
    (forall c, f c = c + 1 \/ f c = -1) ->
    Forall2 range_moved l (update_ranges rid f l).
Proof.
  intros rid f l Hf. induction l as [|r t IH]; cbn [update_ranges map].
  - constructor.
  - constructor; [|exact IH].
    unfold range_moved.
    destruct ((range_id r =? rid) && negb (next_auto_assign_mac r =? -1))
      eqn:E; cbn.
    + apply andb_true_iff in E. destruct E as [_ E].
      apply negb_true_iff in E. apply Z.eqb_neq in E.
      repeat split; auto; try contradiction.
    + repeat split; auto.
Qed.

Lemma range_moved_refl : forall l, Forall2 range_moved l l.
Proof.
  induction l as [|r t IH]; constructor; [|exact IH].
  unfold range_moved. repeat split; auto.
Qed.

(** [mac_range_update_next_auto_assign_mac] and [mac_range_update_set_full]
    keep every MAC range in its place and change at most cursors: a range
    that is full ([-1]) is never opened again, and the cursor of any other
    range stays, moves on by one, or becomes [-1]. *)
Theorem mac_range_updates_move_cursors :
  forall context rng w,
    Forall2 range_moved (mac_address_ranges (db w))
      (mac_address_ranges
         (db (snd (mac_range_update_next_auto_assign_mac context rng w))))
    /\ Forall2 range_moved (mac_address_ranges (db w))
         (mac_address_ranges
            (db (snd (mac_range_update_set_full context rng w)))).
Proof.
  intros context rng w. split.
  - unfold mac_range_update_next_auto_assign_mac, bind, stmt, modify_db.
    destruct (faults w) as [|[|] t]; cbn;
      try apply range_moved_refl; apply update_ranges_moved; auto.
  - unfold mac_range_update_set_full, bind, stmt, modify_db.
    destruct (faults w) as [|[|] t]; cbn;
      try apply range_moved_refl; apply update_ranges_moved; auto.
Qed.

(** The loop of [select_subnet] for an address that was asked for. *)
Lemma select_loop_explicit :
  forall rows context a subnet_ids w s w',
    ip_truthy a = true ->
    select_loop rows context (Some a) subnet_ids w = (Ok (Some s), w') ->
    exists n r,
      In (s, n) rows
      /\ requested_ip (cidr s) a = Ok r
      /\ net_contains (cidr s) r = true.
Proof.
  induction rows as [|[x k] rest IH]; intros context a subnet_ids w s w' Ha H.
  - cbn in H. unfold ret in H. discriminate.
  - cbn [select_loop] in H. rewrite Ha in H.
    apply bind_Ok in H. destruct H as [skip [w1 [Hskip H]]].
    apply bind_Ok in Hskip. destruct Hskip as [r [w2 [Hr Hskip]]].
    assert (Hreq : requested_ip (cidr x) a = Ok r).
    { unfold requested_ip.
      destruct ((net_ver (cidr x) =? 4) && negb (ip_ver a =? 4)).
      - unfold lift in Hr. injection Hr as -> _. reflexivity.
      - unfold ret in Hr. injection Hr as -> _. reflexivity. }
    destruct (net_contains (cidr x) r) eqn:Hc; cbn [negb] in Hskip.
    + unfold ret in Hskip. injection Hskip as <- <-.
      assert (Hsup : supplied (Some a) = true) by exact Ha.
      rewrite Hsup in H. cbn [negb andb] in H.
      match type of H with
      | (if ?b then _ else _) _ = _ => destruct b
      end.
      * unfold ret in H. injection H as <- _.
        exists k, r. split; [left; reflexivity | auto].
      * apply bind_Ok in H. destruct H as [u [w3 [_ H]]].
        destruct (IH _ _ _ _ _ _ Ha H) as [n [r' [Hin Hrest]]].
        exists n, r'. split; [right; exact Hin | exact Hrest].
    + destruct subnet_ids; [unfold raise in Hskip; discriminate|].
      unfold ret in Hskip. injection Hskip as <- <-.
      destruct (IH _ _ _ _ _ _ Ha H) as [n [r' [Hin Hrest]]].
      exists n, r'. split; [right; exact Hin | exact Hrest].
Qed.

Lemma raises_only_ret :
  forall (A : Type) (P : exn -> Prop) (a : A), raises_only P (ret a).
Proof. intros A P a w e w' H. discriminate. Qed.

Lemma raises_only_raise :
  forall (A : Type) (P : exn -> Prop) e, P e -> raises_only P (@raise A e).
Proof. intros A P e He w e' w' H. injection H as <- _. exact He. Qed.

Lemma raises_only_bind :
  forall (A B : Type) (P : exn -> Prop) (m : M A) (k : A -> M B),
    raises_only P m -> (forall a, raises_only P (k a)) ->
    raises_only P (bind m k).
Proof.
  intros A B P m k Hm Hk w e w' H. unfold bind in H.
  destruct (m w) as [[a|e1] w1] eqn:E.
  - exact (Hk a _ _ _ H).
  - injection H as <- _. exact (Hm _ _ _ E).
Qed.

Lemma raises_only_stmt :
  forall P : exn -> Prop, P DBError -> raises_only P stmt.
Proof.
  intros P HP w e w' H. unfold stmt in H.
  destruct (faults w) as [|[|] t]; try discriminate.
  injection H as <- _. exact HP.
Qed.

Lemma raises_only_get_db : forall P : exn -> Prop, raises_only P get_db.
Proof. intros P w e w' H. discriminate. Qed.

Lemma raises_only_modify_db :
  forall (P : exn -> Prop) f, raises_only P (modify_db f).
Proof. intros P f w e w' H. discriminate. Qed.

Lemma raises_only_ipv4 :
  forall (P : exn -> Prop) a,
    P AddrConversionError -> raises_only P (lift (ipv4 a)).
Proof.
  intros P a HP w e w' H. unfold lift, ipv4 in H.
  repeat match type of H with
         | context [if ?b then _ else _] => destruct b
         end; try discriminate.
  injection H as <- _. exact HP.
Qed.

Ltac raises_step :=
  match goal with
  | |- raises_only _ (bind _ _) => apply raises_only_bind; [|intro]
  | |- raises_only _ (ret _) => apply raises_only_ret
  | |- raises_only _ (raise _) => apply raises_only_raise
  | |- raises_only _ stmt => apply raises_only_stmt
  | |- raises_only _ get_db => apply raises_only_get_db
  | |- raises_only _ (modify_db _) => apply raises_only_modify_db
  | |- raises_only _ (lift (ipv4 _)) => apply raises_only_ipv4
  | |- raises_only _ (match ?x with _ => _ end) => destruct x
  | |- raises_only _ (let '(_, _) := ?x in _) => destruct x
  end.

(** Without pinned subnet ids, or without an address asked for, the loop of
    [select_subnet] does not raise [IPAddressNotInSubnet]. *)
Lemma select_loop_in_subnet :
  forall rows context ip subnet_ids,
    supplied ip = false \/ subnet_ids = None ->
    raises_only (fun e => e <> IPAddressNotInSubnet)
                (select_loop rows context ip subnet_ids).
Proof.
  induction rows as [|[x k] rest IH]; intros context ip subnet_ids Hc;
    cbn [select_loop].
  - apply raises_only_ret.
  - apply raises_only_bind.
    + destruct ip as [a|]; [|apply raises_only_ret].
      destruct (ip_truthy a) eqn:Ha; [|apply raises_only_ret].
      destruct Hc as [Hc | ->]; [cbn in Hc; congruence|].
      repeat raises_step; discriminate.
    + intros [|]; [apply IH; exact Hc|].
      unfold subnet_update_set_full, subnet_update_next_auto_assign_ip,
        refresh_subnet.
      repeat raises_step; try discriminate.
      apply IH; exact Hc.
Qed.

(** [select_subnet] with an address asked for: the subnet it returns is a
    stored subnet of the network that passes the filters of the query, and
    its CIDR holds the address (seen as a v4 address for a v4 subnet). When
    it raises, the tables are as before the call, and
    [IPAddressNotInSubnet] is raised only when subnet ids were pinned. *)
Theorem select_subnet_explicit_ip :
  forall context net_id a segment subnet_ids ip_ver w r w',
    ip_truthy a = true ->
    select_subnet context net_id (Some a) segment subnet_ids ip_ver w
    = (r, w') ->
    match r with
    | Ok (Some s) =>
        In s (subnets (db w))
        /\ most_full_candidate net_id segment subnet_ids ip_ver s = true
        /\ exists q,
             requested_ip (cidr s) a = Ok q
             /\ net_contains (cidr s) q = true
    | Ok None => True
    | Raise e =>
        db w' = db w /\ (e = IPAddressNotInSubnet -> subnet_ids <> None)
    end.
Proof.
  intros context net_id a segment subnet_ids ip_ver w r w' Ha H.
  destruct r as [[s|]|e]; [| exact I |].
  - apply PolicyFacts.with_begin_Ok in H.
    apply bind_Ok in H. destruct H as [rows [w1 [Hq H]]].
    unfold subnet_find_ordered_by_most_full in Hq.
    apply bind_Ok in Hq. destruct Hq as [u [w2 [Hs Hq]]].
    apply stmt_Ok in Hs. destruct Hs as [Hdb _].
    unfold bind, get_db, ret in Hq. injection Hq as <- <-.
    destruct (select_loop_explicit _ _ _ _ _ _ _ Ha H) as [n [q [Hin Hq]]].
    rewrite Hdb in Hin. unfold most_full_rows in Hin.
    apply (Permutation_in _ (Permutation_sym (OrderFacts.order_by_perm _)))
      in Hin.
    apply in_map_iff in Hin. destruct Hin as [s' [E Hin]].
    injection E as -> _. apply filter_In in Hin.
    destruct Hin as [Hin Hc]. split; [exact Hin|]. split; [exact Hc|].
    exists q. exact Hq.
  - unfold select_subnet, with_begin in H.
    match type of H with
    | match ?m w with _ => _ end = _ => destruct (m w) as [[x|e1] w1] eqn:E
    end; [discriminate|].
    injection H as -> <-. split; [reflexivity|].
    intros -> ->.
    revert E. unfold subnet_find_ordered_by_most_full.
    intro E.
    assert (R : raises_only (fun e => e <> IPAddressNotInSubnet)
                  (subnets <- (stmt;;; (d <- get_db;;
                      ret (most_full_rows d net_id segment None ip_ver)));;
                   select_loop subnets context (Some a) None)).
    { apply raises_only_bind.
      - repeat raises_step. discriminate.
      - intro rows. apply select_loop_in_subnet. right. reflexivity. }
    exact (R _ _ _ E eq_refl).
Qed.

(** [10.0.0.3] asked for on the network of [10.0.0.0/29]. *)
Lemma select_subnet_explicit_ip_example :
  exists w',
    ip_truthy ip_10_0_0_3 = true
    /\ select_subnet tenant 1 (Some ip_10_0_0_3) None None None world_v4
       = (Ok (Some subnet_29), w')
    /\ In subnet_29 (subnets (db world_v4))
    /\ most_full_candidate 1 None None None subnet_29 = true
    /\ exists q,
         requested_ip (cidr subnet_29) ip_10_0_0_3 = Ok q
         /\ net_contains (cidr subnet_29) q = true.
Proof.
  eexists. split; [reflexivity|]. split; [vm_compute; reflexivity|].
  eapply (select_subnet_explicit_ip tenant 1 ip_10_0_0_3 None None None world_v4
           (Ok (Some subnet_29)) _ eq_refl).
  vm_compute. reflexivity.
Defined.

End SelectFacts.

(** ** Which address the reuse phase hands out *)

Module ReuseFacts.

Import Examples MoreExamples PyFacts.
Open Scope string_scope.
Open Scope Z_scope.

Ltac wsimpl :=
  cbn [db utcnow next_uuid faults ip_addresses subnets with_db
       set_ip_addresses].

Ltac wsimpl_in H :=
  cbn [db utcnow next_uuid faults ip_addresses subnets with_db
       set_ip_addresses] in H.

Lemma transaction_create_cases :
  forall context w r w',
    with_begin (transaction_create context) w = (r, w') ->
    db w' = db w /\ utcnow w' = utcnow w
    /\ ((r = Ok (next_uuid w) /\ next_uuid w' = next_uuid w + 1)
        \/ (exists e, r = Raise e) /\ next_uuid w' = next_uuid w).
Proof.
  intros context w r w' H.
  unfold with_begin, transaction_create, bind, stmt, fresh_uuid in H.
  destruct (faults w) as [|[|] t]; cbn in H; injection H as <- <-; cbn;
    eauto 10.
Qed.

Lemma claim_statement_cases :
  forall context upd d w r w',
    (stmt ;;;
     fs <- now_query context MIPAddress d ;;
     t <- get_db ;;
     let '(row_count, rows) :=
       update_limit_1 ip_col _deallocated deallocated_at fs upd
                      (ip_addresses t) in
     modify_db (set_ip_addresses rows) ;;;
     ret (row_count =? 1)) w = (r, w') ->
    utcnow w' = utcnow w /\ next_uuid w' = next_uuid w
    /\ ((r <> Ok true /\ ip_addresses (db w') = ip_addresses (db w))
        \/ exists fs pre row post,
             r = Ok true
             /\ _model_query (utcnow w) context MIPAddress d = Ok fs
             /\ ip_addresses (db w) = (pre ++ row :: post)%list
             /\ ip_addresses (db w') = (pre ++ upd row :: post)%list
             /\ matches ip_col _deallocated deallocated_at fs row = true).
Proof.
  intros context upd d w r w' H.
  unfold bind at 1 in H.
  destruct (stmt w) as [[u|e] w1] eqn:Es.
  2:{ injection H as <- <-. unfold stmt in Es.
      destruct (faults w) as [|[|] t]; try discriminate.
      injection Es as _ <-. wsimpl. split; [reflexivity|].
      split; [reflexivity|].
      left. split; [discriminate | reflexivity]. }
  assert (Hw : db w1 = db w /\ utcnow w1 = utcnow w
               /\ next_uuid w1 = next_uuid w).
  { unfold stmt in Es. destruct (faults w) as [|[|] t]; try discriminate;
      injection Es as _ <-; wsimpl; auto. }
  destruct Hw as [Hdb [Hnow Hid]].
  unfold bind at 1 in H. unfold now_query in H. rewrite Hnow in H.
  destruct (_model_query (utcnow w) context MIPAddress d) as [fs|e] eqn:Hfs.
  2:{ injection H as <- <-. rewrite Hdb. split; [exact Hnow|].
      split; [exact Hid|]. left. split; [discriminate | reflexivity]. }
  unfold bind at 1 in H. unfold get_db in H. rewrite Hdb in H.
  destruct (update_limit_1 ip_col _deallocated deallocated_at fs upd
              (ip_addresses (db w))) as [n rows] eqn:Hu.
  unfold bind, modify_db, ret in H. injection H as <- <-. wsimpl.
  split; [exact Hnow|]. split; [exact Hid|].
  apply ClaimFacts.update_limit_1_spec in Hu.
  destruct Hu as [[-> [-> _]] | [-> [pre [row [post [E1 [E2 [Hm _]]]]]]]].
  - left. split; [discriminate | reflexivity].
  - right. exists fs, pre, row, post. auto.
Qed.

Lemma ip_address_reallocate_cases :
  forall context upd filters w r w',
    ip_address_reallocate context upd filters w = (r, w') ->
    utcnow w' = utcnow w /\ next_uuid w' = next_uuid w
    /\ ((r <> Ok true /\ ip_addresses (db w') = ip_addresses (db w))
        \/ exists fs pre row post,
             r = Ok true
             /\ _model_query (utcnow w) context MIPAddress (_listify filters)
                = Ok fs
             /\ ip_addresses (db w) = (pre ++ row :: post)%list
             /\ ip_addresses (db w') = (pre ++ upd row :: post)%list
             /\ matches ip_col _deallocated deallocated_at fs row = true).
Proof.
  intros context upd filters w r w' H.
  exact (claim_statement_cases context upd (_listify filters) w r w' H).
Qed.

Lemma find_statement_cases :
  forall context d w (r : res (option IPAddressRow)) w',
    (stmt ;;;
     fs <- now_query context MIPAddress d ;;
     t <- get_db ;;
     ret (first ip_col _deallocated deallocated_at fs (ip_addresses t))) w
    = (r, w') ->
    db w' = db w /\ utcnow w' = utcnow w /\ next_uuid w' = next_uuid w.
Proof.
  intros context d w r w' H.
  unfold bind, stmt, now_query, get_db, ret in H.
  destruct (faults w) as [|[|] t]; wsimpl_in H.
  - destruct (_model_query _ _ _ _); injection H as _ <-; auto.
  - injection H as _ <-; auto.
  - destruct (_model_query _ _ _ _); injection H as _ <-; auto.
Qed.

Lemma ip_address_find_one_cases :
  forall context filters w r w',
    ip_address_find_one context filters w = (r, w') ->
    db w' = db w /\ utcnow w' = utcnow w /\ next_uuid w' = next_uuid w.
Proof.
  intros context filters w r w' H.
  exact (find_statement_cases context (_listify filters) w r w' H).
Qed.

Lemma ip_address_reallocate_find_cases :
  forall context T w r w',
    ip_address_reallocate_find context T w = (r, w') ->
    utcnow w' = utcnow w /\ next_uuid w' = next_uuid w
    /\ (forall x, In x (ip_addresses (db w')) -> In x (ip_addresses (db w)))
    /\ forall a, r = Ok (Some a) ->
                 In a (ip_addresses (db w)) /\ transaction_id a = Some T.
Proof.
  intros context T w r w' H.
  assert (Hsome : forall a, r = Ok (Some a) ->
                            In a (ip_addresses (db w'))
                            /\ transaction_id a = Some T).
  { intros a ->.
    destruct (ReallocateFacts.ip_address_reallocate_find_Some _ _ _ _ _ H)
      as [_ [Hin Ht]]. auto. }
  unfold ip_address_reallocate_find in H. unfold bind at 1 in H.
  destruct (ip_address_find_one context
              [("transaction_id", PScalar (SId T))] w) as [[o|e] w1] eqn:Ef;
    destruct (ip_address_find_one_cases _ _ _ _ _ Ef) as [Hdb [Hnow Hid]].
  2:{ injection H as <- <-. rewrite Hdb. repeat split; auto; discriminate. }
  assert (Hsame :
            forall x, (ret x : M (option IPAddressRow)) w1 = (r, w') ->
            utcnow w' = utcnow w /\ next_uuid w' = next_uuid w
            /\ (forall x, In x (ip_addresses (db w')) ->
                          In x (ip_addresses (db w)))).
  { intros x Hx. unfold ret in Hx. injection Hx as _ <-. rewrite Hdb. auto. }
  assert (Hdel :
            forall row,
              (ip_address_delete row ;;; ret (@None IPAddressRow)) w1 = (r, w') ->
              utcnow w' = utcnow w /\ next_uuid w' = next_uuid w
              /\ (forall x, In x (ip_addresses (db w')) ->
                            In x (ip_addresses (db w)))).
  { intros row Hx. unfold bind, ip_address_delete, modify_db, ret in Hx.
    injection Hx as _ <-. wsimpl. rewrite Hdb. repeat split; auto.
    intros x Hin. apply filter_In in Hin. tauto. }
  assert (G : utcnow w' = utcnow w /\ next_uuid w' = next_uuid w
              /\ (forall x, In x (ip_addresses (db w')) ->
                            In x (ip_addresses (db w)))).
  { destruct o as [row|]; [|exact (Hsame _ H)].
    unfold bind at 1 in H. unfold get_db in H.
    destruct (subnet_of (db w1) row) as [s|]; [|exact (Hsame _ H)].
    destruct (do_not_use s); [exact (Hsame _ H)|].
    unfold bind at 1 in H. unfold lift in H.
    destruct (row_addr s row) as [addr|e].
    2:{ injection H as _ <-. rewrite Hdb. auto. }
    destruct (match get_ip_policy_cidrs s with
              | Some p => ipset_contains p addr
              | None => false
              end); [exact (Hdel _ H)|].
    destruct (negb (net_contains (cidr s) addr));
      [exact (Hdel _ H) | exact (Hsame _ H)]. }
  destruct G as [G1 [G2 G3]]. repeat split; auto.
  - apply G3. apply (Hsome a H0).
  - apply (Hsome a H0).
Qed.

Lemma updated_row_found :
  forall context kw T now pre row post a bound,
    (forall r T', In r (pre ++ row :: post)%list ->
                  transaction_id r = Some T' -> T' < bound) ->
    bound <= T ->
    In a (pre ++ ip_update_kwargs context kw T now row :: post)%list ->
    transaction_id a = Some T ->
    a = ip_update_kwargs context kw T now row.
Proof.
  intros context kw T now pre row post a bound Hf Hb Hin Ht.
  apply in_app_or in Hin. destruct Hin as [Hin | [E | Hin]].
  - assert (T < bound) by (apply (Hf a T); [apply in_or_app; auto | exact Ht]).
    lia.
  - symmetry. exact E.
  - assert (T < bound)
      by (apply (Hf a T); [apply in_or_app; right; right; exact Hin | exact Ht]).
    lia.
Qed.

Lemma reuse_inv_shrink :
  forall w0 w w',
    reuse_inv w0 w ->
    utcnow w' = utcnow w ->
    next_uuid w <= next_uuid w' ->
    (forall x, In x (ip_addresses (db w')) -> In x (ip_addresses (db w))) ->
    reuse_inv w0 w'.
Proof.
  intros w0 w w' [J1 [J2 J3]] Hnow Hid Hsub.
  unfold reuse_inv, transactions_fresh. rewrite Hnow.
  split; [exact J1|]. split.
  - intros r T Hin Ht. specialize (J2 r T (Hsub _ Hin) Ht). lia.
  - intros r Hin Hd. exact (J3 r (Hsub _ Hin) Hd).
Qed.

(** One pass of the retry loop keeps [reuse_inv], and the address it
    returns is the update of a stored address that met the conditions of
    the claim. *)
Lemma reallocate_attempt_reuse :
  forall context kw filters w0 w c w',
    reuse_inv w0 w ->
    reallocate_attempt context kw filters w = (Ok c, w') ->
    (reuse_inv w0 w' /\ next_uuid w <= next_uuid w')
    /\ forall a, c = Return a ->
         exists r T fs,
           In r (ip_addresses (db w))
           /\ next_uuid w <= T
           /\ _model_query (utcnow w) (elevated context) MIPAddress
                           (_listify filters) = Ok fs
           /\ matches ip_col _deallocated deallocated_at fs r = true
           /\ a = ip_update_kwargs context kw T (utcnow w) r.
Proof.
  intros context kw filters w0 w c w' I0 H.
  pose proof I0 as [Inow [Ifresh Iold]].
  unfold reallocate_attempt, try_except in H.
  unfold bind at 1 in H.
  destruct (with_begin (transaction_create context) w) as [[T|e] w1] eqn:Et;
    destruct (transaction_create_cases _ _ _ _ Et)
      as [Hdb1 [Hnow1 [[ET Hid1] | [[e' ET] Hid1]]]]; try discriminate.
  2:{ unfold any_Exception, ret in H. injection H as <- <-.
      split; [|discriminate].
      split; [|lia].
      apply (reuse_inv_shrink w0 w w1 I0 Hnow1); [lia|].
      rewrite Hdb1. auto. }
  injection ET as ->.
  assert (I1 : reuse_inv w0 w1).
  { apply (reuse_inv_shrink w0 w w1 I0 Hnow1); [lia|]. rewrite Hdb1. auto. }
  unfold bind at 1 in H. unfold get_world in H. unfold bind at 1 in H.
  destruct (ip_address_reallocate (elevated context)
              (ip_update_kwargs context kw (next_uuid w) (utcnow w1)) filters w1)
    as [[b|e] w2] eqn:Er;
    destruct (ip_address_reallocate_cases _ _ _ _ _ _ Er)
      as [Hnow2 [Hid2 Hrows]].
  2:{ unfold any_Exception, ret in H. injection H as <- <-.
      split; [|discriminate].
      destruct Hrows as [[_ E] | [fs [pre [row [post [Eb _]]]]]];
        [|discriminate].
      split; [|lia].
      apply (reuse_inv_shrink w0 w1 w2 I1 Hnow2); [lia|]. rewrite E. auto. }
  destruct Hrows as [[Hb E] | [fs [pre [row [post [Eb [Hfs [E1 [E2 Hm]]]]]]]]].
  { destruct b; [congruence|]. cbn [negb] in H. unfold ret in H.
    injection H as <- <-. split; [|discriminate].
    split; [|lia].
    apply (reuse_inv_shrink w0 w1 w2 I1 Hnow2); [lia|]. rewrite E. auto. }
  injection Eb as ->. cbn [negb] in H.
  rewrite Hdb1 in E1. rewrite Hnow1 in Hfs. rewrite Hnow1 in E2.
  assert (I2 : reuse_inv w0 w2).
  { unfold reuse_inv, transactions_fresh. rewrite E2, Hnow2, Hid2, Hid1, Hnow1.
    split; [exact Inow|]. split.
    - intros r T Hin Ht. apply in_app_or in Hin.
      destruct Hin as [Hin | [<- | Hin]].
      + assert (T < next_uuid w)
          by (apply (Ifresh r T); [rewrite E1; apply in_or_app; auto | exact Ht]).
        lia.
      + cbn [transaction_id ip_update_kwargs] in Ht. injection Ht as <-. lia.
      + assert (T < next_uuid w)
          by (apply (Ifresh r T);
              [rewrite E1; apply in_or_app; right; right; exact Hin | exact Ht]).
        lia.
    - intros r Hin Hd. apply in_app_or in Hin.
      destruct Hin as [Hin | [<- | Hin]].
      + apply Iold; [|exact Hd]. rewrite E1. apply in_or_app. auto.
      + cbn [deallocated_at ip_update_kwargs] in Hd. congruence.
      + apply Iold; [|exact Hd]. rewrite E1. apply in_or_app.
        right. right. exact Hin. }
  unfold bind at 1 in H.
  destruct (ip_address_reallocate_find (elevated context) (next_uuid w) w2)
    as [[o|e] w3] eqn:Ef;
    destruct (ip_address_reallocate_find_cases _ _ _ _ _ Ef)
      as [Hnow3 [Hid3 [Hsub Hsome]]].
  2:{ unfold any_Exception, ret in H. injection H as <- <-.
      split; [|discriminate].
      split; [|lia].
      apply (reuse_inv_shrink w0 w2 w3 I2 Hnow3); [lia | exact Hsub]. }
  assert (I3 : reuse_inv w0 w3).
  { apply (reuse_inv_shrink w0 w2 w3 I2 Hnow3); [lia | exact Hsub]. }
  destruct o as [a|]; unfold ret in H; injection H as <- <-;
    (split; [split; [exact I3 | lia]|]); [|discriminate].
  intros a' Ea. injection Ea as <-.
  destruct (Hsome a eq_refl) as [Hin Ht]. rewrite E2 in Hin.
  exists row, (next_uuid w), fs.
  split; [rewrite E1; apply in_or_app; right; left; reflexivity|].
  split; [lia|]. split; [exact Hfs|]. split; [exact Hm|].
  apply (updated_row_found context kw (next_uuid w) (utcnow w) pre row post a
           (next_uuid w)); auto; try lia.
  intros r T' Hr. apply Ifresh. rewrite E1. exact Hr.
Qed.

Lemma reallocate_loop_reuse :
  forall n context kw filters w0 w a w',
    reuse_inv w0 w ->
    next_uuid w0 <= next_uuid w ->
    (forall fs r,
        _model_query (utcnow w0) (elevated context) MIPAddress
                     (_listify filters) = Ok fs ->
        matches ip_col _deallocated deallocated_at fs r = true ->
        deallocated_at r <> None) ->
    reallocate_loop n context kw filters w = (Ok [a], w') ->
    exists r T fs,
      In r (ip_addresses (db w0))
      /\ next_uuid w0 <= T
      /\ _model_query (utcnow w0) (elevated context) MIPAddress
                      (_listify filters) = Ok fs
      /\ matches ip_col _deallocated deallocated_at fs r = true
      /\ a = ip_update_kwargs context kw T (utcnow w0) r.
Proof.
  induction n as [|n IH]; intros context kw filters w0 w a w' I0 Hid Hd H.
  - unfold reallocate_loop, ret in H. discriminate.
  - cbn [reallocate_loop] in H.
    apply bind_Ok in H. destruct H as [c [w1 [Ha H]]].
    destruct (reallocate_attempt_reuse _ _ _ _ _ _ _ I0 Ha)
      as [[I1 Hmono] Hret].
    destruct c as [| |x].
    + refine (IH _ _ _ _ _ _ _ I1 _ Hd H). lia.
    + unfold ret in H. discriminate.
    + unfold ret in H. injection H as <- _.
      destruct (Hret x eq_refl) as [r [T [fs [Hin [HT [Hfs [Hm E]]]]]]].
      destruct I0 as [Inow [_ Iold]]. rewrite Inow in Hfs, E.
      exists r, T, fs. repeat split; auto; try lia.
      apply Iold; [exact Hin|]. exact (Hd fs r Hfs Hm).
Qed.

Lemma existsb_scalar_SInt :
  forall x l, existsb (scalar_eqb (SInt x)) l = true -> In (SInt x) l.
Proof.
  intros x l H. apply existsb_exists in H. destruct H as [y [Hin Hy]].
  destruct y; try discriminate. cbn in Hy. apply Z.eqb_eq in Hy.
  subst. exact Hin.
Qed.

Lemma existsb_scalar_SId :
  forall x l, existsb (scalar_eqb (SId x)) (map SId l) = true -> In x l.
Proof.
  intros x l H. apply existsb_exists in H. destruct H as [y [Hin Hy]].
  apply in_map_iff in Hin. destruct Hin as [i [<- Hin]].
  cbn in Hy. apply Z.eqb_eq in Hy. subst. exact Hin.
Qed.

(** A row that meets the conditions of the claim is [reusable]. *)
Lemma claim_filters_reusable :
  forall now context net_id reuse_after version ip_address sub_ids fs r,
    claim_filters now context net_id reuse_after version ip_address sub_ids
    = Ok fs ->
    matches ip_col _deallocated deallocated_at fs r = true ->
    reusable now net_id reuse_after version ip_address sub_ids r.
Proof.
  intros now context net_id reuse_after version ip_address sub_ids fs r H Hm.
  rewrite ClaimFacts.claim_filters_eq in H.
  assert (Hsub : forall rest,
             matches ip_col _deallocated deallocated_at
               (match sub_ids with
                | [] => []
                | _ :: _ => [F_in "subnet_id" (map SId sub_ids)]
                end ++ rest)%list r = true ->
             sub_ids <> [] -> In (subnet_id r) sub_ids).
  { intros rest Hx Hne. destruct sub_ids as [|i t]; [congruence|].
    unfold matches in Hx. cbn [forallb app] in Hx.
    apply andb_true_iff in Hx. destruct Hx as [Hx _].
    cbn [eval_filter] in Hx.
    change (ip_col "subnet_id" r) with (SId (subnet_id r)) in Hx.
    apply existsb_scalar_SId. exact Hx. }
  assert (Hcommon :
            forall third rest,
              matches ip_col _deallocated deallocated_at
                (F_in "network_id" [SId net_id]
                   :: F_deallocated_at_le (now - reuse_after)
                   :: third
                   :: F_in "version" (versions version)
                   :: rest) r = true ->
              network_id r = net_id
              /\ (exists d, deallocated_at r = Some d /\ d <= now - reuse_after)
              /\ eval_filter ip_col _deallocated deallocated_at third r = true
              /\ In (SInt (Models.version r)) (versions version)
              /\ matches ip_col _deallocated deallocated_at rest r = true).
  { intros third rest Hx. unfold matches in Hx. cbn [forallb] in Hx.
    apply andb_true_iff in Hx. destruct Hx as [H1 Hx].
    apply andb_true_iff in Hx. destruct Hx as [H2 Hx].
    apply andb_true_iff in Hx. destruct Hx as [H3 Hx].
    apply andb_true_iff in Hx. destruct Hx as [H4 Hx].
    cbn [eval_filter existsb] in H1, H2, H4.
    change (ip_col "network_id" r) with (SId (network_id r)) in H1.
    change (ip_col "version" r) with (SInt (Models.version r)) in H4.
    cbn [scalar_eqb] in H1. rewrite orb_false_r in H1.
    apply Z.eqb_eq in H1.
    split; [exact H1|]. split.
    - destruct (deallocated_at r) as [d|]; [|discriminate].
      exists d. split; [reflexivity|]. apply Z.leb_le. exact H2.
    - split; [exact H3|]. split; [|exact Hx].
      apply existsb_scalar_SInt. exact H4. }
  unfold reusable.
  destruct ip_address as [a|].
  - destruct (ip_truthy a); [|discriminate]. injection H as <-.
    apply Hcommon in Hm. destruct Hm as [H1 [H2 [H3 [H4 H5]]]].
    split; [exact H1|]. split; [exact H2|]. split.
    + cbn [eval_filter existsb] in H3.
      change (ip_col "address" r) with (SInt (address r)) in H3.
      cbn [scalar_eqb] in H3. rewrite orb_false_r in H3.
      apply Z.eqb_eq in H3. exact H3.
    + split; [exact H4|]. apply (Hsub []). rewrite app_nil_r. exact H5.
  - injection H as <-.
    apply Hcommon in Hm. destruct Hm as [H1 [H2 [H3 [H4 H5]]]].
    split; [exact H1|]. split; [exact H2|]. split.
    + cbn [eval_filter] in H3.
      change (ip_col "deallocated" r) with (SBool (_deallocated r)) in H3.
      cbn [scalar_eqb] in H3. destruct (_deallocated r); [reflexivity|].
      discriminate.
    + split; [exact H4|]. apply (Hsub []). rewrite app_nil_r. exact H5.
Qed.

Lemma stmt_cases :
  forall w r w',
    stmt w = (r, w') ->
    db w' = db w /\ utcnow w' = utcnow w /\ next_uuid w' = next_uuid w.
Proof.
  intros w r w' H. unfold stmt in H.
  destruct (faults w) as [|[|] t]; injection H as _ <-; auto.
Qed.

Lemma reallocate_sub_ids_Ok :
  forall context net_id segment subs w ids w',
    reallocate_sub_ids context net_id segment subs w = (Ok ids, w') ->
    db w' = db w /\ utcnow w' = utcnow w /\ next_uuid w' = next_uuid w
    /\ (subs <> [] -> ids = subs).
Proof.
  intros context net_id segment subs w ids w' H.
  unfold reallocate_sub_ids in H.
  destruct subs as [|i t].
  2:{ unfold ret in H. injection H as <- <-. auto. }
  assert (Hret : forall x, (ret x : M (list uuid)) w = (Ok ids, w') ->
                           db w' = db w /\ utcnow w' = utcnow w
                           /\ next_uuid w' = next_uuid w
                           /\ (@nil uuid <> [] -> ids = [])).
  { intros x Hx. unfold ret in Hx. injection Hx as _ <-.
    repeat split; auto. congruence. }
  destruct segment as [seg|]; [|exact (Hret _ H)].
  destruct (String.eqb seg EmptyString); [exact (Hret _ H)|].
  apply bind_Ok in H. destruct H as [found [w1 [Hf H]]].
  unfold subnet_find in Hf.
  apply bind_Ok in Hf. destruct Hf as [u [w2 [Hs Hf]]].
  apply stmt_cases in Hs. destruct Hs as [Hdb [Hnow Hid]].
  apply bind_Ok in Hf. destruct Hf as [fs [w3 [Hq Hf]]].
  unfold now_query in Hq.
  match type of Hq with
  | (?q, _) = _ => destruct q; [|discriminate]
  end.
  injection Hq as _ <-.
  unfold bind, get_db, ret in Hf. injection Hf as _ <-.
  destruct (map sub_id found); [unfold raise in H; discriminate|].
  unfold ret in H. injection H as _ <-.
  repeat split; auto. congruence.
Qed.

(** An address [attempt_to_reallocate_ip] hands out is the update of an
    address that was stored and [reusable] when the call began: of the
    network, deallocated at least [reuse_after] before now, marked
    deallocated unless it is the address asked for, of a version asked for
    and in one of the subnets given.  The transaction ids of the stored
    addresses are taken to have been issued before the call. *)
Theorem reallocated_ip_was_reusable :
  forall conf context net_id port_id reuse_after version ip_address segment
         subs kw w a w',
    transactions_fresh w ->
    attempt_to_reallocate_ip conf context net_id port_id reuse_after version
                             ip_address segment subs kw w = (Ok [a], w') ->
    exists r T,
      In r (ip_addresses (db w))
      /\ next_uuid w <= T
      /\ a = ip_update_kwargs context kw T (utcnow w) r
      /\ reusable (utcnow w) net_id reuse_after version ip_address subs r.
Proof.
  intros conf context net_id port_id reuse_after version ip_address segment
         subs kw w a w' Hfresh H.
  destruct (ReallocateFacts.attempt_to_reallocate_ip_cases conf context net_id
              port_id reuse_after version ip_address segment subs kw)
    as [E|E]; rewrite E in H.
  { unfold ret in H. discriminate. }
  apply bind_Ok in H. destruct H as [ids [w1 [Hs H]]].
  apply reallocate_sub_ids_Ok in Hs.
  destruct Hs as [Hdb [Hnow [Hid Hsubs]]].
  assert (I1 : reuse_inv w1 w1).
  { unfold reuse_inv, transactions_fresh. rewrite Hdb, Hid. auto. }
  assert (Hd : forall fs r,
             _model_query (utcnow w1) (elevated context) MIPAddress
               (_listify (ip_kwargs net_id reuse_after (version_or_both version)
                                    ip_address ids)) = Ok fs ->
             matches ip_col _deallocated deallocated_at fs r = true ->
             reusable (utcnow w1) net_id reuse_after version ip_address ids r).
  { intros fs r Hfs Hm.
    exact (claim_filters_reusable (utcnow w1) context net_id reuse_after
             version ip_address ids fs r Hfs Hm). }
  assert (Hd' : forall fs r,
             _model_query (utcnow w1) (elevated context) MIPAddress
               (_listify (ip_kwargs net_id reuse_after (version_or_both version)
                                    ip_address ids)) = Ok fs ->
             matches ip_col _deallocated deallocated_at fs r = true ->
             deallocated_at r <> None).
  { intros fs r Hfs Hm.
    destruct (Hd fs r Hfs Hm) as [_ [[d [Ed _]] _]]. congruence. }
  destruct (reallocate_loop_reuse _ _ _ _ w1 w1 a w' I1 (Z.le_refl _) Hd' H)
    as [r [T [fs [Hin [HT [Hfs [Hm Ea]]]]]]].
  exists r, T. rewrite <- Hdb, <- Hnow, <- Hid.
  split; [exact Hin|]. split; [exact HT|]. split; [exact Ea|].
  destruct (Hd fs r Hfs Hm) as [R1 [R2 [R3 [R4 R5]]]].
  unfold reusable. repeat split; auto.
  intro Hne. rewrite <- (Hsubs Hne). apply R5. rewrite (Hsubs Hne). exact Hne.
Qed.

(** [10.0.0.3], deallocated at time 0, is handed out again at time 1000. *)
Lemma reallocated_ip_was_reusable_example :
  exists a w',
    attempt_to_reallocate_ip conf tenant 1 port_a 0 None None None [] no_kwargs
                             world_reusable_ip = (Ok [a], w')
    /\ exists r T,
         In r (ip_addresses (db world_reusable_ip))
         /\ next_uuid world_reusable_ip <= T
         /\ a = ip_update_kwargs tenant no_kwargs T (utcnow world_reusable_ip) r
         /\ reusable (utcnow world_reusable_ip) 1 0 None None [] r.
Proof.
  eexists. eexists. split; [vm_compute; reflexivity|].
  eapply (reallocated_ip_was_reusable conf tenant 1 port_a 0 None None None []
           no_kwargs world_reusable_ip _ _).
  - intros r T Hin Ht. cbn in Hin. destruct Hin as [<- | []].
    cbn in Ht. discriminate.
  - vm_compute. reflexivity.
Defined.

End ReuseFacts.

(** ** Which MAC address [allocate_mac_address] hands out *)

Module MacReuseFacts.

Import Examples MoreExamples PyFacts.
Open Scope string_scope.
Open Scope Z_scope.

Ltac msimpl :=
  cbn [db utcnow next_uuid faults mac_addresses mac_address_ranges with_db
       set_mac_addresses set_mac_address_ranges].

Ltac msimpl_in H :=
  cbn [db utcnow next_uuid faults mac_addresses mac_address_ranges with_db
       set_mac_addresses set_mac_address_ranges] in H.

(** The conditions of the claim on the MAC address table. *)
Lemma mac_claim_filters_eq :
  forall now context reuse_after mac_address,
    _model_query now (elevated context) MMacAddress
      (_listify (mac_filter_kwargs reuse_after mac_address))
    = Ok (F_deallocated_at_le (now - reuse_after)
            :: F_eq "deallocated" (SBool true)
            :: match mac_address with
               | Some a => [F_eq "address" (SInt a)]
               | None => []
               end).
Proof.
  intros now context reuse_after [a|]; lazy -[Z.sub]; reflexivity.
Qed.

Lemma mac_transaction_query :
  forall now context T,
    _model_query now (elevated context) MMacAddress
      (_listify [("transaction_id", PScalar (SId T))])
    = Ok [F_eq "transaction_id" (SId T)].
Proof. intros now context T. reflexivity. Qed.

(** A row that meets the conditions of the claim is [mac_reusable]. *)
Lemma mac_claim_reusable :
  forall now reuse_after mac_address r,
    matches mac_col mac_deallocated mac_deallocated_at
      (F_deallocated_at_le (now - reuse_after)
         :: F_eq "deallocated" (SBool true)
         :: match mac_address with
            | Some a => [F_eq "address" (SInt a)]
            | None => []
            end) r = true ->
    mac_reusable now reuse_after r.
Proof.
  intros now reuse_after mac_address r H.
  unfold matches in H. cbn [forallb] in H.
  apply andb_true_iff in H. destruct H as [H1 H].
  apply andb_true_iff in H. destruct H as [H2 _].
  cbn [eval_filter] in H1, H2.
  change (mac_col "deallocated" r) with (SBool (mac_deallocated r)) in H2.
  cbn [scalar_eqb] in H2.
  split.
  - destruct (mac_deallocated r); [reflexivity | discriminate].
  - destruct (mac_deallocated_at r) as [d|]; [|discriminate].
    exists d. split; [reflexivity|]. apply Z.leb_le. exact H1.
Qed.

Lemma mac_claim_statement_cases :
  forall context upd d w r w',
    (stmt ;;;
     fs <- now_query context MMacAddress d ;;
     t <- get_db ;;
     let '(row_count, rows) :=
       update_limit_1 mac_col mac_deallocated mac_deallocated_at fs upd
                      (mac_addresses t) in
     modify_db (set_mac_addresses rows) ;;;
     ret (row_count =? 1)) w = (r, w') ->
    utcnow w' = utcnow w /\ next_uuid w' = next_uuid w
    /\ ((r <> Ok true /\ mac_addresses (db w') = mac_addresses (db w))
        \/ exists fs pre row post,
             r = Ok true
             /\ _model_query (utcnow w) context MMacAddress d = Ok fs
             /\ mac_addresses (db w) = (pre ++ row :: post)%list
             /\ mac_addresses (db w') = (pre ++ upd row :: post)%list
             /\ matches mac_col mac_deallocated mac_deallocated_at fs row
                = true).
Proof.
  intros context upd d w r w' H.
  unfold bind at 1 in H.
  destruct (stmt w) as [[u|e] w1] eqn:Es.
  2:{ injection H as <- <-. unfold stmt in Es.
      destruct (faults w) as [|[|] t]; try discriminate.
      injection Es as _ <-. msimpl. split; [reflexivity|].
      split; [reflexivity|].
      left. split; [discriminate | reflexivity]. }
  assert (Hw : db w1 = db w /\ utcnow w1 = utcnow w
               /\ next_uuid w1 = next_uuid w).
  { unfold stmt in Es. destruct (faults w) as [|[|] t]; try discriminate;
      injection Es as _ <-; msimpl; auto. }
  destruct Hw as [Hdb [Hnow Hid]].
  unfold bind at 1 in H. unfold now_query in H. rewrite Hnow in H.
  destruct (_model_query (utcnow w) context MMacAddress d) as [fs|e] eqn:Hfs.
  2:{ injection H as <- <-. rewrite Hdb. split; [exact Hnow|].
      split; [exact Hid|]. left. split; [discriminate | reflexivity]. }
  unfold bind at 1 in H. unfold get_db in H. rewrite Hdb in H.
  destruct (update_limit_1 mac_col mac_deallocated mac_deallocated_at fs upd
              (mac_addresses (db w))) as [n rows] eqn:Hu.
  unfold bind, modify_db, ret in H. injection H as <- <-. msimpl.
  split; [exact Hnow|]. split; [exact Hid|].
  apply ClaimFacts.update_limit_1_spec in Hu.
  destruct Hu as [[-> [-> _]] | [-> [pre [row [post [E1 [E2 [Hm _]]]]]]]].
  - left. split; [discriminate | reflexivity].
  - right. exists fs, pre, row, post. auto.
Qed.

Lemma mac_address_reallocate_cases :
  forall context upd filters w r w',
    mac_address_reallocate context upd filters w = (r, w') ->
    utcnow w' = utcnow w /\ next_uuid w' = next_uuid w
    /\ ((r <> Ok true /\ mac_addresses (db w') = mac_addresses (db w))
        \/ exists fs pre row post,
             r = Ok true
             /\ _model_query (utcnow w) context MMacAddress (_listify filters)
                = Ok fs
             /\ mac_addresses (db w) = (pre ++ row :: post)%list
             /\ mac_addresses (db w') = (pre ++ upd row :: post)%list
             /\ matches mac_col mac_deallocated mac_deallocated_at fs row
                = true).
Proof.
  intros context upd filters w r w' H.
  exact (mac_claim_statement_cases context upd (_listify filters) w r w' H).
Qed.

Lemma mac_find_statement_cases :
  forall context d w (r : res (option MacAddress)) w',
    (stmt ;;;
     fs <- now_query context MMacAddress d ;;
     t <- get_db ;;
     ret (first mac_col mac_deallocated mac_deallocated_at fs
                (mac_addresses t))) w = (r, w') ->
    db w' = db w /\ utcnow w' = utcnow w /\ next_uuid w' = next_uuid w
    /\ forall o, r = Ok o ->
         exists fs,
           _model_query (utcnow w) context MMacAddress d = Ok fs
           /\ o = first mac_col mac_deallocated mac_deallocated_at fs
                        (mac_addresses (db w)).
Proof.
  intros context d w r w' H.
  unfold bind, stmt, now_query, get_db, ret in H.
  destruct (faults w) as [|[|] t]; msimpl_in H.
  - destruct (_model_query _ _ _ _) as [fs|e] eqn:E; injection H as <- <-;
      repeat split; auto; intros o Ho; [|discriminate].
    injection Ho as <-. exists fs. auto.
  - injection H as <- <-. repeat split; auto. discriminate.
  - destruct (_model_query _ _ _ _) as [fs|e] eqn:E; injection H as <- <-;
      repeat split; auto; intros o Ho; [|discriminate].
    injection Ho as <-. exists fs. auto.
Qed.

Lemma mac_address_find_one_cases :
  forall context filters w r w',
    mac_address_find_one context filters w = (r, w') ->
    db w' = db w /\ utcnow w' = utcnow w /\ next_uuid w' = next_uuid w
    /\ forall o, r = Ok o ->
         exists fs,
           _model_query (utcnow w) context MMacAddress (_listify filters)
           = Ok fs
           /\ o = first mac_col mac_deallocated mac_deallocated_at fs
                        (mac_addresses (db w)).
Proof.
  intros context filters w r w' H.
  exact (mac_find_statement_cases context (_listify filters) w r w' H).
Qed.

(** [mac_address_reallocate_find], however it ends: the row it looks at is
    a stored row of the transaction; the table is left as it is, or loses
    the rows of the address of that row, and it is left as it is when the
    row is returned. *)
Lemma mac_address_reallocate_find_cases :
  forall context T w r w',
    mac_address_reallocate_find (elevated context) T w = (r, w') ->
    utcnow w' = utcnow w /\ next_uuid w' = next_uuid w
    /\ (mac_addresses (db w') = mac_addresses (db w)
        \/ (r = Ok None
            /\ exists a,
                 In a (mac_addresses (db w))
                 /\ mac_transaction_id a = Some T
                 /\ mac_addresses (db w')
                    = filter (fun x => negb (mac_address x =? mac_address a))
                             (mac_addresses (db w))))
    /\ forall a, r = Ok (Some a) ->
                 In a (mac_addresses (db w))
                 /\ mac_transaction_id a = Some T
                 /\ mac_addresses (db w') = mac_addresses (db w).
Proof.
  intros context T w r w' H.
  unfold mac_address_reallocate_find in H. unfold bind at 1 in H.
  destruct (mac_address_find_one (elevated context)
              [("transaction_id", PScalar (SId T))] w) as [[o|e] w1] eqn:Ef;
    destruct (mac_address_find_one_cases _ _ _ _ _ Ef)
      as [Hdb [Hnow [Hid Hres]]].
  2:{ injection H as <- <-. rewrite Hdb. repeat split; auto; discriminate. }
  destruct (Hres o eq_refl) as [fs [Hfs Ho]].
  rewrite mac_transaction_query in Hfs. injection Hfs as <-.
  destruct o as [mac|].
  2:{ unfold ret in H. injection H as <- <-. rewrite Hdb.
      repeat split; auto; discriminate. }
  symmetry in Ho. unfold first in Ho. apply find_some in Ho.
  destruct Ho as [Hin Hm].
  assert (Ht : mac_transaction_id mac = Some T).
  { unfold matches in Hm. cbn [forallb eval_filter] in Hm.
    rewrite andb_true_r in Hm.
    change (mac_col "transaction_id" mac)
      with (opt_id (mac_transaction_id mac)) in Hm.
    destruct (mac_transaction_id mac) as [t|]; [|discriminate].
    cbn in Hm. apply Z.eqb_eq in Hm. subst. reflexivity. }
  assert (Hkeep :
            (ret (Some mac) : M (option MacAddress)) w1 = (r, w') ->
            utcnow w' = utcnow w /\ next_uuid w' = next_uuid w
            /\ (mac_addresses (db w') = mac_addresses (db w)
                \/ (r = Ok None
                    /\ exists a,
                         In a (mac_addresses (db w))
                         /\ mac_transaction_id a = Some T
                         /\ mac_addresses (db w')
                            = filter (fun x => negb (mac_address x
                                                     =? mac_address a))
                                     (mac_addresses (db w))))
            /\ forall a, r = Ok (Some a) ->
                         In a (mac_addresses (db w))
                         /\ mac_transaction_id a = Some T
                         /\ mac_addresses (db w') = mac_addresses (db w)).
  { intro Hx. unfold ret in Hx. injection Hx as <- <-. rewrite Hdb.
    split; [exact Hnow|]. split; [exact Hid|]. split; [left; reflexivity|].
    intros a0 Ha. injection Ha as <-. auto. }
  unfold bind at 1 in H. unfold get_db in H.
  destruct (range_of (db w1) mac) as [rg|]; [|exact (Hkeep H)].
  destruct (range_do_not_use rg); [|exact (Hkeep H)].
  unfold bind, mac_address_delete, modify_db, ret in H.
  injection H as <- <-. msimpl. rewrite Hdb.
  repeat split; auto; try discriminate.
  right. split; [reflexivity|]. exists mac. auto.
Qed.

Lemma NoDup_map_eq :
  forall (A B : Type) (f : A -> B) l x y,
    NoDup (map f l) -> In x l -> In y l -> f x = f y -> x = y.
Proof.
  intros A B f l. induction l as [|a t IH]; intros x y Hn Hx Hy E.
  - destruct Hx.
  - cbn [map] in Hn. apply NoDup_cons_iff in Hn. destruct Hn as [Hna Hn].
    destruct Hx as [<-|Hx]; destruct Hy as [<-|Hy].
    + reflexivity.
    + exfalso. apply Hna. rewrite E. apply in_map. exact Hy.
    + exfalso. apply Hna. rewrite <- E. apply in_map. exact Hx.
    + exact (IH x y Hn Hx Hy E).
Qed.

Lemma mac_inv_same :
  forall w0 ra w w',
    mac_inv w0 ra w ->
    utcnow w' = utcnow w ->
    next_uuid w <= next_uuid w' ->
    mac_addresses (db w') = mac_addresses (db w) ->
    mac_inv w0 ra w'.
Proof.
  intros w0 ra w w' [J1 [J2 [J3 J4]]] Hnow Hid E.
  unfold mac_inv, mac_transactions_fresh. rewrite E, Hnow.
  split; [exact J1|]. split; [|split; [exact J3 | exact J4]].
  intros r T Hin Ht. specialize (J2 r T Hin Ht). lia.
Qed.

Lemma mac_inv_update :
  forall w0 ra w w' T pre row post,
    mac_inv w0 ra w ->
    utcnow w' = utcnow w ->
    next_uuid w <= next_uuid w' ->
    T < next_uuid w' ->
    mac_addresses (db w) = (pre ++ row :: post)%list ->
    mac_addresses (db w') = (pre ++ mac_update_kwargs T row :: post)%list ->
    mac_inv w0 ra w'.
Proof.
  intros w0 ra w w' T pre row post [J1 [J2 [J3 J4]]] Hnow Hid HT E1 E2.
  unfold mac_inv, mac_transactions_fresh. rewrite E2, Hnow.
  split; [exact J1|]. split; [|split].
  - intros r T' Hin Ht. apply in_app_or in Hin.
    destruct Hin as [Hin | [<- | Hin]].
    + assert (T' < next_uuid w)
        by (apply (J2 r T'); [rewrite E1; apply in_or_app; auto | exact Ht]).
      lia.
    + cbn [mac_transaction_id mac_update_kwargs] in Ht.
      injection Ht as <-. exact HT.
    + assert (T' < next_uuid w)
        by (apply (J2 r T');
            [rewrite E1; apply in_or_app; right; right; exact Hin | exact Ht]).
      lia.
  - intros r Hin Hd. apply in_app_or in Hin.
    destruct Hin as [Hin | [<- | Hin]].
    + apply J3; [|exact Hd]. rewrite E1. apply in_or_app. auto.
    + cbn [mac_deallocated_at mac_update_kwargs] in Hd. congruence.
    + apply J3; [|exact Hd]. rewrite E1. apply in_or_app.
      right. right. exact Hin.
  - intros r0 Hr0. destruct (J4 r0 Hr0) as [Hre | [x [Hx Ex]]]; [auto|].
    right. rewrite E1 in Hx. apply in_app_or in Hx.
    destruct Hx as [Hx | [<- | Hx]].
    + exists x. split; [apply in_or_app; auto | exact Ex].
    + exists (mac_update_kwargs T row).
      split; [apply in_or_app; right; left; reflexivity | exact Ex].
    + exists x. split; [apply in_or_app; right; right; exact Hx | exact Ex].
Qed.

Lemma mac_inv_delete :
  forall w0 ra w w' r a,
    mac_keys_unique w0 ->
    mac_inv w0 ra w ->
    utcnow w' = utcnow w ->
    next_uuid w <= next_uuid w' ->
    In r (mac_addresses (db w0)) ->
    mac_reusable (utcnow w0) ra r ->
    mac_address a = mac_address r ->
    mac_addresses (db w')
    = filter (fun x => negb (mac_address x =? mac_address a))
             (mac_addresses (db w)) ->
    mac_inv w0 ra w'.
Proof.
  intros w0 ra w w' r a Hu [J1 [J2 [J3 J4]]] Hnow Hid Hr Hre Ea E.
  unfold mac_inv, mac_transactions_fresh. rewrite E, Hnow.
  split; [exact J1|]. split; [|split].
  - intros x T Hin Ht. apply filter_In in Hin. destruct Hin as [Hin _].
    specialize (J2 x T Hin Ht). lia.
  - intros x Hin Hd. apply filter_In in Hin. destruct Hin as [Hin _].
    exact (J3 x Hin Hd).
  - intros r0 Hr0. destruct (J4 r0 Hr0) as [H0 | [x [Hx Ex]]]; [auto|].
    destruct (Z.eq_dec (mac_address x) (mac_address a)) as [Eq|Ne].
    + left.
      assert (r0 = r).
      { apply (NoDup_map_eq _ _ mac_address (mac_addresses (db w0)));
          [exact Hu | exact Hr0 | exact Hr | congruence]. }
      subst. exact Hre.
    + right. exists x. split; [|exact Ex]. apply filter_In.
      split; [exact Hx|]. apply negb_true_iff. apply Z.eqb_neq. exact Ne.
Qed.

Lemma mac_inv_append :
  forall w0 ra w w' row,
    mac_inv w0 ra w ->
    utcnow w' = utcnow w ->
    next_uuid w <= next_uuid w' ->
    mac_transaction_id row = None ->
    mac_deallocated_at row = None ->
    mac_addresses (db w') = (mac_addresses (db w) ++ [row])%list ->
    mac_inv w0 ra w'.
Proof.
  intros w0 ra w w' row [J1 [J2 [J3 J4]]] Hnow Hid Ht Hd E.
  unfold mac_inv, mac_transactions_fresh. rewrite E, Hnow.
  split; [exact J1|]. split; [|split].
  - intros x T Hin Hx. apply in_app_or in Hin.
    destruct Hin as [Hin | [<- | []]]; [|congruence].
    specialize (J2 x T Hin Hx). lia.
  - intros x Hin Hx. apply in_app_or in Hin.
    destruct Hin as [Hin | [<- | []]]; [|congruence].
    exact (J3 x Hin Hx).
  - intros r0 Hr0. destruct (J4 r0 Hr0) as [H0 | [x [Hx Ex]]]; [auto|].
    right. exists x. split; [apply in_or_app; auto | exact Ex].
Qed.

Lemma mac_updated_row_found :
  forall T pre row post a bound,
    (forall r T', In r (pre ++ row :: post)%list ->
                  mac_transaction_id r = Some T' -> T' < bound) ->
    bound <= T ->
    In a (pre ++ mac_update_kwargs T row :: post)%list ->
    mac_transaction_id a = Some T ->
    a = mac_update_kwargs T row.
Proof.
  intros T pre row post a bound Hf Hb Hin Ht.
  apply in_app_or in Hin. destruct Hin as [Hin | [E | Hin]].
  - assert (T < bound) by (apply (Hf a T); [apply in_or_app; auto | exact Ht]).
    lia.
  - symmetry. exact E.
  - assert (T < bound)
      by (apply (Hf a T); [apply in_or_app; right; right; exact Hin | exact Ht]).
    lia.
Qed.

(** One pass of the reuse loop keeps [mac_inv]; the row it returns is
    stored, and is the update of a row of [w0] that was [mac_reusable]. *)
Lemma mac_reuse_attempt_inv :
  forall context ra mac w0 w c w',
    mac_keys_unique w0 ->
    mac_inv w0 ra w ->
    mac_reuse_attempt context ra mac w = (Ok c, w') ->
    (mac_inv w0 ra w' /\ next_uuid w <= next_uuid w')
    /\ forall m, c = Return m ->
         In m (mac_addresses (db w'))
         /\ exists r T,
              In r (mac_addresses (db w0))
              /\ mac_reusable (utcnow w0) ra r
              /\ m = mac_update_kwargs T r.
Proof.
  intros context ra mac w0 w c w' Hu I0 H.
  pose proof I0 as [Inow [Ifresh [Iold Ikeep]]].
  unfold mac_reuse_attempt, try_except in H.
  unfold bind at 1 in H.
  destruct (with_begin (transaction_create context) w) as [[T|e] w1] eqn:Et;
    destruct (ReuseFacts.transaction_create_cases _ _ _ _ Et)
      as [Hdb1 [Hnow1 [[ET Hid1] | [[e' ET] Hid1]]]]; try discriminate.
  2:{ unfold any_Exception, ret in H. injection H as <- <-.
      split; [|discriminate]. split; [|lia].
      apply (mac_inv_same w0 ra w w1 I0 Hnow1); [lia|].
      rewrite Hdb1. reflexivity. }
  injection ET as ->.
  assert (I1 : mac_inv w0 ra w1).
  { apply (mac_inv_same w0 ra w w1 I0 Hnow1); [lia|].
    rewrite Hdb1. reflexivity. }
  unfold bind at 1 in H.
  destruct (mac_address_reallocate (elevated context)
              (mac_update_kwargs (next_uuid w))
              (mac_filter_kwargs ra mac) w1) as [[b|e] w2] eqn:Er;
    destruct (mac_address_reallocate_cases _ _ _ _ _ _ Er)
      as [Hnow2 [Hid2 Hrows]].
  2:{ unfold any_Exception, ret in H. injection H as <- <-.
      split; [|discriminate]. split; [|lia].
      destruct Hrows as [[_ E] | [fs [pre [row [post [Eb _]]]]]];
        [|discriminate].
      apply (mac_inv_same w0 ra w1 w2 I1 Hnow2); [lia | exact E]. }
  destruct Hrows as [[Hb E] | [fs [pre [row [post [Eb [Hfs [E1 [E2 Hm]]]]]]]]].
  { destruct b; [congruence|]. cbn [negb] in H. unfold ret in H.
    injection H as <- <-. split; [|discriminate]. split; [|lia].
    apply (mac_inv_same w0 ra w1 w2 I1 Hnow2); [lia | exact E]. }
  injection Eb as ->. cbn [negb] in H.
  rewrite mac_claim_filters_eq in Hfs. injection Hfs as <-.
  apply mac_claim_reusable in Hm. rewrite Hnow1, Inow in Hm.
  assert (Hrow : In row (mac_addresses (db w0))).
  { destruct I1 as [_ [_ [J3 _]]]. apply J3.
    - rewrite E1. apply in_or_app. right. left. reflexivity.
    - destruct Hm as [_ [d [Ed _]]]. congruence. }
  assert (I2 : mac_inv w0 ra w2).
  { apply (mac_inv_update w0 ra w1 w2 (next_uuid w) pre row post I1 Hnow2);
      auto; lia. }
  unfold bind at 1 in H.
  destruct (mac_address_reallocate_find (elevated context) (next_uuid w) w2)
    as [[o|e] w3] eqn:Ef;
    destruct (mac_address_reallocate_find_cases _ _ _ _ _ Ef)
      as [Hnow3 [Hid3 [Hdel Hsome]]].
  2:{ unfold any_Exception, ret in H. injection H as <- <-.
      split; [|discriminate]. split; [|lia].
      destruct Hdel as [E | [Habs _]]; [|discriminate].
      apply (mac_inv_same w0 ra w2 w3 I2 Hnow3); [lia | exact E]. }
  assert (I3 : mac_inv w0 ra w3).
  { destruct Hdel as [E | [_ [a [Hin [Ht E]]]]].
    - apply (mac_inv_same w0 ra w2 w3 I2 Hnow3); [lia | exact E].
    - rewrite E2 in Hin.
      assert (Ea : a = mac_update_kwargs (next_uuid w) row).
      { apply (mac_updated_row_found (next_uuid w) pre row post a
                 (next_uuid w)); auto; try lia.
        intros r T' Hr. apply Ifresh. rewrite <- Hdb1, E1. exact Hr. }
      apply (mac_inv_delete w0 ra w2 w3 row a Hu I2 Hnow3); auto; try lia.
      rewrite Ea. reflexivity. }
  destruct o as [m|].
  2:{ unfold ret in H. injection H as <- <-.
      split; [|discriminate]. split; [exact I3 | lia]. }
  destruct (Hsome m eq_refl) as [Hin [Ht E3]].
  unfold bind at 1 in H. unfold lift in H.
  destruct (EUI_of_int (Models.mac_address m)) as [v|e].
  2:{ unfold any_Exception, ret in H. injection H as <- <-.
      split; [|discriminate]. split; [exact I3 | lia]. }
  unfold ret in H. injection H as <- <-.
  split; [split; [exact I3 | lia]|].
  intros m' Em. injection Em as <-.
  split; [rewrite E3; exact Hin|].
  exists row, (next_uuid w). split; [exact Hrow|]. split; [exact Hm|].
  rewrite E2 in Hin.
  apply (mac_updated_row_found (next_uuid w) pre row post m (next_uuid w));
    auto; try lia.
  intros r T' Hr. apply Ifresh. rewrite <- Hdb1, E1. exact Hr.
Qed.

Lemma mac_reuse_loop_inv :
  forall n context ra mac w0 w o w',
    mac_keys_unique w0 ->
    mac_inv w0 ra w ->
    mac_reuse_loop n context ra mac w = (Ok o, w') ->
    mac_inv w0 ra w'
    /\ forall m, o = Some m ->
         In m (mac_addresses (db w'))
         /\ exists r T,
              In r (mac_addresses (db w0))
              /\ mac_reusable (utcnow w0) ra r
              /\ m = mac_update_kwargs T r.
Proof.
  induction n as [|n IH]; intros context ra mac w0 w o w' Hu I0 H.
  - unfold mac_reuse_loop, ret in H. injection H as <- <-.
    split; [exact I0 | discriminate].
  - cbn [mac_reuse_loop] in H.
    apply bind_Ok in H. destruct H as [c [w1 [Ha H]]].
    destruct (mac_reuse_attempt_inv _ _ _ _ _ _ _ Hu I0 Ha)
      as [[I1 _] Hret].
    destruct c as [| |x].
    + exact (IH _ _ _ _ _ _ _ Hu I1 H).
    + unfold ret in H. injection H as <- <-. split; [exact I1 | discriminate].
    + unfold ret in H. injection H as <- <-. split; [exact I1|].
      intros m Em. injection Em as <-. exact (Hret x eq_refl).
Qed.

(** *** The create loop *)

Lemma keeps_macs_ret : forall (A : Type) (a : A), keeps_macs (ret a).
Proof. intros A a w r w' H. injection H as _ <-. auto. Qed.

Lemma keeps_macs_raise : forall (A : Type) e, keeps_macs (@raise A e).
Proof. intros A e w r w' H. injection H as _ <-. auto. Qed.

Lemma keeps_macs_bind :
  forall (A B : Type) (m : M A) (k : A -> M B),
    keeps_macs m -> (forall a, keeps_macs (k a)) -> keeps_macs (bind m k).
Proof.
  intros A B m k Hm Hk w r w' H. unfold bind in H.
  destruct (m w) as [[a|e] w1] eqn:E.
  - destruct (Hm _ _ _ E) as [E1 [E2 E3]].
    destruct (Hk a _ _ _ H) as [F1 [F2 F3]].
    rewrite F1, F2, F3. auto.
  - injection H as _ <-. exact (Hm _ _ _ E).
Qed.

Lemma keeps_macs_try_except :
  forall (A : Type) (m : M A) handled h,
    keeps_macs m -> (forall e, keeps_macs (h e)) ->
    keeps_macs (try_except m handled h).
Proof.
  intros A m handled h Hm Hh w r w' H. unfold try_except in H.
  destruct (m w) as [[a|e] w1] eqn:E.
  - injection H as _ <-. exact (Hm _ _ _ E).
  - destruct (handled e).
    + destruct (Hm _ _ _ E) as [E1 [E2 E3]].
      destruct (Hh e _ _ _ H) as [F1 [F2 F3]].
      rewrite F1, F2, F3. auto.
    + injection H as _ <-. exact (Hm _ _ _ E).
Qed.

Lemma keeps_macs_with_begin :
  forall (A : Type) (m : M A), keeps_macs m -> keeps_macs (with_begin m).
Proof.
  intros A m Hm w r w' H. unfold with_begin in H.
  destruct (m w) as [[a|e] w1] eqn:E; injection H as _ <-.
  - exact (Hm _ _ _ E).
  - destruct (Hm _ _ _ E) as [E1 [E2 E3]]. msimpl. auto.
Qed.

Lemma keeps_macs_stmt : keeps_macs stmt.
Proof.
  intros w r w' H. unfold stmt in H.
  destruct (faults w) as [|[|] t]; injection H as _ <-; auto.
Qed.

Lemma keeps_macs_get_db : keeps_macs get_db.
Proof. intros w r w' H. injection H as _ <-. auto. Qed.

Lemma keeps_macs_set_ranges :
  forall f,
    keeps_macs (modify_db (fun d => set_mac_address_ranges (f d) d)).
Proof. intros f w r w' H. injection H as _ <-. auto. Qed.

Ltac keeps_step :=
  match goal with
  | |- keeps_macs (bind _ _) => apply keeps_macs_bind; [|intro]
  | |- keeps_macs (ret _) => apply keeps_macs_ret
  | |- keeps_macs (raise _) => apply keeps_macs_raise
  | |- keeps_macs (try_except _ _ _) => apply keeps_macs_try_except; [|intro]
  | |- keeps_macs (with_begin _) => apply keeps_macs_with_begin
  | |- keeps_macs stmt => apply keeps_macs_stmt
  | |- keeps_macs get_db => apply keeps_macs_get_db
  | |- keeps_macs (modify_db _) => apply keeps_macs_set_ranges
  | |- keeps_macs (match ?x with _ => _ end) => destruct x
  end.

(** The choice of a range touches the ranges only. *)
Lemma keeps_macs_mac_pick :
  forall context mac forbidden, keeps_macs (mac_pick context mac forbidden).
Proof.
  intros context mac forbidden.
  unfold mac_pick, mac_address_range_find_allocation_counts,
    mac_range_update_set_full, mac_range_update_next_auto_assign_mac,
    refresh_range.
  repeat keeps_step.
Qed.

Lemma mac_address_create_cases :
  forall context a rid w r w',
    with_begin (mac_address_create context a rid) w = (r, w') ->
    utcnow w' = utcnow w /\ next_uuid w' = next_uuid w
    /\ match r with
       | Ok row =>
           row = mkMacAddress a (Some rid) (tenant_id context) false None None
           /\ existsb (fun m => mac_address m =? a) (mac_addresses (db w))
              = false
           /\ mac_addresses (db w') = (mac_addresses (db w) ++ [row])%list
       | Raise _ => mac_addresses (db w') = mac_addresses (db w)
       end.
Proof.
  intros context a rid w r w' H.
  unfold with_begin, mac_address_create, bind, stmt, get_db, modify_db, ret,
    raise in H.
  destruct (faults w) as [|[|] t]; msimpl_in H.
  - destruct (existsb (fun m => mac_address m =? a) (mac_addresses (db w)))
      eqn:Ex; injection H as <- <-; msimpl; auto.
  - injection H as <- <-. msimpl. auto.
  - destruct (existsb (fun m => mac_address m =? a) (mac_addresses (db w)))
      eqn:Ex; injection H as <- <-; msimpl; auto.
Qed.

(** One pass of the create loop keeps [mac_inv]; the row it returns is
    new, stored and allocated, and a row of [w0] of the same address was
    [mac_reusable]. *)
Lemma mac_create_attempt_inv :
  forall context ra mac forbidden w0 w c w',
    mac_inv w0 ra w ->
    mac_create_attempt context mac forbidden w = (Ok c, w') ->
    mac_inv w0 ra w'
    /\ forall m, c = Return m ->
         mac_deallocated m = false
         /\ In m (mac_addresses (db w'))
         /\ forall r0, In r0 (mac_addresses (db w0)) ->
                       mac_address r0 = mac_address m ->
                       mac_reusable (utcnow w0) ra r0.
Proof.
  intros context ra mac forbidden w0 w c w' I0 H.
  unfold mac_create_attempt in H.
  apply bind_Ok in H. destruct H as [p [w1 [Hp H]]].
  destruct (keeps_macs_mac_pick _ _ _ _ _ _ Hp) as [E1 [Hnow1 Hid1]].
  assert (I1 : mac_inv w0 ra w1)
    by (apply (mac_inv_same w0 ra w w1 I0 Hnow1); [lia | exact E1]).
  destruct p as [| |[rng a]];
    try (unfold ret in H; injection H as <- <-; split;
         [exact I1 | discriminate]).
  unfold try_except in H. unfold bind at 1 in H. unfold lift in H.
  destruct (EUI_of_int a) as [v|e].
  2:{ unfold any_Exception, ret in H. injection H as <- <-.
      split; [exact I1 | discriminate]. }
  unfold bind at 1 in H.
  destruct (with_begin (mac_address_create context a (range_id rng)) w1)
    as [[row|e] w2] eqn:Ec;
    destruct (mac_address_create_cases _ _ _ _ _ _ Ec) as [Hnow2 [Hid2 Hres]].
  2:{ unfold any_Exception, ret in H. injection H as <- <-.
      split; [|discriminate].
      apply (mac_inv_same w0 ra w1 w2 I1 Hnow2); [lia | exact Hres]. }
  destruct Hres as [Erow [Hex E2]].
  unfold ret in H. injection H as <- <-.
  split.
  - apply (mac_inv_append w0 ra w1 w2 row I1 Hnow2); auto; try lia;
      rewrite Erow; reflexivity.
  - intros m Em. injection Em as <-.
    split; [rewrite Erow; reflexivity|].
    split; [rewrite E2; apply in_or_app; right; left; reflexivity|].
    intros r0 Hr0 Ea.
    destruct I1 as [_ [_ [_ J4]]].
    destruct (J4 r0 Hr0) as [Hre | [x [Hx Ex]]]; [exact Hre|].
    exfalso.
    assert (Hfalse : existsb (fun m => mac_address m =? a)
                             (mac_addresses (db w1)) = true).
    { apply existsb_exists. exists x. split; [exact Hx|].
      apply Z.eqb_eq. rewrite Ex, Ea, Erow. reflexivity. }
    congruence.
Qed.

Lemma mac_create_loop_inv :
  forall n context ra mac forbidden w0 w o w',
    mac_inv w0 ra w ->
    mac_create_loop n context mac forbidden w = (Ok o, w') ->
    forall m, o = Some m ->
      mac_deallocated m = false
      /\ In m (mac_addresses (db w'))
      /\ forall r0, In r0 (mac_addresses (db w0)) ->
                    mac_address r0 = mac_address m ->
                    mac_reusable (utcnow w0) ra r0.
Proof.
  induction n as [|n IH]; intros context ra mac forbidden w0 w o w' I0 H.
  - unfold mac_create_loop, ret in H. injection H as <- _. discriminate.
  - cbn [mac_create_loop] in H.
    apply bind_Ok in H. destruct H as [c [w1 [Ha H]]].
    destruct (mac_create_attempt_inv _ _ _ _ _ _ _ _ I0 Ha) as [I1 Hret].
    destruct c as [| |x].
    + exact (IH _ _ _ _ _ _ _ _ I1 H).
    + unfold ret in H. injection H as <- _. discriminate.
    + unfold ret in H. injection H as <- <-.
      intros m Em. injection Em as <-. exact (Hret x eq_refl).
Qed.

Lemma mac_inv_init :
  forall ra w, mac_transactions_fresh w -> mac_inv w ra w.
Proof.
  intros ra w Hf. unfold mac_inv. repeat split; auto.
  intros r0 Hr0. right. exists r0. auto.
Qed.

(** [allocate_mac_address] never hands out a MAC address that is in use:
    the row it returns is stored and allocated, and a row that the table
    held under this address when the call began was marked deallocated, at
    least [reuse_after] before now.  The address is taken to be the key of
    the table, and the transaction ids on the stored rows to have been
    issued before the call. *)
Theorem allocate_mac_address_not_in_use :
  forall conf context net_id port_id reuse_after mac forbidden w m w',
    mac_keys_unique w ->
    mac_transactions_fresh w ->
    allocate_mac_address conf context net_id port_id reuse_after mac forbidden w
    = (Ok m, w') ->
    mac_deallocated m = false
    /\ In m (mac_addresses (db w'))
    /\ forall r0, In r0 (mac_addresses (db w)) ->
                  mac_address r0 = mac_address m ->
                  mac_reusable (utcnow w) reuse_after r0.
Proof.
  intros conf context net_id port_id reuse_after mac forbidden w m w' Hu Hf H.
  unfold allocate_mac_address in H.
  apply bind_Ok in H. destruct H as [o [w1 [Hl H]]].
  destruct (mac_reuse_loop_inv _ _ _ _ _ _ _ _ Hu
              (mac_inv_init reuse_after w Hf) Hl) as [I1 Hsome].
  destruct o as [x|].
  - unfold ret in H. injection H as <- <-.
    destruct (Hsome x eq_refl) as [Hin [r [T [Hr [Hre Ex]]]]].
    split; [rewrite Ex; reflexivity|]. split; [exact Hin|].
    intros r0 Hr0 Ea.
    assert (r0 = r).
    { apply (NoDup_map_eq _ _ mac_address (mac_addresses (db w)));
        [exact Hu | exact Hr0 | exact Hr |].
      rewrite Ea, Ex. reflexivity. }
    subst r0. exact Hre.
  - apply bind_Ok in H. destruct H as [c [w2 [Hc H]]].
    destruct c as [x|]; [|unfold raise in H; discriminate].
    unfold ret in H. injection H as <- <-.
    exact (mac_create_loop_inv _ _ _ _ _ _ _ _ _ I1 Hc x eq_refl).
Qed.

(** [00:00:00:00:00:03], deallocated at time 0, is handed out at time
    1000. *)
Lemma allocate_mac_address_not_in_use_example :
  exists m w',
    allocate_mac_address conf tenant 1 port_a 0 None false world_usable_mac
    = (Ok m, w')
    /\ mac_deallocated m = false
    /\ In m (mac_addresses (db w'))
    /\ forall r0, In r0 (mac_addresses (db world_usable_mac)) ->
                  mac_address r0 = mac_address m ->
                  mac_reusable (utcnow world_usable_mac) 0 r0.
Proof.
  eexists. eexists. split; [vm_compute; reflexivity|].
  eapply (allocate_mac_address_not_in_use conf tenant 1 port_a 0 None false
            world_usable_mac _ _).
  - unfold mac_keys_unique. cbn. constructor; [intros [] | constructor].
  - intros r T Hin Ht. cbn in Hin. destruct Hin as [<- | []].
    cbn in Ht. discriminate.
  - vm_compute. reflexivity.
Defined.

End MacReuseFacts.

(** ** Giving a MAC address back *)

Module DeallocFacts.

Import Examples MoreExamples PyFacts.
Open Scope string_scope.
Open Scope Z_scope.

(** The query for an address asks for the address. *)
Lemma mac_address_query :
  forall now context a fs,
    _model_query now context MMacAddress
      (_listify [("address", PScalar (SInt a))]) = Ok fs ->
    In (F_eq "address" (SInt a)) fs.
Proof.
  intros now [tenant admin] a fs H.
  destruct admin; vm_compute in H; injection H as <-; cbn; auto.
Qed.

(** [deallocate_mac_address] leaves no row of the address allocated: when
    it returns, a stored row of the address is marked deallocated and
    stamped with the time of the call (or has been deleted, for a range that
    is [do_not_use]), and rows of other addresses and the ranges are as
    before.  When it ends in [NotFound] or in an exception, the tables are
    as before. *)
Theorem deallocate_mac_address_releases :
  forall context a w r w',
    deallocate_mac_address context a w = (r, w') ->
    match r with
    | Ok Deallocated =>
        (forall x, In x (mac_addresses (db w')) -> mac_address x = a ->
                   mac_deallocated x = true
                   /\ mac_deallocated_at x = Some (utcnow w))
        /\ (forall x, mac_address x <> a ->
                      (In x (mac_addresses (db w'))
                       <-> In x (mac_addresses (db w))))
        /\ mac_address_ranges (db w') = mac_address_ranges (db w)
    | Ok NotFound => db w' = db w
    | Raise _ => db w' = db w
    end.
Proof.
  intros context a w r w' H.
  unfold deallocate_mac_address in H. unfold bind at 1 in H.
  destruct (mac_address_find_one context [("address", PScalar (SInt a))] w)
    as [[o|e] w1] eqn:Ef;
    destruct (MacReuseFacts.mac_address_find_one_cases _ _ _ _ _ Ef)
      as [Hdb [Hnow [Hid Hres]]].
  2:{ injection H as <- <-. exact Hdb. }
  destruct (Hres o eq_refl) as [fs [Hfs Ho]].
  destruct o as [mac|].
  2:{ unfold bind, lift, ret in H.
      destruct (EUI_of_int a); injection H as <- <-; exact Hdb. }
  symmetry in Ho. unfold first in Ho. apply find_some in Ho.
  destruct Ho as [Hin Hm].
  pose proof (ReallocateFacts.matches_In _ _ _ _ _ _ _ Hm
                (mac_address_query _ _ _ _ Hfs)) as Ha.
  cbn [eval_filter] in Ha.
  change (mac_col "address" mac) with (SInt (mac_address mac)) in Ha.
  cbn [scalar_eqb] in Ha. apply Z.eqb_eq in Ha.
  unfold bind at 1 in H. unfold get_db in H.
  destruct (range_of (db w1) mac) as [rg|].
  2:{ unfold raise in H. injection H as <- <-. exact Hdb. }
  destruct (range_do_not_use rg).
  - unfold bind, mac_address_delete, modify_db, ret in H.
    injection H as <- <-.
    cbn [db with_db mac_addresses mac_address_ranges set_mac_addresses].
    rewrite Hdb, Ha. split; [|split; [|reflexivity]].
    + intros x Hx Ex. apply filter_In in Hx. destruct Hx as [_ Hx].
      apply negb_true_iff in Hx. apply Z.eqb_neq in Hx. contradiction.
    + intros x Hne. rewrite filter_In. split; [tauto|].
      intro Hx. split; [exact Hx|]. apply negb_true_iff.
      apply Z.eqb_neq. exact Hne.
  - unfold bind at 1 in H. unfold get_world in H.
    unfold mac_address_update, bind, stmt, modify_db, ret in H.
    rewrite Hnow in H.
    destruct (faults w1) as [|[|] t];
      cbn [db with_db mac_addresses mac_address_ranges set_mac_addresses
           utcnow faults] in H;
      injection H as <- <-;
      cbn [db with_db mac_addresses mac_address_ranges set_mac_addresses];
      try exact Hdb; rewrite Hdb, Ha.
    + split; [|split; [|reflexivity]].
      * intros x Hx Ex. apply in_map_iff in Hx.
        destruct Hx as [y [Ey Hy]].
        destruct (mac_address y =? a) eqn:E.
        -- subst x. cbn. auto.
        -- subst x. apply Z.eqb_neq in E. contradiction.
      * intros x Hne. rewrite in_map_iff. split.
        -- intros [y [Ey Hy]]. destruct (mac_address y =? a) eqn:E.
           ++ subst x. cbn in Hne. congruence.
           ++ subst x. exact Hy.
        -- intro Hx. exists x. split; [|exact Hx].
           apply Z.eqb_neq in Hne. rewrite Hne. reflexivity.
    + split; [|split; [|reflexivity]].
      * intros x Hx Ex. apply in_map_iff in Hx.
        destruct Hx as [y [Ey Hy]].
        destruct (mac_address y =? a) eqn:E.
        -- subst x. cbn. auto.
        -- subst x. apply Z.eqb_neq in E. contradiction.
      * intros x Hne. rewrite in_map_iff. split.
        -- intros [y [Ey Hy]]. destruct (mac_address y =? a) eqn:E.
           ++ subst x. cbn in Hne. congruence.
           ++ subst x. exact Hy.
        -- intro Hx. exists x. split; [|exact Hx].
           apply Z.eqb_neq in Hne. rewrite Hne. reflexivity.
Qed.

(** [00:00:00:00:00:04] is given back at time 1000. *)
Lemma deallocate_mac_address_releases_example :
  exists w',
    deallocate_mac_address tenant 4 world_mac_in_use = (Ok Deallocated, w')
    /\ (forall x, In x (mac_addresses (db w')) -> mac_address x = 4 ->
                  mac_deallocated x = true
                  /\ mac_deallocated_at x = Some (utcnow world_mac_in_use))
    /\ (forall x, mac_address x <> 4 ->
                  (In x (mac_addresses (db w'))
                   <-> In x (mac_addresses (db world_mac_in_use))))
    /\ mac_address_ranges (db w') = mac_address_ranges (db world_mac_in_use).
Proof.
  eexists. split; [vm_compute; reflexivity|].
  eapply (deallocate_mac_address_releases tenant 4 world_mac_in_use
            (Ok Deallocated) _).
  vm_compute. reflexivity.
Defined.

(** *** Asking for the address again *)

Lemma stmt_run : forall w, faults w = [] -> stmt w = (Ok tt, w).
Proof. intros w H. unfold stmt. rewrite H. reflexivity. Qed.

Lemma first_match_split :
  forall (A : Type) (p : A -> bool) l x,
    In x l -> p x = true ->
    exists pre r post,
      l = (pre ++ r :: post)%list /\ p r = true
      /\ forall y, In y pre -> p y = false.
Proof.
  intros A p l. induction l as [|a t IH]; intros x Hin Hp.
  - destruct Hin.
  - destruct (p a) eqn:Ea.
    + exists [], a, t. repeat split; auto. intros y [].
    + destruct Hin as [<-|Hin]; [congruence|].
      destruct (IH x Hin Hp) as [pre [r [post [E [Hr Hpre]]]]].
      exists (a :: pre), r, post. subst t. repeat split; auto.
      intros y [<-|Hy]; auto.
Qed.

Lemma update_limit_1_at :
  forall (R : Type) col flag at_ fs (upd : R -> R) pre r post,
    (forall y, In y pre -> matches col flag at_ fs y = false) ->
    matches col flag at_ fs r = true ->
    update_limit_1 col flag at_ fs upd (pre ++ r :: post)%list
    = (1, (pre ++ upd r :: post)%list).
Proof.
  intros R col flag at_ fs upd pre r post Hpre Hr.
  induction pre as [|a t IH]; cbn [app update_limit_1].
  - rewrite Hr. reflexivity.
  - rewrite (Hpre a (or_introl eq_refl)).
    rewrite IH; [reflexivity|]. intros y Hy. apply Hpre. right. exact Hy.
Qed.

Lemma find_at :
  forall (A : Type) (p : A -> bool) pre x post,
    (forall y, In y pre -> p y = false) -> p x = true ->
    find p (pre ++ x :: post)%list = Some x.
Proof.
  intros A p pre x post Hpre Hx. induction pre as [|a t IH]; cbn [app find].
  - rewrite Hx. reflexivity.
  - rewrite (Hpre a (or_introl eq_refl)). apply IH.
    intros y Hy. apply Hpre. right. exact Hy.
Qed.

Lemma mac_claim_statement_run :
  forall context upd d w fs n rows,
    faults w = [] ->
    _model_query (utcnow w) context MMacAddress d = Ok fs ->
    update_limit_1 mac_col mac_deallocated mac_deallocated_at fs upd
                   (mac_addresses (db w)) = (n, rows) ->
    (stmt ;;;
     fs <- now_query context MMacAddress d ;;
     t <- get_db ;;
     let '(row_count, rows) :=
       update_limit_1 mac_col mac_deallocated mac_deallocated_at fs upd
                      (mac_addresses t) in
     modify_db (set_mac_addresses rows) ;;;
     ret (row_count =? 1)) w
    = (Ok (n =? 1), with_db (set_mac_addresses rows) w).
Proof.
  intros context upd d w fs n rows Hf Hq Hu.
  unfold bind at 1. rewrite (stmt_run w Hf).
  unfold bind at 1. unfold now_query. rewrite Hq.
  unfold bind at 1. unfold get_db. rewrite Hu.
  reflexivity.
Qed.

Lemma mac_find_statement_run :
  forall context d w fs,
    faults w = [] ->
    _model_query (utcnow w) context MMacAddress d = Ok fs ->
    (stmt ;;;
     fs <- now_query context MMacAddress d ;;
     t <- get_db ;;
     ret (first mac_col mac_deallocated mac_deallocated_at fs
                (mac_addresses t))) w
    = (Ok (first mac_col mac_deallocated mac_deallocated_at fs
                 (mac_addresses (db w))), w).
Proof.
  intros context d w fs Hf Hq.
  unfold bind at 1. rewrite (stmt_run w Hf).
  unfold bind at 1. unfold now_query. rewrite Hq.
  reflexivity.
Qed.

(** The first pass of the reuse loop takes the first row that meets the
    conditions of the claim, when the store works, the range of the row may
    be used and its address is one. *)
Lemma mac_reuse_attempt_run :
  forall context ra mac w pre r post,
    faults w = [] ->
    mac_transactions_fresh w ->
    mac_addresses (db w) = (pre ++ r :: post)%list ->
    (forall y, In y pre ->
               matches mac_col mac_deallocated mac_deallocated_at
                 (F_deallocated_at_le (utcnow w - ra)
                    :: F_eq "deallocated" (SBool true)
                    :: match mac with
                       | Some a => [F_eq "address" (SInt a)]
                       | None => []
                       end) y = false) ->
    matches mac_col mac_deallocated mac_deallocated_at
      (F_deallocated_at_le (utcnow w - ra)
         :: F_eq "deallocated" (SBool true)
         :: match mac with
            | Some a => [F_eq "address" (SInt a)]
            | None => []
            end) r = true ->
    (forall rg, range_of (db w) r = Some rg -> range_do_not_use rg = false) ->
    EUI_of_int (mac_address r) = Ok (mac_address r) ->
    exists w',
      mac_reuse_attempt context ra mac w
      = (Ok (Return (mac_update_kwargs (next_uuid w) r)), w')
      /\ In (mac_update_kwargs (next_uuid w) r) (mac_addresses (db w')).
Proof.
  intros context ra mac w pre r post Hf Hfresh Erows Hpre Hr Hrange Heui.
  set (T := next_uuid w).
  set (w1 := mkWorld (db w) (utcnow w) (faults w) (rng w) (next_uuid w + 1)
                     (notifications w)).
  set (rows := (pre ++ mac_update_kwargs T r :: post)%list).
  set (w2 := with_db (set_mac_addresses rows) w1).
  assert (E1 : with_begin (transaction_create context) w = (Ok T, w1)).
  { unfold with_begin, transaction_create, bind. rewrite (stmt_run w Hf).
    reflexivity. }
  assert (E2 : mac_address_reallocate (elevated context) (mac_update_kwargs T)
                 (mac_filter_kwargs ra mac) w1 = (Ok true, w2)).
  { exact (mac_claim_statement_run (elevated context) (mac_update_kwargs T)
             (_listify (mac_filter_kwargs ra mac)) w1 _ 1 rows Hf
             (MacReuseFacts.mac_claim_filters_eq (utcnow w) context ra mac)
             (eq_trans
                (f_equal (update_limit_1 mac_col mac_deallocated
                            mac_deallocated_at _ (mac_update_kwargs T)) Erows)
                (update_limit_1_at _ _ _ _ _ _ pre r post Hpre Hr))). }
  assert (E3 : mac_address_find_one (elevated context)
                 [("transaction_id", PScalar (SId T))] w2
               = (Ok (Some (mac_update_kwargs T r)), w2)).
  { rewrite <- (find_at _ (matches mac_col mac_deallocated mac_deallocated_at
                            [F_eq "transaction_id" (SId T)])
                  pre (mac_update_kwargs T r) post).
    - exact (mac_find_statement_run (elevated context)
               (_listify [("transaction_id", PScalar (SId T))]) w2 _ Hf
               (MacReuseFacts.mac_transaction_query (utcnow w) context T)).
    - intros y Hy. unfold matches. cbn [forallb eval_filter].
      rewrite andb_true_r.
      change (mac_col "transaction_id" y)
        with (opt_id (mac_transaction_id y)).
      destruct (mac_transaction_id y) as [t|] eqn:Et; [|reflexivity].
      cbn. apply Z.eqb_neq.
      assert (t < next_uuid w).
      { apply (Hfresh y t); [|exact Et]. rewrite Erows.
        apply in_or_app. auto. }
      unfold T. lia.
    - unfold matches. cbn. rewrite Z.eqb_refl. reflexivity. }
  exists w2. split.
  2:{ cbn. apply in_or_app. right. left. reflexivity. }
  unfold mac_reuse_attempt, try_except.
  unfold bind at 1. rewrite E1. fold T.
  unfold bind at 1. rewrite E2. cbn [negb].
  unfold bind at 1. unfold mac_address_reallocate_find.
  unfold bind at 1. rewrite E3.
  unfold bind at 1. unfold get_db.
  assert (Erange : range_of (db w2) (mac_update_kwargs T r)
                   = range_of (db w) r) by reflexivity.
  rewrite Erange.
  destruct (range_of (db w) r) as [rg|] eqn:Erg.
  - rewrite (Hrange rg eq_refl). unfold ret, bind, lift.
    cbn [Models.mac_address mac_update_kwargs]. rewrite Heui. reflexivity.
  - unfold ret, bind, lift.
    cbn [Models.mac_address mac_update_kwargs]. rewrite Heui. reflexivity.
Qed.

(** What a successful [deallocate_mac_address] did. *)
Lemma deallocate_mac_address_Ok :
  forall context a w w1,
    deallocate_mac_address context a w = (Ok Deallocated, w1) ->
    utcnow w1 = utcnow w /\ next_uuid w1 = next_uuid w
    /\ mac_address_ranges (db w1) = mac_address_ranges (db w)
    /\ exists mac rg,
         In mac (mac_addresses (db w))
         /\ mac_address mac = a
         /\ range_of (db w) mac = Some rg
         /\ ((range_do_not_use rg = true
              /\ mac_addresses (db w1)
                 = filter (fun x => negb (mac_address x =? a))
                          (mac_addresses (db w)))
             \/ (range_do_not_use rg = false
                 /\ mac_addresses (db w1)
                    = map (fun x => if mac_address x =? a
                                    then mac_deallocate_kwargs (utcnow w) mac
                                    else x) (mac_addresses (db w)))).
Proof.
  intros context a w w1 H.
  unfold deallocate_mac_address in H. unfold bind at 1 in H.
  destruct (mac_address_find_one context [("address", PScalar (SInt a))] w)
    as [[o|e] w0] eqn:Ef; [|discriminate].
  destruct (MacReuseFacts.mac_address_find_one_cases _ _ _ _ _ Ef)
    as [Hdb [Hnow [Hid Hres]]].
  destruct (Hres o eq_refl) as [fs [Hfs Ho]].
  destruct o as [mac|].
  2:{ unfold bind, lift, ret in H. destruct (EUI_of_int a); discriminate. }
  symmetry in Ho. unfold first in Ho. apply find_some in Ho.
  destruct Ho as [Hin Hm].
  pose proof (ReallocateFacts.matches_In _ _ _ _ _ _ _ Hm
                (mac_address_query _ _ _ _ Hfs)) as Ha.
  cbn [eval_filter] in Ha.
  change (mac_col "address" mac) with (SInt (mac_address mac)) in Ha.
  cbn [scalar_eqb] in Ha. apply Z.eqb_eq in Ha.
  unfold bind at 1 in H. unfold get_db in H. rewrite Hdb in H.
  destruct (range_of (db w) mac) as [rg|] eqn:Erg; [|discriminate].
  destruct (range_do_not_use rg) eqn:Ed.
  - unfold bind, mac_address_delete, modify_db, ret in H.
    injection H as <-.
    cbn [db with_db mac_addresses mac_address_ranges set_mac_addresses
         utcnow next_uuid].
    rewrite Hdb, Ha. repeat split; auto.
    exists mac, rg. auto 10.
  - unfold bind at 1 in H. unfold get_world in H.
    unfold mac_address_update, bind, stmt, modify_db, ret in H.
    rewrite Hnow in H.
    destruct (faults w0) as [|[|] t];
      cbn [db with_db mac_addresses mac_address_ranges set_mac_addresses
           utcnow faults] in H; try discriminate;
      injection H as <-;
      cbn [db with_db mac_addresses mac_address_ranges set_mac_addresses
           utcnow next_uuid];
      rewrite Hdb, Ha; (repeat split; auto); exists mac, rg; auto 10.
Qed.

(** A MAC address that was given back can be asked for again: after a
    successful [deallocate_mac_address] that kept the row (its range may be
    used), [allocate_mac_address] called with this address once
    [reuse_after] has passed returns the stored row of the address, marked
    allocated.  The store is taken to work, the address to be a non-zero
    address, and the transaction ids on the stored rows to have been issued
    before. *)
Theorem deallocated_mac_is_reallocated :
  forall conf context context' net_id port_id reuse_after a forbidden w w1 t,
    mac_transactions_fresh w ->
    deallocate_mac_address context a w = (Ok Deallocated, w1) ->
    (exists x, In x (mac_addresses (db w1)) /\ mac_address x = a) ->
    faults w1 = [] ->
    0 < a <= 2 ^ 64 - 1 ->
    mac_address_retry_max conf <> O ->
    utcnow w + reuse_after <= t ->
    exists m w',
      allocate_mac_address conf context' net_id port_id reuse_after (Some a)
                           forbidden (at_time t w1) = (Ok m, w')
      /\ mac_address m = a
      /\ mac_deallocated m = false
      /\ In m (mac_addresses (db w')).
Proof.
  intros conf context context' net_id port_id reuse_after a forbidden w w1 t
         Hfresh Hd [x [Hx Ex]] Hfaults Ha Hretry Ht.
  destruct (deallocate_mac_address_Ok _ _ _ _ Hd)
    as [Hnow [Hid [Hranges [mac [rg [Hmac [Emac [Erg Hrows]]]]]]]].
  destruct Hrows as [[_ Erows] | [Hdnu Erows]].
  { exfalso. rewrite Erows in Hx. apply filter_In in Hx.
    destruct Hx as [_ Hx]. apply negb_true_iff in Hx.
    apply Z.eqb_neq in Hx. contradiction. }
  set (fs := F_deallocated_at_le (utcnow (at_time t w1) - reuse_after)
               :: F_eq "deallocated" (SBool true)
               :: [F_eq "address" (SInt a)]).
  assert (Hrow : forall y, In y (mac_addresses (db w1)) -> mac_address y = a ->
                           y = mac_deallocate_kwargs (utcnow w) mac).
  { intros y Hy Ey. rewrite Erows in Hy. apply in_map_iff in Hy.
    destruct Hy as [z [Ez Hz]].
    destruct (mac_address z =? a) eqn:E; [congruence|].
    apply Z.eqb_neq in E. congruence. }
  assert (Hmatch : forall y,
             matches mac_col mac_deallocated mac_deallocated_at fs y = true ->
             mac_address y = a).
  { intros y Hy. unfold matches, fs in Hy. cbn [forallb] in Hy.
    apply andb_true_iff in Hy. destruct Hy as [_ Hy].
    apply andb_true_iff in Hy. destruct Hy as [_ Hy].
    rewrite andb_true_r in Hy. cbn [eval_filter] in Hy.
    change (mac_col "address" y) with (SInt (mac_address y)) in Hy.
    cbn [scalar_eqb] in Hy. apply Z.eqb_eq in Hy. exact Hy. }
  assert (Hx' : matches mac_col mac_deallocated mac_deallocated_at fs x = true).
  { rewrite (Hrow x Hx Ex). unfold matches, fs.
    cbn [forallb eval_filter mac_deallocated_at mac_deallocate_kwargs].
    change (mac_col "deallocated" (mac_deallocate_kwargs (utcnow w) mac))
      with (SBool true).
    change (mac_col "address" (mac_deallocate_kwargs (utcnow w) mac))
      with (SInt (mac_address mac)).
    cbn [scalar_eqb Bool.eqb utcnow at_time]. rewrite Emac, Z.eqb_refl.
    cbn [andb]. rewrite andb_true_r.
    apply Z.leb_le. lia. }
  destruct (first_match_split _
              (matches mac_col mac_deallocated mac_deallocated_at fs)
              (mac_addresses (db w1)) x Hx Hx')
    as [pre [r [post [Esplit [Hr Hpre]]]]].
  assert (Er : r = mac_deallocate_kwargs (utcnow w) mac).
  { apply Hrow; [rewrite Esplit; apply in_or_app; right; left; reflexivity|].
    exact (Hmatch r Hr). }
  destruct (mac_reuse_attempt_run context' reuse_after (Some a)
              (at_time t w1) pre r post) as [w' [Hrun Hin]].
  - exact Hfaults.
  - intros y T Hy HT. cbn [db at_time next_uuid] in *. rewrite Hid.
    rewrite Erows in Hy. apply in_map_iff in Hy.
    destruct Hy as [z [Ez Hz]].
    destruct (mac_address z =? a).
    + subst y. cbn [mac_transaction_id mac_deallocate_kwargs] in HT.
      exact (Hfresh mac T Hmac HT).
    + subst y. exact (Hfresh z T Hz HT).
  - exact Esplit.
  - exact Hpre.
  - exact Hr.
  - intros rg' Hrg'. subst r.
    assert (Esame : range_of (db (at_time t w1))
                      (mac_deallocate_kwargs (utcnow w) mac)
                    = range_of (db w) mac).
    { unfold range_of.
      cbn [db at_time mac_address_range_id mac_deallocate_kwargs].
      rewrite Hranges. reflexivity. }
    rewrite Esame, Erg in Hrg'. injection Hrg' as <-. exact Hdnu.
  - subst r. cbn [Models.mac_address mac_deallocate_kwargs]. rewrite Emac.
    unfold EUI_of_int.
    assert (Hb : (0 <=? a) && (a <=? 2 ^ 64 - 1) = true).
    { apply andb_true_iff. split; apply Z.leb_le; lia. }
    rewrite Hb. reflexivity.
  - exists (mac_update_kwargs (next_uuid (at_time t w1)) r), w'.
    split.
    + unfold allocate_mac_address.
      destruct (mac_address_retry_max conf) as [|n] eqn:En; [congruence|].
      unfold bind at 1.
      rewrite (MacFacts.mac_reuse_loop_returns n context' reuse_after (Some a)
                 (at_time t w1) _ w' Hrun).
      reflexivity.
    + split; [|split; [reflexivity | exact Hin]].
      cbn [Models.mac_address mac_update_kwargs]. exact (Hmatch r Hr).
Qed.

(** [00:00:00:00:00:04] is given back and asked for again. *)
Lemma deallocated_mac_is_reallocated_example :
  exists m w',
    allocate_mac_address conf tenant 1 port_a 0 (Some 4) false
      (at_time 1000 (snd (deallocate_mac_address tenant 4 world_mac_in_use)))
    = (Ok m, w')
    /\ mac_address m = 4
    /\ mac_deallocated m = false
    /\ In m (mac_addresses (db w')).
Proof.
  apply (deallocated_mac_is_reallocated conf tenant tenant 1 port_a 0 4 false
           world_mac_in_use
           (snd (deallocate_mac_address tenant 4 world_mac_in_use)) 1000).
  - intros r T Hin Ht. cbn in Hin. destruct Hin as [<- | []].
    cbn in Ht. discriminate.
  - vm_compute. reflexivity.
  - exists (mac_deallocate_kwargs 1000 mac_row_4).
    split; [vm_compute; auto | reflexivity].
  - vm_compute. reflexivity.
  - split; [lia | vm_compute; discriminate].
  - vm_compute. discriminate.
  - vm_compute. discriminate.
Defined.

End DeallocFacts.

(** ** The subnet chosen for an automatic address *)

Module AutoFacts.

Import Examples MoreExamples PyFacts.
Open Scope string_scope.
Open Scope Z_scope.

Lemma update_cursor_ids :
  forall sid f l, map sub_id (update_cursor sid f l) = map sub_id l.
Proof.
  intros sid f l. unfold update_cursor. rewrite map_map.
  apply map_ext. intro s. destruct (cursor_open sid s); reflexivity.
Qed.

Lemma update_cursor_other :
  forall sid f l y,
    In y l -> sub_id y <> sid -> In y (update_cursor sid f l).
Proof.
  intros sid f l y Hin Hne. unfold update_cursor. apply in_map_iff.
  exists y. split; [|exact Hin].
  unfold cursor_open. apply Z.eqb_neq in Hne. rewrite Hne. reflexivity.
Qed.

Lemma find_by_id :
  forall (g : Subnet -> Subnet) l x,
    (forall y, sub_id (g y) = sub_id y) ->
    NoDup (map sub_id l) -> In x l ->
    find (fun y => sub_id y =? sub_id x) (map g l) = Some (g x).
Proof.
  intros g l x Hg. induction l as [|a t IH]; intros Hn Hin.
  - destruct Hin.
  - cbn [map] in Hn. apply NoDup_cons_iff in Hn. destruct Hn as [Hna Hn].
    cbn [map find]. rewrite Hg.
    destruct Hin as [->|Hin].
    + rewrite Z.eqb_refl. reflexivity.
    + destruct (Z.eqb_spec (sub_id a) (sub_id x)) as [E|_].
      * exfalso. apply Hna. rewrite E. apply in_map. exact Hin.
      * exact (IH Hn Hin).
Qed.

Lemma find_updated :
  forall f l x,
    NoDup (map sub_id l) -> In x l ->
    find (fun y => sub_id y =? sub_id x) (update_cursor (sub_id x) f l)
    = Some (if cursor_open (sub_id x) x
            then set_next_auto_assign_ip (f (next_auto_assign_ip x)) x
            else x).
Proof.
  intros f l x Hn Hin. unfold update_cursor.
  apply (find_by_id
           (fun s => if cursor_open (sub_id x) s
                     then set_next_auto_assign_ip (f (next_auto_assign_ip s)) s
                     else s) l x); auto.
  intro y. destruct (cursor_open (sub_id x) y); reflexivity.
Qed.

Lemma subnet_update_set_full_Ok :
  forall context subnet w n w',
    subnet_update_set_full context subnet w = (Ok n, w') ->
    subnets (db w')
    = update_cursor (sub_id subnet) (fun _ => -1) (subnets (db w)).
Proof.
  intros context subnet w n w' H.
  unfold subnet_update_set_full, bind, stmt, get_db, modify_db, ret in H.
  destruct (faults w) as [|[|] t]; cbn in H; try discriminate;
    injection H as _ <-; reflexivity.
Qed.

Lemma subnet_update_next_auto_assign_ip_Ok :
  forall context subnet w n w',
    subnet_update_next_auto_assign_ip context subnet w = (Ok n, w') ->
    subnets (db w')
    = update_cursor (sub_id subnet) (fun c => c + 1) (subnets (db w)).
Proof.
  intros context subnet w n w' H.
  unfold subnet_update_next_auto_assign_ip, bind, stmt, get_db, modify_db,
    ret in H.
  destruct (faults w) as [|[|] t]; cbn in H; try discriminate;
    injection H as _ <-; reflexivity.
Qed.

Lemma refresh_subnet_Ok :
  forall s w s' w',
    refresh_subnet s w = (Ok s', w') ->
    find (fun x => sub_id x =? sub_id s) (subnets (db w)) = Some s'.
Proof.
  intros s w s' w' H.
  unfold refresh_subnet, bind, stmt, get_db, ret, raise in H.
  destruct (faults w) as [|[|] t]; cbn in H; try discriminate;
    destruct (find (fun x => sub_id x =? sub_id s) (subnets (db w)));
    try discriminate; injection H as <- _; reflexivity.
Qed.

(** The loop of [select_subnet] when no address is asked for. *)
Lemma select_loop_auto :
  forall rows context ip subnet_ids w s w',
    supplied ip = false ->
    NoDup (map sub_id (subnets (db w))) ->
    NoDup (map (fun r => sub_id (fst r)) rows) ->
    (forall r, In r rows ->
               In (fst r) (subnets (db w))
               /\ next_auto_assign_ip (fst r) <> -1) ->
    select_loop rows context ip subnet_ids w = (Ok (Some s), w') ->
    exists x n,
      In (x, n) rows
      /\ if ip_version x =? 4 then
           (first_ip x <= next_auto_assign_ip x <= last_ip x
            /\ s = set_next_auto_assign_ip (next_auto_assign_ip x + 1) x)
           \/ ((next_auto_assign_ip x < first_ip x
                \/ last_ip x < next_auto_assign_ip x)
               /\ s = set_next_auto_assign_ip (-1) x)
         else s = x.
Proof.
  induction rows as [|[x k] rest IH];
    intros context ip subnet_ids w s w' Hip Hn Hrows Hin H.
  - cbn in H. unfold ret in H. discriminate.
  - cbn [select_loop] in H.
    assert (Hskip : match ip with
                    | Some a =>
                        if ip_truthy a then
                          requested_ip <-
                            (if (net_ver (cidr x) =? 4) && negb (ip_ver a =? 4)
                             then lift (ipv4 a) else ret a) ;;
                          if negb (net_contains (cidr x) requested_ip) then
                            match subnet_ids with
                            | Some _ => raise IPAddressNotInSubnet
                            | None => ret true
                            end
                          else ret false
                        else ret false
                    | None => ret false
                    end = ret false).
    { destruct ip as [a|]; [|reflexivity].
      cbn in Hip. rewrite Hip. reflexivity. }
    rewrite Hskip in H. unfold bind at 1 in H. unfold ret at 1 in H.
    rewrite Hip in H. cbn [negb andb] in H.
    cbn [map] in Hrows. apply NoDup_cons_iff in Hrows.
    destruct Hrows as [Hx Hrows]. cbn [fst] in Hx.
    destruct (Hin (x, k) (or_introl eq_refl)) as [Hxin Hopen].
    cbn [fst] in Hxin, Hopen.
    assert (Hrest :
              forall w1,
                subnets (db w1)
                = update_cursor (sub_id x) (fun _ => -1) (subnets (db w)) ->
                NoDup (map sub_id (subnets (db w1)))
                /\ forall r, In r rest ->
                             In (fst r) (subnets (db w1))
                             /\ next_auto_assign_ip (fst r) <> -1).
    { intros w1 E. rewrite E. split.
      - rewrite update_cursor_ids. exact Hn.
      - intros r Hr. destruct (Hin r (or_intror Hr)) as [Hr1 Hr2].
        split; [|exact Hr2]. apply update_cursor_other; [exact Hr1|].
        intro Eid. apply Hx. rewrite <- Eid.
        apply (in_map (fun r => sub_id (fst r))). exact Hr. }
    match type of H with
    | (if ?b then _ else _) _ = _ => destruct b
    end.
    + destruct (ip_version x =? 4) eqn:Ev.
      * apply bind_Ok in H. destruct H as [updated [w1 [Hu H]]].
        destruct (negb (updated =? 0)); [|unfold ret in H; discriminate].
        apply bind_Ok in H. destruct H as [s' [w2 [Hr H]]].
        unfold ret in H. injection H as <- _.
        apply refresh_subnet_Ok in Hr.
        assert (Eopen : cursor_open (sub_id x) x = true).
        { unfold cursor_open. rewrite Z.eqb_refl. cbn [andb].
          apply negb_true_iff. apply Z.eqb_neq. exact Hopen. }
        exists x, k. split; [left; reflexivity|]. rewrite Ev.
        destruct ((next_auto_assign_ip x <? first_ip x)
                  || (last_ip x <? next_auto_assign_ip x)) eqn:Eout.
        -- apply subnet_update_set_full_Ok in Hu. rewrite Hu in Hr.
           rewrite (find_updated _ _ x Hn Hxin), Eopen in Hr.
           injection Hr as <-. right. split; [|reflexivity].
           apply orb_true_iff in Eout.
           destruct Eout as [E|E]; apply Z.ltb_lt in E; auto.
        -- apply subnet_update_next_auto_assign_ip_Ok in Hu. rewrite Hu in Hr.
           rewrite (find_updated _ _ x Hn Hxin), Eopen in Hr.
           injection Hr as <-. left. split; [|reflexivity].
           apply orb_false_iff in Eout. destruct Eout as [E1 E2].
           apply Z.ltb_ge in E1. apply Z.ltb_ge in E2. lia.
      * unfold ret in H. injection H as <- _.
        exists x, k. split; [left; reflexivity|]. rewrite Ev. reflexivity.
    + apply bind_Ok in H. destruct H as [u [w1 [Hu H]]].
      apply subnet_update_set_full_Ok in Hu.
      destruct (Hrest w1 Hu) as [Hn1 Hin1].
      destruct (IH _ _ _ _ _ _ Hip Hn1 Hrows Hin1 H) as [y [n [Hy Hres]]].
      exists y, n. split; [right; exact Hy | exact Hres].
Qed.

Lemma NoDup_filter_map :
  forall (A B : Type) (f : A -> B) (p : A -> bool) l,
    NoDup (map f l) -> NoDup (map f (filter p l)).
Proof.
  intros A B f p l. induction l as [|a t IH]; intro Hn; cbn [filter map].
  - constructor.
  - cbn [map] in Hn. apply NoDup_cons_iff in Hn. destruct Hn as [Ha Hn].
    destruct (p a); [|exact (IH Hn)].
    cbn [map]. constructor; [|exact (IH Hn)].
    intro Hin. apply Ha. apply in_map_iff in Hin.
    destruct Hin as [y [Ey Hy]]. apply filter_In in Hy.
    rewrite <- Ey. apply in_map. tauto.
Qed.

(** [select_subnet] when no address is asked for: the subnet it returns is
    a stored subnet that passes the filters of the query.  A v6 subnet is
    returned as it is stored.  A v4 subnet is returned with its cursor
    moved: one further when the cursor stood between [first_ip] and
    [last_ip], so that the address before the new cursor is the caller's
    and lies in that range, and to [-1] (full) when it stood outside.  The
    subnet id is taken to be the key of the table. *)
Theorem select_subnet_auto :
  forall context net_id ip segment subnet_ids ip_ver w s w',
    supplied ip = false ->
    NoDup (map sub_id (subnets (db w))) ->
    select_subnet context net_id ip segment subnet_ids ip_ver w
    = (Ok (Some s), w') ->
    exists x,
      In x (subnets (db w))
      /\ most_full_candidate net_id segment subnet_ids ip_ver x = true
      /\ if ip_version x =? 4 then
           (first_ip x <= next_auto_assign_ip x <= last_ip x
            /\ s = set_next_auto_assign_ip (next_auto_assign_ip x + 1) x)
           \/ ((next_auto_assign_ip x < first_ip x
                \/ last_ip x < next_auto_assign_ip x)
               /\ s = set_next_auto_assign_ip (-1) x)
         else s = x.
Proof.
  intros context net_id ip segment subnet_ids ip_ver w s w' Hip Hn H.
  apply PolicyFacts.with_begin_Ok in H.
  apply bind_Ok in H. destruct H as [rows [w1 [Hq H]]].
  unfold subnet_find_ordered_by_most_full in Hq.
  apply bind_Ok in Hq. destruct Hq as [u [w2 [Hs Hq]]].
  apply stmt_Ok in Hs. destruct Hs as [Hdb _].
  unfold bind, get_db, ret in Hq. injection Hq as <- <-.
  rewrite Hdb in H.
  set (cands := filter (most_full_candidate net_id segment subnet_ids ip_ver)
                       (subnets (db w))) in *.
  assert (Hperm : Permutation
                    (map (fun s => (s, count_ips (db w) s)) cands)
                    (most_full_rows (db w) net_id segment subnet_ids ip_ver))
    by apply OrderFacts.order_by_perm.
  assert (Hin : forall r,
             In r (most_full_rows (db w) net_id segment subnet_ids ip_ver) ->
             In (fst r) (subnets (db w))
             /\ most_full_candidate net_id segment subnet_ids ip_ver (fst r)
                = true).
  { intros r Hr. apply (Permutation_in _ (Permutation_sym Hperm)) in Hr.
    apply in_map_iff in Hr. destruct Hr as [y [<- Hy]].
    apply filter_In in Hy. exact Hy. }
  assert (Hopen : forall x,
             most_full_candidate net_id segment subnet_ids ip_ver x = true ->
             next_auto_assign_ip x <> -1).
  { intros x Hx. unfold most_full_candidate in Hx.
    apply andb_true_iff in Hx. destruct Hx as [Hx _].
    apply andb_true_iff in Hx. destruct Hx as [_ Hx].
    apply negb_true_iff in Hx. apply Z.eqb_neq in Hx. exact Hx. }
  destruct (select_loop_auto
              (most_full_rows (db w) net_id segment subnet_ids ip_ver)
              context ip subnet_ids w2 s w' Hip) as [x [n [Hx Hres]]].
  - rewrite Hdb. exact Hn.
  - apply (Permutation_NoDup
             (Permutation_map (fun r => sub_id (fst r)) Hperm)).
    rewrite map_map. cbn [fst].
    apply NoDup_filter_map. exact Hn.
  - intros r Hr. destruct (Hin r Hr) as [H1 H2]. rewrite Hdb.
    split; [exact H1 | exact (Hopen _ H2)].
  - exact H.
  - exists x. destruct (Hin (x, n) Hx) as [H1 H2]. cbn [fst] in H1, H2.
    split; [exact H1|]. split; [exact H2 | exact Hres].
Qed.

(** On [10.0.0.0/29] the cursor stands on [10.0.0.0] and moves to
    [10.0.0.1]. *)
Lemma select_subnet_auto_example :
  exists s w',
    select_subnet tenant 1 None None None None world_v4 = (Ok (Some s), w')
    /\ exists x,
         In x (subnets (db world_v4))
         /\ most_full_candidate 1 None None None x = true
         /\ if ip_version x =? 4 then
              (first_ip x <= next_auto_assign_ip x <= last_ip x
               /\ s = set_next_auto_assign_ip (next_auto_assign_ip x + 1) x)
              \/ ((next_auto_assign_ip x < first_ip x
                   \/ last_ip x < next_auto_assign_ip x)
                  /\ s = set_next_auto_assign_ip (-1) x)
            else s = x.
Proof.
  eexists. eexists. split; [vm_compute; reflexivity|].
  eapply (select_subnet_auto tenant 1 None None None None world_v4 _ _
            eq_refl).
  - cbn. constructor; [intros [] | constructor].
  - vm_compute. reflexivity.
Defined.

End AutoFacts.

(** ** What [allocate_ip_address] adds to the list *)

Module AllocatedFacts.

Import Examples MoreExamples PyFacts.
Open Scope string_scope.
Open Scope Z_scope.

(** *** The reuse phase *)

Lemma reallocate_loop_inv :
  forall n context kw filters w0 w l w',
    reuse_inv w0 w ->
    reallocate_loop n context kw filters w = (Ok l, w') ->
    reuse_inv w0 w'.
Proof.
  induction n as [|n IH]; intros context kw filters w0 w l w' I0 H.
  - unfold reallocate_loop, ret in H. injection H as _ <-. exact I0.
  - cbn [reallocate_loop] in H.
    apply bind_Ok in H. destruct H as [c [w1 [Ha H]]].
    destruct (ReuseFacts.reallocate_attempt_reuse _ _ _ _ _ _ _ I0 Ha)
      as [[I1 _] _].
    destruct c as [| |x].
    + exact (IH _ _ _ _ _ _ _ I1 H).
    + unfold ret in H. injection H as _ <-. exact I1.
    + unfold ret in H. injection H as _ <-. exact I1.
Qed.

Lemma ip_update_kwargs_allocated :
  forall context kw T now r net_id,
    network_id r = net_id ->
    allocated_to context net_id (ip_update_kwargs context kw T now r).
Proof.
  intros context kw T now r net_id H. unfold allocated_to. cbn. auto.
Qed.

(** [attempt_to_reallocate_ip] keeps the transaction ids fresh, and what
    it returns is allocated to the caller on the network. *)
Lemma attempt_to_reallocate_ip_allocated :
  forall conf context net_id port_id reuse_after version ip_address segment
         subs kw w l w',
    transactions_fresh w ->
    attempt_to_reallocate_ip conf context net_id port_id reuse_after version
                             ip_address segment subs kw w = (Ok l, w') ->
    transactions_fresh w' /\ Forall (allocated_to context net_id) l.
Proof.
  intros conf context net_id port_id reuse_after version ip_address segment
         subs kw w l w' Hfresh H.
  destruct (ReallocateFacts.attempt_to_reallocate_ip_cases conf context net_id
              port_id reuse_after version ip_address segment subs kw)
    as [E|E]; rewrite E in H.
  { unfold ret in H. injection H as <- <-. auto. }
  apply bind_Ok in H. destruct H as [ids [w1 [Hs H]]].
  apply ReuseFacts.reallocate_sub_ids_Ok in Hs.
  destruct Hs as [Hdb [Hnow [Hid _]]].
  assert (I1 : reuse_inv w1 w1).
  { unfold reuse_inv, transactions_fresh. rewrite Hdb, Hid. auto. }
  split.
  - destruct (reallocate_loop_inv _ _ _ _ _ _ _ _ I1 H) as [_ [Hf _]].
    exact Hf.
  - destruct (ReallocateFacts.reallocate_loop_result _ _ _ _ _ _ _ H)
      as [-> | [a [-> _]]]; [constructor|].
    assert (Hd : forall fs r,
               _model_query (utcnow w1) (elevated context) MIPAddress
                 (_listify (ip_kwargs net_id reuse_after
                              (version_or_both version) ip_address ids))
               = Ok fs ->
               matches ip_col _deallocated deallocated_at fs r = true ->
               reusable (utcnow w1) net_id reuse_after version ip_address
                        ids r).
    { intros fs r Hfs Hm.
      exact (ReuseFacts.claim_filters_reusable (utcnow w1) context net_id
               reuse_after version ip_address ids fs r Hfs Hm). }
    assert (Hd' : forall fs r,
               _model_query (utcnow w1) (elevated context) MIPAddress
                 (_listify (ip_kwargs net_id reuse_after
                              (version_or_both version) ip_address ids))
               = Ok fs ->
               matches ip_col _deallocated deallocated_at fs r = true ->
               deallocated_at r <> None).
    { intros fs r Hfs Hm.
      destruct (Hd fs r Hfs Hm) as [_ [[d [Ed _]] _]]. congruence. }
    destruct (ReuseFacts.reallocate_loop_reuse _ _ _ _ w1 w1 a w' I1
                (Z.le_refl _) Hd' H)
      as [r [T [fs [Hin [HT [Hfs [Hm Ea]]]]]]].
    constructor; [|constructor]. rewrite Ea.
    apply ip_update_kwargs_allocated.
    destruct (Hd fs r Hfs Hm) as [R1 _]. exact R1.
Qed.

Lemma strategy_attempt_allocated :
  forall conf s context net_id port_id reuse_after version ip_address segment
         subs kw w l w',
    transactions_fresh w ->
    strategy_attempt_to_reallocate_ip conf s context net_id port_id reuse_after
      version ip_address segment subs kw w = (Ok l, w') ->
    transactions_fresh w' /\ Forall (allocated_to context net_id) l.
Proof.
  intros conf s context net_id port_id reuse_after version ip_address segment
         subs kw w l w' Hfresh H.
  assert (Hboth :
            BOTH_attempt_to_reallocate_ip conf context net_id port_id
              reuse_after version ip_address segment subs kw w = (Ok l, w') ->
            transactions_fresh w' /\ Forall (allocated_to context net_id) l).
  { intro Hb. unfold BOTH_attempt_to_reallocate_ip in Hb.
    apply bind_Ok in Hb. destruct Hb as [a4 [w1 [H4 Hb]]].
    apply bind_Ok in Hb. destruct Hb as [a6 [w2 [H6 Hb]]].
    unfold ret in Hb. injection Hb as <- <-.
    destruct (attempt_to_reallocate_ip_allocated _ _ _ _ _ _ _ _ _ _ _ _ _
                Hfresh H4) as [F1 P1].
    destruct (attempt_to_reallocate_ip_allocated _ _ _ _ _ _ _ _ _ _ _ _ _
                F1 H6) as [F2 P2].
    split; [exact F2|]. apply Forall_app. auto. }
  destruct s; cbn [strategy_attempt_to_reallocate_ip] in H.
  - exact (attempt_to_reallocate_ip_allocated _ _ _ _ _ _ _ _ _ _ _ _ _
             Hfresh H).
  - exact (Hboth H).
  - exact (Hboth H).
Qed.

Lemma reallocate_each_allocated :
  forall conf s ips context new_addresses net_id port_id reuse_after segment
         subs kw w l w',
    transactions_fresh w ->
    reallocate_each conf s context new_addresses net_id port_id reuse_after
                    segment subs kw ips w = (Ok l, w') ->
    exists added,
      l = (new_addresses ++ added)%list
      /\ Forall (allocated_to context net_id) added.
Proof.
  intros conf s ips.
  induction ips as [|ip t IH];
    intros context new_addresses net_id port_id reuse_after segment subs kw
           w l w' Hfresh H; cbn [reallocate_each] in H.
  - unfold ret in H. injection H as <- _. exists []. rewrite app_nil_r.
    auto.
  - apply bind_Ok in H. destruct H as [l1 [w1 [H1 H]]].
    destruct (strategy_attempt_allocated _ _ _ _ _ _ _ _ _ _ _ _ _ _ Hfresh H1)
      as [F1 P1].
    destruct (IH _ _ _ _ _ _ _ _ _ _ _ F1 H) as [added [-> P2]].
    exists (l1 ++ added)%list. rewrite app_assoc.
    split; [reflexivity|]. apply Forall_app. auto.
Qed.

(** *** The create phase *)

Lemma ip_address_create_allocated :
  forall context addr sid ver net_id atype w row w',
    ip_address_create context addr sid ver net_id atype w = (Ok row, w') ->
    allocated_to context net_id row.
Proof.
  intros context addr sid ver net_id atype w row w' H.
  unfold ip_address_create in H.
  apply bind_Ok in H. destruct H as [u [w1 [_ H]]].
  apply bind_Ok in H. destruct H as [id [w2 [_ H]]].
  apply bind_Ok in H. destruct H as [w0 [w3 [_ H]]].
  match type of H with
  | (if ?c then _ else _) _ = _ => destruct c
  end.
  - unfold raise in H. discriminate.
  - unfold bind, modify_db, ret in H. injection H as <- _.
    unfold allocated_to. cbn. auto.
Qed.

Lemma _allocate_from_subnet_allocated :
  forall context net_id subnet port_id reuse_after ip_address kw w row w',
    _allocate_from_subnet context net_id subnet port_id reuse_after ip_address
                          kw w = (Ok row, w') ->
    allocated_to context net_id row.
Proof.
  intros context net_id subnet port_id reuse_after ip_address kw w row w' H.
  unfold _allocate_from_subnet in H.
  apply bind_Ok in H. destruct H as [next_ip [w1 [_ H]]].
  destruct (violates_policy subnet ip_address next_ip);
    [unfold raise in H; discriminate|].
  apply try_except_Ok in H. destruct H as [H | [e [w2 [_ [_ H]]]]].
  2:{ destruct (supplied ip_address); unfold raise in H; discriminate. }
  unfold insert_address in H. apply PolicyFacts.with_begin_Ok in H.
  exact (ip_address_create_allocated _ _ _ _ _ _ _ _ _ H).
Qed.

Lemma v6_find_network :
  forall now context net_id x reuse_after sid fs,
    _model_query now context MIPAddress
      (_listify [("network_id", PScalar (SId net_id));
                 ("ip_address", PScalar (SAddr x));
                 ("reuse_after", PScalar (SInt reuse_after));
                 ("deallocated", PScalar (SBool true));
                 ("subnet_id", PScalar (SId sid))]) = Ok fs ->
    In (F_in "network_id" [SId net_id]) fs.
Proof.
  intros now [tenant [|]] net_id [ver [|q|q]] reuse_after sid fs H;
    lazy -[Z.sub Z.add ipv6] in H;
    try discriminate; injection H as <-;
    apply in_eq.
Qed.

Lemma v6_loop_allocated :
  forall remaining g context net_id subnet reuse_after kw w row w',
    v6_loop remaining g context net_id subnet reuse_after kw w = (Ok row, w') ->
    allocated_to context net_id row.
Proof.
  induction remaining as [|n IH];
    intros g context net_id subnet reuse_after kw w row w' H.
  - cbn [v6_loop] in H. apply bind_Ok in H. destruct H as [[c g'] [w1 [_ H]]].
    unfold raise in H. discriminate.
  - cbn [v6_loop] in H. apply bind_Ok in H. destruct H as [[c g'] [w1 [_ H]]].
    apply bind_Ok in H. destruct H as [a [w2 [Ha H]]].
    unfold lift in Ha.
    destruct (IPAddress_of_int c) as [a'|e] eqn:Hc; [|discriminate].
    injection Ha as <- <-.
    destruct (match get_ip_policy_cidrs subnet with
              | Some p => ipset_contains p (ipv6 a')
              | None => false
              end) eqn:Hp.
    { exact (IH _ _ _ _ _ _ _ _ _ H). }
    apply bind_Ok in H. destruct H as [claimed [w3 [Hclaim H]]].
    apply PolicyFacts.with_begin_Ok in Hclaim.
    apply bind_Ok in Hclaim. destruct Hclaim as [found [w4 [Hfind Hclaim]]].
    destruct claimed as [r|].
    + unfold ret in H. injection H as <- <-.
      destruct found as [row0|]; [|unfold ret in Hclaim; discriminate].
      apply bind_Ok in Hclaim. destruct Hclaim as [w0 [w5 [_ Hclaim]]].
      apply bind_Ok in Hclaim. destruct Hclaim as [r' [w6 [Hupd Hclaim]]].
      unfold ret in Hclaim. injection Hclaim as <- _.
      apply PolicyFacts.ip_address_update_Ok in Hupd. subst r'.
      apply ReallocateFacts.ip_address_find_one_Ok in Hfind.
      destruct Hfind as [_ [fs [Hfs Ho]]].
      symmetry in Ho. unfold first in Ho. apply find_some in Ho.
      destruct Ho as [_ Hm].
      pose proof (ReallocateFacts.matches_In _ _ _ _ _ _ _ Hm
                    (v6_find_network _ _ _ _ _ _ _ Hfs)) as Ht.
      cbn [eval_filter existsb] in Ht. rewrite orb_false_r in Ht.
      change (ip_col "network_id" row0) with (SId (network_id row0)) in Ht.
      cbn [scalar_eqb] in Ht. apply Z.eqb_eq in Ht.
      unfold allocated_to. cbn. auto.
    + destruct found as [row0|].
      { apply bind_Ok in Hclaim. destruct Hclaim as [w0 [w5 [_ Hclaim]]].
        apply bind_Ok in Hclaim. destruct Hclaim as [r' [w6 [_ Hclaim]]].
        unfold ret in Hclaim. discriminate. }
      apply bind_Ok in H. destruct H as [created [w5 [Hcreate H]]].
      destruct created as [r|].
      * unfold ret in H. injection H as <- <-.
        apply try_except_Ok in Hcreate.
        destruct Hcreate as [Hcreate | [e [w6 [_ [_ Hcreate]]]]];
          [|unfold ret in Hcreate; discriminate].
        apply bind_Ok in Hcreate. destruct Hcreate as [r' [w6 [Hc' Hcreate]]].
        unfold ret in Hcreate. injection Hcreate as <- _.
        apply PolicyFacts.with_begin_Ok in Hc'.
        exact (ip_address_create_allocated _ _ _ _ _ _ _ _ _ Hc').
      * exact (IH _ _ _ _ _ _ _ _ _ H).
Qed.

Lemma allocate_from_allocated :
  forall conf context net_id subnet port_id reuse_after ip_address kw w row w',
    allocate_from conf context net_id subnet port_id reuse_after ip_address
                  kw w = (Ok row, w') ->
    allocated_to context net_id row.
Proof.
  intros conf context net_id subnet port_id reuse_after ip_address kw w row w'
         H.
  unfold allocate_from, _allocate_from_v6_subnet in H.
  destruct (ip_version subnet =? 4).
  - exact (_allocate_from_subnet_allocated _ _ _ _ _ _ _ _ _ _ H).
  - destruct (supplied ip_address).
    + exact (_allocate_from_subnet_allocated _ _ _ _ _ _ _ _ _ _ H).
    + exact (v6_loop_allocated _ _ _ _ _ _ _ _ _ _ H).
Qed.

Lemma _allocate_ips_from_subnets_allocated :
  forall conf subs context new_addresses net_id port_id reuse_after ip_address
         kw w r w',
    _allocate_ips_from_subnets conf context new_addresses net_id subs port_id
                               reuse_after ip_address kw w = (r, w') ->
    exists added oe,
      r = Ok ((new_addresses ++ added)%list, oe)
      /\ Forall (allocated_to context net_id) added.
Proof.
  intros conf subs.
  induction subs as [|[s|] rest IH];
    intros context new_addresses net_id port_id reuse_after ip_address kw w r w'
           H; cbn [_allocate_ips_from_subnets] in H.
  - unfold ret in H. injection H as <- _. exists [], None.
    rewrite app_nil_r. auto.
  - unfold bind at 1 in H. unfold try_except in H. unfold bind at 1 in H.
    destruct (allocate_from conf context net_id s port_id reuse_after
                            ip_address kw w) as [[a|e] w1] eqn:Ea.
    + unfold ret in H. apply IH in H.
      destruct H as [added [oe [-> Hall]]].
      exists (a :: added), oe. rewrite <- app_assoc. cbn.
      split; [reflexivity|]. constructor; [|exact Hall].
      exact (allocate_from_allocated _ _ _ _ _ _ _ _ _ _ _ Ea).
    + unfold any_Exception, ret in H. injection H as <- _.
      exists [], (Some e). rewrite app_nil_r. auto.
  - apply IH in H. destruct H as [added [oe [-> Hall]]].
    exists added, oe. auto.
Qed.

Lemma _try_allocate_ip_address_allocated :
  forall conf retries s context new_addresses net_id port_id reuse_after
         segment version kw ip_addr sub w l w',
    _try_allocate_ip_address conf retries s context new_addresses net_id
      port_id reuse_after segment version kw ip_addr sub w = (Ok l, w') ->
    exists added,
      l = (new_addresses ++ added)%list
      /\ Forall (allocated_to context net_id) added.
Proof.
  intros conf retries.
  induction retries as [|n IH];
    intros s context new_addresses net_id port_id reuse_after segment version
           kw ip_addr sub w l w' H; cbn [_try_allocate_ip_address] in H.
  - unfold ret in H. injection H as <- _. exists []. rewrite app_nil_r.
    auto.
  - apply bind_Ok in H. destruct H as [subs [w1 [_ H]]].
    unfold bind at 1 in H.
    destruct (_allocate_ips_from_subnets conf context new_addresses net_id subs
                port_id reuse_after ip_addr kw w1) as [r w2] eqn:E.
    apply _allocate_ips_from_subnets_allocated in E.
    destruct E as [added [oe [-> Hall]]].
    destruct oe as [e|].
    + destruct (is_IPAddressRetryableFailure e);
        [|unfold raise in H; discriminate].
      apply IH in H. destruct H as [added' [-> Hall']].
      exists (added ++ added')%list. rewrite app_assoc.
      split; [reflexivity|]. apply Forall_app. auto.
    + unfold ret in H. injection H as <- _. exists added. auto.
Qed.

Lemma allocate_each_allocated :
  forall conf s pairs context new_addresses net_id port_id reuse_after segment
         version kw w l w',
    allocate_each conf s context new_addresses net_id port_id reuse_after
                  segment version kw pairs w = (Ok l, w') ->
    exists added,
      l = (new_addresses ++ added)%list
      /\ Forall (allocated_to context net_id) added.
Proof.
  intros conf s pairs.
  induction pairs as [|[ip sub] t IH];
    intros context new_addresses net_id port_id reuse_after segment version kw
           w l w' H; cbn [allocate_each] in H.
  - unfold ret in H. injection H as <- _. exists []. rewrite app_nil_r.
    auto.
  - apply bind_Ok in H. destruct H as [l1 [w1 [H1 H]]].
    apply _try_allocate_ip_address_allocated in H1.
    destruct H1 as [a1 [-> P1]].
    apply IH in H. destruct H as [added [-> P2]].
    exists (a1 ++ added)%list. rewrite app_assoc.
    split; [reflexivity|]. apply Forall_app. auto.
Qed.

(** Every address [allocate_ip_address] adds to the list belongs to the
    network asked for and is held by the caller: its [used_by_tenant_id] is
    the caller's tenant, it is marked allocated and has no deallocation
    time, whether it was claimed for reuse or created.  The transaction ids
    on the stored addresses are taken to have been issued before the
    call. *)
Theorem allocate_ip_address_allocated :
  forall conf s context new_addresses net_id port_id reuse_after segment
         version ip_addresses subs kw w l w',
    transactions_fresh w ->
    allocate_ip_address conf s context new_addresses net_id port_id reuse_after
                        segment version ip_addresses subs kw w = (Ok l, w') ->
    exists added,
      l = (new_addresses ++ added)%list
      /\ Forall (allocated_to context net_id) added.
Proof.
  intros conf s context new_addresses net_id port_id reuse_after segment
         version ip_addresses subs kw w l w' Hfresh H.
  unfold allocate_ip_address in H.
  apply bind_Ok in H. destruct H as [l1 [w1 [H1 H]]].
  assert (P1 : exists added,
             l1 = (new_addresses ++ added)%list
             /\ Forall (allocated_to context net_id) added).
  { unfold reallocate_phase in H1. destruct ip_addresses as [|ip0 t].
    - apply bind_Ok in H1. destruct H1 as [l0 [w0 [H0 H1]]].
      unfold ret in H1. injection H1 as <- _.
      destruct (strategy_attempt_allocated _ _ _ _ _ _ _ _ _ _ _ _ _ _
                  Hfresh H0) as [_ P0].
      exists l0. auto.
    - exact (reallocate_each_allocated _ _ _ _ _ _ _ _ _ _ _ _ _ _
               Hfresh H1). }
  destruct P1 as [a1 [-> P1]].
  apply bind_Ok in H. destruct H as [sat [w2 [_ H]]].
  destruct sat.
  - unfold ret in H. injection H as <- _. exists a1. auto.
  - apply bind_Ok in H. destruct H as [l2 [w3 [H2 H]]].
    assert (P2 : exists added,
               l2 = ((new_addresses ++ a1) ++ added)%list
               /\ Forall (allocated_to context net_id) added).
    { unfold create_phase in H2.
      destruct ip_addresses as [|ip0 t]; [destruct subs as [|s0 t0]|].
      - exact (_try_allocate_ip_address_allocated _ _ _ _ _ _ _ _ _ _ _ _ _
                 _ _ _ H2).
      - exact (allocate_each_allocated _ _ _ _ _ _ _ _ _ _ _ _ _ _ H2).
      - exact (allocate_each_allocated _ _ _ _ _ _ _ _ _ _ _ _ _ _ H2). }
    destruct P2 as [a2 [-> P2]].
    apply bind_Ok in H. destruct H as [sat2 [w4 [_ H]]].
    destruct sat2; [|unfold raise in H; discriminate].
    apply bind_Ok in H. destruct H as [u [w5 [_ H]]].
    unfold ret in H. injection H as <- _.
    exists (a1 ++ a2)%list. rewrite app_assoc.
    split; [reflexivity|]. apply Forall_app. auto.
Qed.

(** On the dual-stack network, [BOTH] creates a v4 and a v6 address for
    the tenant. *)
Lemma allocate_ip_address_allocated_example :
  exists l w',
    allocate_ip_address conf BOTH tenant [] 1 port_a 0 None None [] []
                        no_kwargs world_dual = (Ok l, w')
    /\ exists added,
         l = ([] ++ added)%list /\ Forall (allocated_to tenant 1) added.
Proof.
  eexists. eexists. split; [vm_compute; reflexivity|].
  eapply (allocate_ip_address_allocated conf BOTH tenant [] 1 port_a 0 None
            None [] [] no_kwargs world_dual _ _).
  - intros r T Hin Ht. cbn in Hin. destruct Hin.
  - vm_compute. reflexivity.
Defined.

End AllocatedFacts.

(** ** The v6 candidates lie in the subnet *)

Module GenRangeFacts.

Import Examples MoreExamples.
Open Scope Z_scope.

Lemma fits_bits :
  forall n x,
    0 <= n -> 0 <= x ->
    (x < 2 ^ n <-> forall m, n <= m -> Z.testbit x m = false).
Proof.
  intros n x Hn Hx. split.
  - intros Hlt m Hm.
    destruct (Z.eq_dec x 0) as [->|Hne]; [apply Z.testbit_0_l|].
    apply Z.bits_above_log2; [exact Hx|].
    assert (Z.log2 x < n) by (apply Z.log2_lt_pow2; lia). lia.
  - intro Hbits.
    assert (E : x mod 2 ^ n = x).
    { apply Z.bits_inj'. intros i Hi. rewrite Z.testbit_mod_pow2 by exact Hn.
      destruct (Z.ltb_spec i n) as [Hlt|Hge]; [reflexivity|].
      cbn [andb]. symmetry. apply Hbits. exact Hge. }
    rewrite <- E. apply Z.mod_pos_bound. apply Z.pow_pos_nonneg; lia.
Qed.

Lemma fits_high :
  forall n x m, 0 <= n -> fits n x -> n <= m -> Z.testbit x m = false.
Proof.
  intros n x m Hn [H0 H1] Hm. apply (proj1 (fits_bits n x Hn H0) H1 m Hm).
Qed.

Lemma fits_of_bits :
  forall n x,
    0 <= n -> 0 <= x -> (forall m, n <= m -> Z.testbit x m = false) ->
    fits n x.
Proof.
  intros n x Hn Hx Hb. split; [exact Hx|]. apply fits_bits; assumption.
Qed.

Lemma fits_lxor :
  forall n a b, 0 <= n -> fits n a -> fits n b -> fits n (Z.lxor a b).
Proof.
  intros n a b Hn Ha Hb. apply fits_of_bits; [exact Hn | |].
  - apply Z.lxor_nonneg. destruct Ha, Hb. tauto.
  - intros m Hm. rewrite Z.lxor_spec.
    rewrite (fits_high n a m Hn Ha Hm), (fits_high n b m Hn Hb Hm).
    reflexivity.
Qed.

Lemma fits_lor :
  forall n a b, 0 <= n -> fits n a -> fits n b -> fits n (Z.lor a b).
Proof.
  intros n a b Hn Ha Hb. apply fits_of_bits; [exact Hn | |].
  - apply Z.lor_nonneg. destruct Ha, Hb. tauto.
  - intros m Hm. rewrite Z.lor_spec.
    rewrite (fits_high n a m Hn Ha Hm), (fits_high n b m Hn Hb Hm).
    reflexivity.
Qed.

Lemma fits_land_r :
  forall n a b, 0 <= n -> fits n b -> fits n (Z.land a b).
Proof.
  intros n a b Hn Hb. apply fits_of_bits; [exact Hn | |].
  - apply Z.land_nonneg. destruct Hb. tauto.
  - intros m Hm. rewrite Z.land_spec.
    rewrite (fits_high n b m Hn Hb Hm). apply andb_false_r.
Qed.

Lemma fits_shiftr :
  forall n a k, 0 <= n -> 0 <= k -> fits n a -> fits n (Z.shiftr a k).
Proof.
  intros n a k Hn Hk Ha. apply fits_of_bits; [exact Hn | |].
  - apply Z.shiftr_nonneg. destruct Ha. assumption.
  - intros m Hm. rewrite Z.shiftr_spec by lia.
    apply (fits_high n a (m + k) Hn Ha). lia.
Qed.

Lemma fits_shiftl :
  forall n a k, 0 <= n -> 0 <= k -> fits n a -> fits (n + k) (Z.shiftl a k).
Proof.
  intros n a k Hn Hk Ha. apply fits_of_bits; [lia | |].
  - apply Z.shiftl_nonneg. destruct Ha. assumption.
  - intros m Hm. rewrite Z.shiftl_spec by lia.
    apply (fits_high n a (m - k) Hn Ha). lia.
Qed.

Lemma fits_mono :
  forall n m x, n <= m -> fits n x -> fits m x.
Proof.
  intros n m x Hnm [H0 H1]. split; [exact H0|].
  apply (Z.lt_le_trans _ (2 ^ n)); [exact H1|].
  destruct (Z.le_gt_cases 0 n) as [Hn|Hn].
  - apply Z.pow_le_mono_r; lia.
  - rewrite (Z.pow_neg_r 2 n) in H1 by exact Hn. lia.
Qed.

(** *** The Mersenne Twister keeps 32-bit words *)

Lemma fits_mask32 : forall x, fits 32 (Random.mask32 x).
Proof.
  intro x. unfold Random.mask32. apply fits_land_r; [lia|].
  split; [lia | reflexivity].
Qed.

Lemma fits_get :
  forall l i, Forall (fits 32) l -> fits 32 (Random.get l i).
Proof.
  intros l i Hl. unfold Random.get.
  destruct (nth_in_or_default i l 0) as [Hin | ->].
  - rewrite Forall_forall in Hl. exact (Hl _ Hin).
  - split; [lia | reflexivity].
Qed.

Lemma Forall_set :
  forall l i v,
    Forall (fits 32) l -> fits 32 v -> Forall (fits 32) (Random.set l i v).
Proof.
  induction l as [|h t IH]; intros i v Hl Hv; cbn [Random.set].
  - constructor.
  - inversion Hl as [|? ? Hh Ht]; subst. destruct i as [|j].
    + constructor; assumption.
    + constructor; [assumption | apply IH; assumption].
Qed.

Lemma fits_temper : forall y, fits 32 y -> fits 32 (Random.temper y).
Proof.
  intros y Hy. unfold Random.temper.
  assert (H1 : fits 32 (Z.lxor y (Z.shiftr y 11))).
  { apply fits_lxor; [lia | exact Hy | apply fits_shiftr; [lia | lia | exact Hy]]. }
  set (y1 := Z.lxor y (Z.shiftr y 11)) in *.
  assert (H2 : fits 32 (Z.lxor y1 (Z.land (Z.shiftl y1 7) 2636928640))).
  { apply fits_lxor; [lia | exact H1|]. apply fits_land_r; [lia|].
    split; [lia | reflexivity]. }
  set (y2 := Z.lxor y1 (Z.land (Z.shiftl y1 7) 2636928640)) in *.
  assert (H3 : fits 32 (Z.lxor y2 (Z.land (Z.shiftl y2 15) 4022730752))).
  { apply fits_lxor; [lia | exact H2|]. apply fits_land_r; [lia|].
    split; [lia | reflexivity]. }
  set (y3 := Z.lxor y2 (Z.land (Z.shiftl y2 15) 4022730752)) in *.
  apply fits_lxor; [lia | exact H3 | apply fits_shiftr; [lia | lia | exact H3]].
Qed.

Lemma fits_mix : forall a b, fits 32 (Random.mix a b).
Proof.
  intros a b. unfold Random.mix.
  apply fits_lor; [lia | |]; apply fits_land_r; try lia;
    (split; [lia | reflexivity]).
Qed.

Lemma fits_mag01 : forall y, fits 32 (Random.mag01 y).
Proof.
  intro y. unfold Random.mag01.
  destruct (Z.testbit y 0); split; try lia; reflexivity.
Qed.

Lemma Forall_twist_from :
  forall k kk m, Forall (fits 32) m -> Forall (fits 32) (Random.twist_from k kk m).
Proof.
  induction k as [|k IH]; intros kk m Hm; cbn [Random.twist_from].
  - exact Hm.
  - apply IH. apply Forall_set; [exact Hm|].
    apply fits_lxor; [lia | | apply fits_mag01].
    apply fits_lxor; [lia | apply fits_get; exact Hm|].
    apply fits_shiftr; [lia | lia | apply fits_mix].
Qed.

Lemma genrand_int32_ok :
  forall s,
    rng_ok s ->
    fits 32 (fst (Random.genrand_int32 s))
    /\ rng_ok (snd (Random.genrand_int32 s)).
Proof.
  intros s Hs. unfold Random.genrand_int32.
  set (s1 := if Nat.leb Random.N_ (Random.mti s)
             then Random.mkRng (Random.twist_from Random.N_ 0 (Random.mt s)) 0
             else s).
  assert (H1 : rng_ok s1).
  { unfold s1. destruct (Nat.leb Random.N_ (Random.mti s)); [|exact Hs].
    unfold rng_ok. cbn [Random.mt]. apply Forall_twist_from. exact Hs. }
  cbn [fst snd]. split.
  - apply fits_temper. apply fits_get. exact H1.
  - exact H1.
Qed.

Lemma getrandbits64_ok :
  forall s,
    rng_ok s ->
    fits 64 (fst (Random.getrandbits64 s))
    /\ rng_ok (snd (Random.getrandbits64 s)).
Proof.
  intros s Hs. unfold Random.getrandbits64.
  destruct (Random.genrand_int32 s) as [lo s1] eqn:E1.
  destruct (genrand_int32_ok s Hs) as [Hlo Hs1]. rewrite E1 in Hlo, Hs1.
  cbn [fst snd] in Hlo, Hs1.
  destruct (Random.genrand_int32 s1) as [hi s2] eqn:E2.
  destruct (genrand_int32_ok s1 Hs1) as [Hhi Hs2]. rewrite E2 in Hhi, Hs2.
  cbn [fst snd] in Hhi, Hs2 |- *. split; [|exact Hs2].
  apply fits_lor; [lia | apply (fits_mono 32 64); [lia | exact Hlo]|].
  exact (fits_shiftl 32 hi 32 ltac:(lia) ltac:(lia) Hhi).
Qed.

Lemma Forall_init_genrand_from :
  forall k i prev, Forall (fits 32) (Random.init_genrand_from k i prev).
Proof.
  induction k as [|k IH]; intros i prev; cbn [Random.init_genrand_from].
  - constructor.
  - constructor; [apply fits_mask32 | apply IH].
Qed.

Lemma Forall_wrap_i :
  forall m i,
    Forall (fits 32) m -> Forall (fits 32) (fst (Random.wrap_i m i)).
Proof.
  intros m i Hm. unfold Random.wrap_i.
  destruct (Nat.leb Random.N_ i); cbn [fst]; [|exact Hm].
  apply Forall_set; [exact Hm | apply fits_get; exact Hm].
Qed.

Lemma Forall_init_by_array_1 :
  forall k key m i j,
    Forall (fits 32) m ->
    Forall (fits 32) (fst (Random.init_by_array_1 k key m i j)).
Proof.
  induction k as [|k IH]; intros key m i j Hm; cbn [Random.init_by_array_1].
  - exact Hm.
  - match goal with
    | |- context [Random.wrap_i ?a ?b] =>
        pose proof (Forall_wrap_i a b) as Hw;
        destruct (Random.wrap_i a b) as [m1 i1]
    end.
    cbn [fst] in Hw. apply IH. apply Hw.
    apply Forall_set; [exact Hm | apply fits_mask32].
Qed.

Lemma Forall_init_by_array_2 :
  forall k m i,
    Forall (fits 32) m -> Forall (fits 32) (Random.init_by_array_2 k m i).
Proof.
  induction k as [|k IH]; intros m i Hm; cbn [Random.init_by_array_2].
  - exact Hm.
  - match goal with
    | |- context [Random.wrap_i ?a ?b] =>
        pose proof (Forall_wrap_i a b) as Hw;
        destruct (Random.wrap_i a b) as [m1 i1]
    end.
    cbn [fst] in Hw. apply IH. apply Hw.
    apply Forall_set; [exact Hm | apply fits_mask32].
Qed.

Lemma init_by_array_ok : forall key, rng_ok (Random.init_by_array key).
Proof.
  intro key. unfold Random.init_by_array.
  match goal with
  | |- context [Random.init_by_array_1 ?k ?key ?m ?i ?j] =>
      pose proof (Forall_init_by_array_1 k key m i j) as H1;
      destruct (Random.init_by_array_1 k key m i j) as [m1 i1]
  end.
  cbn [fst] in H1. unfold rng_ok. cbn [Random.mt].
  apply Forall_set; [|split; [lia | reflexivity]].
  apply Forall_init_by_array_2. apply H1.
  unfold Random.init_genrand.
  constructor; [apply fits_mask32 | apply Forall_init_genrand_from].
Qed.

(** [random.seed] leaves a state of 32-bit words. *)
Lemma seed_ok : forall a, rng_ok (Random.seed a).
Proof.
  intro a. unfold Random.seed.
  destruct (Random.chunks32 _ _); apply init_by_array_ok.
Qed.

(** *** The candidates *)

Lemma fits_shiftr_drop :
  forall n a k, 0 <= k <= n -> fits n a -> fits (n - k) (Z.shiftr a k).
Proof.
  intros n a k Hk Ha. apply fits_of_bits; [lia | |].
  - apply Z.shiftr_nonneg. destruct Ha. assumption.
  - intros m Hm. rewrite Z.shiftr_spec by lia.
    apply (fits_high n a (m + k)); [lia | exact Ha | lia].
Qed.

Lemma eui64_value_fits :
  forall mac e, eui64_value mac = Ok e -> fits 64 e.
Proof.
  intros mac e H. unfold eui64_value in H.
  destruct ((0 <=? mac) && (mac <=? 2 ^ 48 - 1)) eqn:E48.
  - assert (He : e = Z.lor (Z.lor (Z.shiftl (Z.shiftr mac 24) 40) 0xfffe000000)
                           (Z.land mac 0xffffff)) by congruence.
    rewrite He. clear H He.
    apply andb_true_iff in E48. destruct E48 as [H0 H1].
    apply Z.leb_le in H0. apply Z.leb_le in H1.
    assert (Hm : fits 48 mac) by (split; lia).
    apply fits_lor; [lia | |].
    + apply fits_lor; [lia | |].
      * exact (fits_shiftl 24 _ 40 ltac:(lia) ltac:(lia)
                 (fits_shiftr_drop 48 mac 24 ltac:(lia) Hm)).
      * split; [lia | reflexivity].
    + apply fits_land_r; [lia|]. split; [lia | reflexivity].
  - destruct ((0 <=? mac) && (mac <=? 2 ^ 64 - 1)) eqn:E64; [|discriminate].
    assert (He : e = mac) by congruence. rewrite He. clear H He.
    apply andb_true_iff in E64. destruct E64 as [H0 H1].
    apply Z.leb_le in H0. apply Z.leb_le in H1. split; lia.
Qed.

Lemma land_shiftl_low :
  forall q h c, 0 <= h -> fits h c -> Z.land (Z.shiftl q h) c = 0.
Proof.
  intros q h c Hh Hc. apply Z.bits_inj'. intros i Hi.
  rewrite Z.land_spec, Z.bits_0.
  destruct (Z.lt_ge_cases i h) as [Hlt|Hge].
  - rewrite Z.shiftl_spec_low by exact Hlt. reflexivity.
  - rewrite (fits_high h c i Hh Hc Hge). apply andb_false_r.
Qed.

(** The network base plus 64 bits, with the universal/local bit flipped,
    is an address of a network of 64 host bits or more. *)
Lemma offset_in_network :
  forall cidr b,
    net_value cidr = net_first cidr ->
    64 <= net_hostbits cidr ->
    fits 64 b ->
    in_network cidr (Z.lxor (net_value cidr + b) MAGIC_INT).
Proof.
  intros cidr b Hbase Hh Hb. unfold in_network, net_last, net_size.
  rewrite Hbase. unfold net_first.
  set (h := net_hostbits cidr) in *.
  set (q := Z.shiftr (net_value cidr) h).
  assert (HM : fits 64 MAGIC_INT) by (split; [unfold MAGIC_INT; lia | reflexivity]).
  assert (Hc : fits 64 (Z.lxor b MAGIC_INT))
    by (apply fits_lxor; [lia | exact Hb | exact HM]).
  rewrite (Z.add_nocarry_lxor (Z.shiftl q h) b)
    by (apply land_shiftl_low; [lia | apply (fits_mono 64 h); assumption]).
  rewrite Z.lxor_assoc.
  rewrite <- (Z.add_nocarry_lxor (Z.shiftl q h) (Z.lxor b MAGIC_INT))
    by (apply land_shiftl_low; [lia | apply (fits_mono 64 h); assumption]).
  destruct (fits_mono 64 h _ Hh Hc) as [H0 H1]. lia.
Qed.

Lemma rfc3041_next_in_network :
  forall cidr r rng v r' rng',
    net_value cidr = net_first cidr ->
    64 <= net_hostbits cidr ->
    gen_ready cidr (G_rfc3041 r) rng ->
    rfc3041_next r rng = (v, r', rng') ->
    in_network cidr v /\ gen_ready cidr (G_rfc3041 r') rng'.
Proof.
  intros cidr r rng v r' rng' Hbase Hh [Hg Hr] H.
  destruct r as [port_id c | int_val]; cbn [gen_for] in Hg; subst;
    cbn [rfc3041_next] in H.
  - pose proof (getrandbits64_ok (Random.seed port_id) (seed_ok port_id))
      as [Hb Hs].
    destruct (Random.getrandbits64 (Random.seed port_id)) as [bits rng2].
    cbn [fst snd] in Hb, Hs. injection H as <- <- <-.
    split; [exact (offset_in_network cidr bits Hbase Hh Hb)|].
    split; [reflexivity | exact Hs].
  - pose proof (getrandbits64_ok rng Hr) as [Hb Hs].
    destruct (Random.getrandbits64 rng) as [bits rng2].
    cbn [fst snd] in Hb, Hs. injection H as <- <- <-.
    split; [exact (offset_in_network cidr bits Hbase Hh Hb)|].
    split; [reflexivity | exact Hs].
Qed.

Lemma v6_next_in_network :
  forall cidr g rng v g' rng',
    net_value cidr = net_first cidr ->
    64 <= net_hostbits cidr ->
    gen_ready cidr g rng ->
    v6_next g rng = (Ok v, g', rng') ->
    in_network cidr v /\ gen_ready cidr g' rng'.
Proof.
  intros cidr g rng v g' rng' Hbase Hh Hg H.
  destruct g as [[mac|] port_id c | r |]; cbn [v6_next] in H.
  - destruct Hg as [Hg _]. cbn [gen_for] in Hg. subst c.
    unfold rfc2462_ip in H.
    destruct (eui64_value mac) as [e|x] eqn:He; [|discriminate].
    injection H as <- <- <-.
    split; [exact (offset_in_network cidr e Hbase Hh (eui64_value_fits _ _ He))|].
    split; [reflexivity | exact I].
  - destruct Hg as [Hg _]. cbn [gen_for] in Hg. subst c.
    destruct (rfc3041_next (R_new port_id cidr) rng) as [[v0 r0] rng0] eqn:E.
    injection H as <- <- <-.
    apply (rfc3041_next_in_network cidr (R_new port_id cidr) rng); auto.
    split; [reflexivity | exact I].
  - destruct (rfc3041_next r rng) as [[v0 r0] rng0] eqn:E.
    injection H as <- <- <-.
    exact (rfc3041_next_in_network cidr r rng v0 r0 rng0 Hbase Hh Hg E).
  - discriminate.
Qed.

Lemma v6_take_in_network :
  forall n cidr g rng vs g' rng',
    net_value cidr = net_first cidr ->
    64 <= net_hostbits cidr ->
    gen_ready cidr g rng ->
    v6_take n g rng = (Ok vs, g', rng') ->
    Forall (in_network cidr) vs.
Proof.
  induction n as [|n IH]; intros cidr g rng vs g' rng' Hbase Hh Hg H;
    cbn [v6_take] in H.
  - injection H as <- _ _. constructor.
  - destruct (v6_next g rng) as [[[v|x] g1] rng1] eqn:E1; [|discriminate].
    destruct (v6_next_in_network cidr g rng v g1 rng1 Hbase Hh Hg E1)
      as [Hv Hg1].
    destruct (v6_take n g1 rng1) as [[[vs1|x] g2] rng2] eqn:E2;
      [|discriminate].
    injection H as <- _ _.
    constructor; [exact Hv|].
    exact (IH cidr g1 rng1 vs1 g2 rng2 Hbase Hh Hg1 E2).
Qed.

(** Every candidate [generate_v6] yields is an address of the subnet, for
    a subnet of 64 host bits or more whose CIDR is written with its base
    address: the one from the MAC and all the random ones, whatever the
    state of the [random] module when the generator is made. *)
Theorem generate_v6_in_network :
  forall n mac port_id cidr rng vs g' rng',
    net_value cidr = net_first cidr ->
    64 <= net_hostbits cidr ->
    v6_take n (generate_v6 mac port_id cidr) rng = (Ok vs, g', rng') ->
    Forall (in_network cidr) vs.
Proof.
  intros n mac port_id cidr rng vs g' rng' Hbase Hh H.
  apply (v6_take_in_network n cidr (generate_v6 mac port_id cidr) rng vs g'
           rng' Hbase Hh); [|exact H].
  split; [reflexivity | exact I].
Qed.

(** Three candidates for [2001:db8::/64] and [52:54:00:12:34:56]. *)
Lemma generate_v6_in_network_example :
  exists vs g' rng',
    v6_take 3 (generate_v6 (Some mac_5254) port_a cidr_db8) (Random.seed 0)
    = (Ok vs, g', rng')
    /\ Forall (in_network cidr_db8) vs.
Proof.
  eexists. eexists. eexists. split; [vm_compute; reflexivity|].
  eapply (generate_v6_in_network 3 (Some mac_5254) port_a cidr_db8
            (Random.seed 0) _ _ _).
  - reflexivity.
  - vm_compute. discriminate.
  - vm_compute. reflexivity.
Defined.

End GenRangeFacts.

(** ** The address created lies in the subnet *)

Module RangeFacts.

Import Examples MoreExamples PyFacts.
Open Scope string_scope.
Open Scope Z_scope.

Lemma ip_address_create_row :
  forall context addr sid ver net_id atype w row w',
    ip_address_create context addr sid ver net_id atype w = (Ok row, w') ->
    address row = ip_value (ipv6 addr)
    /\ subnet_id row = sid /\ version row = ver.
Proof.
  intros context addr sid ver net_id atype w row w' H.
  unfold ip_address_create in H.
  apply bind_Ok in H. destruct H as [u [w1 [_ H]]].
  apply bind_Ok in H. destruct H as [id [w2 [_ H]]].
  apply bind_Ok in H. destruct H as [w0 [w3 [_ H]]].
  match type of H with
  | (if ?c then _ else _) _ = _ => destruct c
  end.
  - unfold raise in H. discriminate.
  - unfold bind, modify_db, ret in H. injection H as <- _. cbn. auto.
Qed.

(** A v4-mapped integer goes through [IPAddress], [ipv4()] and [ipv6()]
    unchanged. *)
Lemma mapped_round_trip :
  forall c n a,
    V4_MAPPED <= c <= 0xffffffffffff ->
    IPAddress_of_int c = Ok n ->
    ipv4 n = Ok a ->
    ip_value (ipv6 a) = c.
Proof.
  intros c n a Hc Hn Ha. unfold V4_MAPPED in Hc.
  unfold IPAddress_of_int in Hn.
  assert (E1 : (0 <=? c) && (c <=? 2 ^ 32 - 1) = false).
  { apply andb_false_iff. right. apply Z.leb_gt.
    change (2 ^ 32 - 1) with 4294967295. lia. }
  rewrite E1 in Hn.
  destruct ((0 <=? c) && (c <=? 2 ^ 128 - 1)); [|discriminate].
  assert (En : n = mkIP 6 c) by congruence. subst n.
  unfold ipv4 in Ha. cbn [ip_ver ip_value] in Ha.
  change (6 =? 4) with false in Ha.
  assert (E2 : (0 <=? c) && (c <=? 4294967295) = false).
  { apply andb_false_iff. right. apply Z.leb_gt. lia. }
  rewrite E2 in Ha.
  assert (E3 : (V4_MAPPED <=? c) && (c <=? 281474976710655) = true).
  { apply andb_true_iff. unfold V4_MAPPED. split; apply Z.leb_le; lia. }
  rewrite E3 in Ha.
  assert (Ea : a = mkIP 4 (c - V4_MAPPED)) by congruence. subst a.
  unfold ipv6. cbn [ip_ver ip_value]. change (4 =? 4) with true.
  cbn [ip_value]. lia.
Qed.

(** The address [_allocate_from_subnet] creates on its own in a v4 subnet
    lies between [first_ip] and [last_ip], when the cursor of the subnet is
    as [select_subnet] leaves it: one past an address of that range, or
    [-1].  The row is of the subnet and of version 4.  [first_ip] and
    [last_ip] are v4-mapped integers. *)
Theorem _allocate_from_subnet_in_range :
  forall context net_id s port_id reuse_after ip kw w row w',
    supplied ip = false ->
    ip_version s = 4 ->
    V4_MAPPED <= first_ip s ->
    first_ip s <= last_ip s ->
    last_ip s <= 0xffffffffffff ->
    (next_auto_assign_ip s = -1
     \/ first_ip s < next_auto_assign_ip s <= last_ip s + 1) ->
    _allocate_from_subnet context net_id s port_id reuse_after ip kw w
    = (Ok row, w') ->
    first_ip s <= address row <= last_ip s
    /\ subnet_id row = sub_id s
    /\ version row = 4.
Proof.
  intros context net_id s port_id reuse_after ip kw w row w'
         Hip Hv Hfirst Hfl Hlast Hcur H.
  unfold _allocate_from_subnet in H.
  apply bind_Ok in H. destruct H as [next_ip [w1 [Hn H]]].
  unfold lift in Hn.
  rewrite (PolicyFacts.choose_next_ip_not_supplied _ _ Hip) in Hn.
  destruct (auto_next_ip s) as [a|e] eqn:Ha; [|discriminate].
  assert (Ea : a = next_ip) by congruence. subst next_ip. clear Hn.
  destruct (violates_policy s ip a); [unfold raise in H; discriminate|].
  apply try_except_Ok in H. destruct H as [H | [e [w2 [_ [_ H]]]]].
  2:{ rewrite Hip in H. unfold raise in H. discriminate. }
  unfold insert_address in H. apply PolicyFacts.with_begin_Ok in H.
  apply ip_address_create_row in H. destruct H as [Haddr [Hsid Hver]].
  rewrite Hv in Hver.
  split; [|split; [exact Hsid | exact Hver]].
  rewrite Haddr. unfold auto_next_ip in Ha. rewrite Hv in Ha.
  change (4 =? 4) with true in Ha.
  set (c := if negb (next_auto_assign_ip s =? -1)
            then next_auto_assign_ip s - 1 else last_ip s) in *.
  assert (Hc : first_ip s <= c <= last_ip s).
  { unfold c. destruct (Z.eqb_spec (next_auto_assign_ip s) (-1)) as [E|E];
      cbn [negb]; [lia|]. destruct Hcur as [Hc|Hc]; [contradiction | lia]. }
  destruct (IPAddress_of_int c) as [n|e] eqn:En; [|discriminate].
  rewrite (mapped_round_trip c n a); [exact Hc | lia | exact En | exact Ha].
Qed.

(** The cursor of [10.0.0.0/29] stands on [10.0.0.2]: [10.0.0.1] is
    created. *)
Lemma _allocate_from_subnet_in_range_example :
  exists row w',
    _allocate_from_subnet tenant 1
      (set_next_auto_assign_ip 0xffff0a000002 subnet_29) port_a 0 None
      no_kwargs world_v4 = (Ok row, w')
    /\ first_ip subnet_29 <= address row <= last_ip subnet_29
    /\ subnet_id row = sub_id subnet_29
    /\ version row = 4.
Proof.
  eexists. eexists. split; [vm_compute; reflexivity|].
  eapply (_allocate_from_subnet_in_range tenant 1
            (set_next_auto_assign_ip 0xffff0a000002 subnet_29) port_a 0 None
            no_kwargs world_v4 _ _).
  - reflexivity.
  - reflexivity.
  - vm_compute. discriminate.
  - vm_compute. discriminate.
  - vm_compute. discriminate.
  - right. split; [reflexivity | vm_compute; discriminate].
  - vm_compute. reflexivity.
Defined.

(** *** The v6 path *)

Lemma keeps_rng_ret : forall (A : Type) (a : A), keeps_rng (ret a).
Proof. intros A a w r w' H. injection H as _ <-. reflexivity. Qed.

Lemma keeps_rng_raise : forall (A : Type) e, keeps_rng (@raise A e).
Proof. intros A e w r w' H. injection H as _ <-. reflexivity. Qed.

Lemma keeps_rng_bind :
  forall (A B : Type) (m : M A) (k : A -> M B),
    keeps_rng m -> (forall a, keeps_rng (k a)) -> keeps_rng (bind m k).
Proof.
  intros A B m k Hm Hk w r w' H. unfold bind in H.
  destruct (m w) as [[a|e] w1] eqn:E.
  - rewrite (Hk a _ _ _ H). exact (Hm _ _ _ E).
  - injection H as _ <-. exact (Hm _ _ _ E).
Qed.

Lemma keeps_rng_try_except :
  forall (A : Type) (m : M A) handled h,
    keeps_rng m -> (forall e, keeps_rng (h e)) ->
    keeps_rng (try_except m handled h).
Proof.
  intros A m handled h Hm Hh w r w' H. unfold try_except in H.
  destruct (m w) as [[a|e] w1] eqn:E.
  - injection H as _ <-. exact (Hm _ _ _ E).
  - destruct (handled e).
    + rewrite (Hh e _ _ _ H). exact (Hm _ _ _ E).
    + injection H as _ <-. exact (Hm _ _ _ E).
Qed.

Lemma keeps_rng_with_begin :
  forall (A : Type) (m : M A), keeps_rng m -> keeps_rng (with_begin m).
Proof.
  intros A m Hm w r w' H. unfold with_begin in H.
  destruct (m w) as [[a|e] w1] eqn:E; injection H as _ <-;
    exact (Hm _ _ _ E).
Qed.

Lemma keeps_rng_stmt : keeps_rng stmt.
Proof.
  intros w r w' H. unfold stmt in H.
  destruct (faults w) as [|[|] t]; injection H as _ <-; reflexivity.
Qed.

Lemma keeps_rng_get_db : keeps_rng get_db.
Proof. intros w r w' H. injection H as _ <-. reflexivity. Qed.

Lemma keeps_rng_get_world : keeps_rng get_world.
Proof. intros w r w' H. injection H as _ <-. reflexivity. Qed.

Lemma keeps_rng_modify_db : forall f, keeps_rng (modify_db f).
Proof. intros f w r w' H. injection H as _ <-. reflexivity. Qed.

Lemma keeps_rng_fresh_uuid : keeps_rng fresh_uuid.
Proof. intros w r w' H. injection H as _ <-. reflexivity. Qed.

Lemma keeps_rng_now_query : forall c m f, keeps_rng (now_query c m f).
Proof. intros c m f w r w' H. injection H as _ <-. reflexivity. Qed.

Ltac rng_step :=
  match goal with
  | |- keeps_rng (bind _ _) => apply keeps_rng_bind; [|intro]
  | |- keeps_rng (ret _) => apply keeps_rng_ret
  | |- keeps_rng (raise _) => apply keeps_rng_raise
  | |- keeps_rng (try_except _ _ _) => apply keeps_rng_try_except; [|intro]
  | |- keeps_rng (with_begin _) => apply keeps_rng_with_begin
  | |- keeps_rng stmt => apply keeps_rng_stmt
  | |- keeps_rng get_db => apply keeps_rng_get_db
  | |- keeps_rng get_world => apply keeps_rng_get_world
  | |- keeps_rng (modify_db _) => apply keeps_rng_modify_db
  | |- keeps_rng fresh_uuid => apply keeps_rng_fresh_uuid
  | |- keeps_rng (now_query _ _ _) => apply keeps_rng_now_query
  | |- keeps_rng (match ?x with _ => _ end) => destruct x
  | |- keeps_rng (if ?x then _ else _) => destruct x
  end.

Lemma keeps_rng_find_one :
  forall c f, keeps_rng (ip_address_find_one c f).
Proof. intros c f. unfold ip_address_find_one. repeat rng_step. Qed.

Lemma keeps_rng_update :
  forall c a k, keeps_rng (ip_address_update c a k).
Proof. intros c a k. unfold ip_address_update. repeat rng_step. Qed.

Lemma keeps_rng_create :
  forall c a sid ver n t, keeps_rng (ip_address_create c a sid ver n t).
Proof. intros c a sid ver n t. unfold ip_address_create. repeat rng_step. Qed.

Lemma gen_next_Ok :
  forall g w v g' w',
    gen_next g w = (Ok (v, g'), w') ->
    v6_next g (rng w) = (Ok v, g', rng w').
Proof.
  intros g w v g' w' H. unfold gen_next in H.
  destruct (v6_next g (rng w)) as [[[x|e] g1] r1]; [|discriminate].
  injection H as <- <- <-. reflexivity.
Qed.

Lemma v6_find_subnet :
  forall now context net_id x reuse_after sid fs,
    _model_query now context MIPAddress
      (_listify [("network_id", PScalar (SId net_id));
                 ("ip_address", PScalar (SAddr x));
                 ("reuse_after", PScalar (SInt reuse_after));
                 ("deallocated", PScalar (SBool true));
                 ("subnet_id", PScalar (SId sid))]) = Ok fs ->
    In (F_in "subnet_id" [SId sid]) fs.
Proof.
  intros now [tenant [|]] net_id [ver [|q|q]] reuse_after sid fs H;
    lazy -[Z.sub Z.add ipv6] in H;
    try discriminate; injection H as <-; cbn; auto 10.
Qed.

Lemma v6_candidate_value :
  forall cidr c a,
    2 ^ 32 <= net_first cidr ->
    in_network cidr c ->
    IPAddress_of_int c = Ok a ->
    ip_value (ipv6 (ipv6 a)) = c.
Proof.
  intros cidr c a Hbig [Hc _] Ha.
  destruct (PolicyFacts.IPAddress_of_int_Ok _ _ Ha) as [Hv [[_ H4] | [H6 _]]].
  - change (2 ^ 32) with 4294967296 in Hbig. lia.
  - destruct a as [ver val]. cbn [ip_ver ip_value] in *. subst ver val.
    reflexivity.
Qed.

Lemma v6_loop_in_network :
  forall remaining g context net_id subnet reuse_after kw w row w',
    net_value (cidr subnet) = net_first (cidr subnet) ->
    64 <= net_hostbits (cidr subnet) ->
    2 ^ 32 <= net_first (cidr subnet) ->
    gen_ready (cidr subnet) g (rng w) ->
    v6_loop remaining g context net_id subnet reuse_after kw w = (Ok row, w') ->
    in_network (cidr subnet) (address row) /\ subnet_id row = sub_id subnet.
Proof.
  induction remaining as [|n IH];
    intros g context net_id subnet reuse_after kw w row w' Hbase Hh Hbig Hg H.
  - cbn [v6_loop] in H. apply bind_Ok in H. destruct H as [[c g'] [w1 [_ H]]].
    unfold raise in H. discriminate.
  - cbn [v6_loop] in H. apply bind_Ok in H.
    destruct H as [[c g'] [w1 [Hnext H]]].
    apply gen_next_Ok in Hnext.
    destruct (GenRangeFacts.v6_next_in_network _ _ _ _ _ _ Hbase Hh Hg Hnext)
      as [Hc Hg1].
    apply bind_Ok in H. destruct H as [a [w2 [Ha H]]].
    unfold lift in Ha.
    destruct (IPAddress_of_int c) as [a'|e] eqn:Hca; [|discriminate].
    injection Ha as <- <-.
    pose proof (v6_candidate_value _ _ _ Hbig Hc Hca) as Hval.
    destruct (match get_ip_policy_cidrs subnet with
              | Some p => ipset_contains p (ipv6 a')
              | None => false
              end) eqn:Hp.
    { exact (IH _ _ _ _ _ _ _ _ _ Hbase Hh Hbig Hg1 H). }
    unfold bind at 1 in H.
    match type of H with
    | match ?m w1 with _ => _ end = _ =>
        assert (Hk : keeps_rng m)
          by (repeat rng_step;
              first [apply keeps_rng_find_one | apply keeps_rng_update]);
        destruct (m w1) as [[claimed|e] w3] eqn:Hclaim; [|discriminate]
    end.
    pose proof (Hk _ _ _ Hclaim) as Hrng3.
    apply PolicyFacts.with_begin_Ok in Hclaim.
    apply bind_Ok in Hclaim. destruct Hclaim as [found [w4 [Hfind Hclaim]]].
    destruct claimed as [r|].
    + unfold ret in H. injection H as <- <-.
      destruct found as [row0|]; [|unfold ret in Hclaim; discriminate].
      apply bind_Ok in Hclaim. destruct Hclaim as [w0 [w5 [_ Hclaim]]].
      apply bind_Ok in Hclaim. destruct Hclaim as [r' [w6 [Hupd Hclaim]]].
      unfold ret in Hclaim. injection Hclaim as <- _.
      apply PolicyFacts.ip_address_update_Ok in Hupd. subst r'.
      apply ReallocateFacts.ip_address_find_one_Ok in Hfind.
      destruct Hfind as [_ [fs [Hfs Ho]]].
      symmetry in Ho. unfold first in Ho. apply find_some in Ho.
      destruct Ho as [_ Hm].
      pose proof (ReallocateFacts.matches_In _ _ _ _ _ _ _ Hm
                    (PolicyFacts.v6_find_filters _ _ _ _ _ _ _ Hfs)) as Ht.
      cbn [eval_filter existsb] in Ht. rewrite orb_false_r in Ht.
      change (ip_col "address" row0) with (SInt (address row0)) in Ht.
      cbn [scalar_eqb] in Ht. apply Z.eqb_eq in Ht.
      pose proof (ReallocateFacts.matches_In _ _ _ _ _ _ _ Hm
                    (v6_find_subnet _ _ _ _ _ _ _ Hfs)) as Hs.
      cbn [eval_filter existsb] in Hs. rewrite orb_false_r in Hs.
      change (ip_col "subnet_id" row0) with (SId (subnet_id row0)) in Hs.
      cbn [scalar_eqb] in Hs. apply Z.eqb_eq in Hs.
      cbn [address subnet_id v6_claim_kwargs].
      rewrite Ht, Hval. auto.
    + destruct found as [row0|].
      { apply bind_Ok in Hclaim. destruct Hclaim as [w0 [w5 [_ Hclaim]]].
        apply bind_Ok in Hclaim. destruct Hclaim as [r' [w6 [_ Hclaim]]].
        unfold ret in Hclaim. discriminate. }
      unfold bind at 1 in H.
      match type of H with
      | match ?m w3 with _ => _ end = _ =>
          assert (Hk2 : keeps_rng m)
            by (repeat rng_step; apply keeps_rng_create);
          destruct (m w3) as [[created|e] w5] eqn:Hcreate; [|discriminate]
      end.
      pose proof (Hk2 _ _ _ Hcreate) as Hrng5.
      destruct created as [r|].
      * unfold ret in H. injection H as <- <-.
        apply try_except_Ok in Hcreate.
        destruct Hcreate as [Hcreate | [e [w6 [_ [_ Hcreate]]]]];
          [|unfold ret in Hcreate; discriminate].
        apply bind_Ok in Hcreate. destruct Hcreate as [r' [w6 [Hc' Hcreate]]].
        unfold ret in Hcreate. injection Hcreate as <- _.
        apply PolicyFacts.with_begin_Ok in Hc'.
        apply ip_address_create_row in Hc'. destruct Hc' as [Haddr [Hsid _]].
        rewrite Haddr, Hval. auto.
      * refine (IH _ _ _ _ _ _ w5 _ _ Hbase Hh Hbig _ H).
        rewrite Hrng5, Hrng3. exact Hg1.
Qed.

(** The address [_allocate_from_v6_subnet] hands out on its own, claimed
    or created, is an address of the subnet and its row is of the subnet:
    for a subnet of 64 host bits or more whose CIDR is written with its
    base address, the base being a v6 address proper (at least [2^32]). *)
Theorem _allocate_from_v6_subnet_in_network :
  forall conf context net_id subnet port_id reuse_after ip kw w row w',
    supplied ip = false ->
    net_value (cidr subnet) = net_first (cidr subnet) ->
    64 <= net_hostbits (cidr subnet) ->
    2 ^ 32 <= net_first (cidr subnet) ->
    _allocate_from_v6_subnet conf context net_id subnet port_id reuse_after ip
                             kw w = (Ok row, w') ->
    in_network (cidr subnet) (address row) /\ subnet_id row = sub_id subnet.
Proof.
  intros conf context net_id subnet port_id reuse_after ip kw w row w'
         Hip Hbase Hh Hbig H.
  unfold _allocate_from_v6_subnet in H. rewrite Hip in H.
  apply (v6_loop_in_network _ _ _ _ _ _ _ _ _ _ Hbase Hh Hbig) in H;
    [exact H|].
  split; [reflexivity | exact I].
Qed.

(** A v6 address for the port on [2001:db8::/64]. *)
Lemma _allocate_from_v6_subnet_in_network_example :
  exists row w',
    _allocate_from_v6_subnet conf tenant 1 subnet_db8 port_a 0 None no_kwargs
                             world_dual = (Ok row, w')
    /\ in_network (cidr subnet_db8) (address row)
    /\ subnet_id row = sub_id subnet_db8.
Proof.
  eexists. eexists. split; [vm_compute; reflexivity|].
  eapply (_allocate_from_v6_subnet_in_network conf tenant 1 subnet_db8 port_a
            0 None no_kwargs world_dual _ _).
  - reflexivity.
  - reflexivity.
  - vm_compute. discriminate.
  - vm_compute. discriminate.
  - vm_compute. reflexivity.
Defined.

End RangeFacts.

(** ** The subnets a strategy chooses *)

Module ChooseFacts.

Import Examples MoreExamples PyFacts.
Open Scope string_scope.
Open Scope Z_scope.

Lemma keeps_ids_ret : forall (A : Type) (a : A), keeps_ids (ret a).
Proof. intros A a w r w' H. injection H as _ <-. reflexivity. Qed.

Lemma keeps_ids_raise : forall (A : Type) e, keeps_ids (@raise A e).
Proof. intros A e w r w' H. injection H as _ <-. reflexivity. Qed.

Lemma keeps_ids_lift : forall (A : Type) (x : res A), keeps_ids (lift x).
Proof. intros A x w r w' H. injection H as _ <-. reflexivity. Qed.

Lemma keeps_ids_bind :
  forall (A B : Type) (m : M A) (k : A -> M B),
    keeps_ids m -> (forall a, keeps_ids (k a)) -> keeps_ids (bind m k).
Proof.
  intros A B m k Hm Hk w r w' H. unfold bind in H.
  destruct (m w) as [[a|e] w1] eqn:E.
  - rewrite (Hk a _ _ _ H). exact (Hm _ _ _ E).
  - injection H as _ <-. exact (Hm _ _ _ E).
Qed.

Lemma keeps_ids_with_begin :
  forall (A : Type) (m : M A), keeps_ids m -> keeps_ids (with_begin m).
Proof.
  intros A m Hm w r w' H. unfold with_begin in H.
  destruct (m w) as [[a|e] w1] eqn:E; injection H as _ <-.
  - exact (Hm _ _ _ E).
  - reflexivity.
Qed.

Lemma keeps_ids_stmt : keeps_ids stmt.
Proof.
  intros w r w' H. unfold stmt in H.
  destruct (faults w) as [|[|] t]; injection H as _ <-; reflexivity.
Qed.

Lemma keeps_ids_get_db : keeps_ids get_db.
Proof. intros w r w' H. injection H as _ <-. reflexivity. Qed.

Lemma keeps_ids_update_cursor :
  forall sid f,
    keeps_ids (modify_db (fun d =>
                 set_subnets (update_cursor sid f (subnets d)) d)).
Proof.
  intros sid f w r w' H. injection H as _ <-. cbn.
  apply AutoFacts.update_cursor_ids.
Qed.

Lemma keeps_ids_set_full :
  forall c s, keeps_ids (subnet_update_set_full c s).
Proof.
  intros c s w r w' H.
  unfold subnet_update_set_full, bind, stmt, get_db, modify_db, ret in H.
  destruct (faults w) as [|[|] t]; cbn in H; injection H as _ <-; cbn;
    try reflexivity; apply AutoFacts.update_cursor_ids.
Qed.

Lemma keeps_ids_next :
  forall c s, keeps_ids (subnet_update_next_auto_assign_ip c s).
Proof.
  intros c s w r w' H.
  unfold subnet_update_next_auto_assign_ip, bind, stmt, get_db, modify_db,
    ret in H.
  destruct (faults w) as [|[|] t]; cbn in H; injection H as _ <-; cbn;
    try reflexivity; apply AutoFacts.update_cursor_ids.
Qed.

Lemma keeps_ids_refresh : forall s, keeps_ids (refresh_subnet s).
Proof.
  intros s w r w' H.
  unfold refresh_subnet, bind, stmt, get_db, ret, raise in H.
  destruct (faults w) as [|[|] t]; cbn in H;
    try (injection H as _ <-; reflexivity);
    destruct (find (fun x => sub_id x =? sub_id s) (subnets (db w)));
    injection H as _ <-; reflexivity.
Qed.

Ltac ids_step :=
  match goal with
  | |- keeps_ids (bind _ _) => apply keeps_ids_bind; [|intro]
  | |- keeps_ids (ret _) => apply keeps_ids_ret
  | |- keeps_ids (raise _) => apply keeps_ids_raise
  | |- keeps_ids (lift _) => apply keeps_ids_lift
  | |- keeps_ids (with_begin _) => apply keeps_ids_with_begin
  | |- keeps_ids stmt => apply keeps_ids_stmt
  | |- keeps_ids get_db => apply keeps_ids_get_db
  | |- keeps_ids (subnet_update_set_full _ _) => apply keeps_ids_set_full
  | |- keeps_ids (subnet_update_next_auto_assign_ip _ _) =>
      apply keeps_ids_next
  | |- keeps_ids (refresh_subnet _) => apply keeps_ids_refresh
  | |- keeps_ids (match ?x with _ => _ end) => destruct x
  | |- keeps_ids (if ?x then _ else _) => destruct x
  end.

Lemma keeps_ids_select_loop :
  forall rows c ip ids, keeps_ids (select_loop rows c ip ids).
Proof.
  induction rows as [|[s k] rest IH]; intros c ip ids; cbn [select_loop].
  - apply keeps_ids_ret.
  - apply keeps_ids_bind.
    + repeat ids_step.
    + intros [|]; [apply IH|].
      repeat first [apply IH | ids_step].
Qed.

Lemma keeps_ids_select_subnet :
  forall c n ip s ids v, keeps_ids (select_subnet c n ip s ids v).
Proof.
  intros c n ip s ids v.
  unfold select_subnet, subnet_find_ordered_by_most_full.
  apply keeps_ids_with_begin.
  apply keeps_ids_bind; [repeat ids_step | intro; apply keeps_ids_select_loop].
Qed.

Lemma most_full_rows_facts :
  forall d net_id segment subnet_ids ip_ver,
    (forall r,
        In r (most_full_rows d net_id segment subnet_ids ip_ver) ->
        In (fst r) (subnets d)
        /\ most_full_candidate net_id segment subnet_ids ip_ver (fst r) = true)
    /\ (NoDup (map sub_id (subnets d)) ->
        NoDup (map (fun r => sub_id (fst r))
                   (most_full_rows d net_id segment subnet_ids ip_ver))).
Proof.
  intros d net_id segment subnet_ids ip_ver.
  set (cands := filter (most_full_candidate net_id segment subnet_ids ip_ver)
                       (subnets d)).
  assert (Hperm : Permutation
                    (map (fun s => (s, count_ips d s)) cands)
                    (most_full_rows d net_id segment subnet_ids ip_ver))
    by apply OrderFacts.order_by_perm.
  split.
  - intros r Hr. apply (Permutation_in _ (Permutation_sym Hperm)) in Hr.
    apply in_map_iff in Hr. destruct Hr as [y [<- Hy]].
    apply filter_In in Hy. exact Hy.
  - intro Hn.
    apply (Permutation_NoDup
             (Permutation_map (fun r => sub_id (fst r)) Hperm)).
    rewrite map_map. cbn [fst].
    apply AutoFacts.NoDup_filter_map. exact Hn.
Qed.

Lemma candidate_facts :
  forall net_id segment subnet_ids ip_ver x,
    most_full_candidate net_id segment subnet_ids ip_ver x = true ->
    sub_network_id x = net_id
    /\ match ip_ver with Some v => ip_version x = v | None => True end
    /\ next_auto_assign_ip x <> -1.
Proof.
  intros net_id segment subnet_ids ip_ver x H. unfold most_full_candidate in H.
  apply andb_true_iff in H. destruct H as [H _].
  apply andb_true_iff in H. destruct H as [H H5].
  apply andb_true_iff in H. destruct H as [H _].
  apply andb_true_iff in H. destruct H as [H H3].
  apply andb_true_iff in H. destruct H as [_ H2].
  apply Z.eqb_eq in H2.
  apply negb_true_iff in H5. apply Z.eqb_neq in H5.
  split; [exact H2|]. split; [|exact H5].
  destruct ip_ver as [v|]; [apply Z.eqb_eq; exact H3 | exact I].
Qed.

(** What [select_subnet] returns is a subnet of the network, and of the
    version asked for. *)
Lemma select_subnet_version :
  forall context net_id ip segment subnet_ids ip_ver w s w',
    NoDup (map sub_id (subnets (db w))) ->
    select_subnet context net_id ip segment subnet_ids ip_ver w
    = (Ok (Some s), w') ->
    sub_network_id s = net_id
    /\ match ip_ver with Some v => ip_version s = v | None => True end.
Proof.
  intros context net_id ip segment subnet_ids ip_ver w s w' Hn H.
  apply PolicyFacts.with_begin_Ok in H.
  apply bind_Ok in H. destruct H as [rows [w1 [Hq H]]].
  unfold subnet_find_ordered_by_most_full in Hq.
  apply bind_Ok in Hq. destruct Hq as [u [w2 [Hs Hq]]].
  apply stmt_Ok in Hs. destruct Hs as [Hdb _].
  unfold bind, get_db, ret in Hq. injection Hq as <- <-.
  rewrite Hdb in H.
  destruct (most_full_rows_facts (db w) net_id segment subnet_ids ip_ver)
    as [Hin Hnd].
  destruct (supplied ip) eqn:Hip.
  - destruct ip as [a|]; [|discriminate]. cbn in Hip.
    destruct (SelectFacts.select_loop_explicit _ _ _ _ _ _ _ Hip H)
      as [n [q [Hr _]]].
    destruct (Hin _ Hr) as [_ Hc]. cbn [fst] in Hc.
    destruct (candidate_facts _ _ _ _ _ Hc) as [H1 [H2 _]]. auto.
  - destruct (AutoFacts.select_loop_auto
                (most_full_rows (db w) net_id segment subnet_ids ip_ver)
                context ip subnet_ids w2 s w' Hip) as [x [n [Hx Hres]]].
    + rewrite Hdb. exact Hn.
    + exact (Hnd Hn).
    + intros r Hr. destruct (Hin r Hr) as [H1 H2]. rewrite Hdb.
      split; [exact H1|].
      destruct (candidate_facts _ _ _ _ _ H2) as [_ [_ H3]]. exact H3.
    + exact H.
    + destruct (Hin _ Hx) as [_ Hc]. cbn [fst] in Hc.
      destruct (candidate_facts _ _ _ _ _ Hc) as [H1 [H2 _]].
      destruct (ip_version x =? 4).
      * destruct Hres as [[_ ->] | [_ ->]]; cbn; auto.
      * subst s. auto.
Qed.

Lemma select_each_versions :
  forall vers context net_id ip segment w subs w',
    NoDup (map sub_id (subnets (db w))) ->
    NoDup vers ->
    select_each vers context net_id ip segment w = (Ok subs, w') ->
    Forall (fun s => sub_network_id s = net_id /\ In (ip_version s) vers) subs
    /\ NoDup (map ip_version subs).
Proof.
  induction vers as [|ver t IH];
    intros context net_id ip segment w subs w' Hn Hv H; cbn [select_each] in H.
  - unfold ret in H. injection H as <- _. split; constructor.
  - apply bind_Ok in H. destruct H as [sub [w1 [Hs H]]].
    apply bind_Ok in H. destruct H as [rest [w2 [Hr H]]].
    unfold ret in H. injection H as <- _.
    apply NoDup_cons_iff in Hv. destruct Hv as [Hnot Hv].
    assert (Hn1 : NoDup (map sub_id (subnets (db w1)))).
    { rewrite (keeps_ids_select_subnet _ _ _ _ _ _ _ _ _ Hs). exact Hn. }
    destruct (IH _ _ _ _ _ _ _ Hn1 Hv Hr) as [Hall Hnd].
    assert (Hall' : Forall (fun s => sub_network_id s = net_id
                                     /\ In (ip_version s) (ver :: t)) rest).
    { eapply Forall_impl; [|exact Hall]. intros s [H1 H2].
      split; [exact H1 | right; exact H2]. }
    destruct sub as [s|]; [|auto].
    destruct (select_subnet_version _ _ _ _ _ _ _ _ _ Hn Hs) as [H1 H2].
    cbn in H2. split.
    + constructor; [|exact Hall']. split; [exact H1 | left; auto].
    + cbn [map]. constructor; [|exact Hnd].
      rewrite H2. intro Hin. apply Hnot.
      apply in_map_iff in Hin. destruct Hin as [y [Ey Hy]].
      rewrite Forall_forall in Hall. destruct (Hall y Hy) as [_ Hy2].
      rewrite <- Ey. exact Hy2.
Qed.

Lemma py_remove_spec :
  forall x l l',
    py_remove x l = Ok l' -> NoDup l ->
    NoDup l' /\ forall y, In y l' <-> In y l /\ y <> x.
Proof.
  intros x l. induction l as [|h t IH]; intros l' H Hn.
  - discriminate.
  - apply NoDup_cons_iff in Hn. destruct Hn as [Hh Hn].
    cbn [py_remove] in H. destruct (Z.eqb_spec h x) as [E|E].
    + injection H as <-. split; [exact Hn|]. intro y. split.
      * intro Hy. split; [right; exact Hy|]. intro Ey. subst. contradiction.
      * intros [[Ey|Hy] Hne]; [congruence | exact Hy].
    + destruct (py_remove x t) as [t'|e] eqn:Ht; [|discriminate].
      injection H as <-. destruct (IH t' eq_refl Hn) as [Hn' Hiff].
      split.
      * constructor; [|exact Hn']. intro Hin. apply Hiff in Hin.
        destruct Hin as [Hin _]. contradiction.
      * intro y. split.
        -- intros [<-|Hy]; [split; [left; reflexivity | exact E]|].
           apply Hiff in Hy. destruct Hy as [Hy Hne].
           split; [right; exact Hy | exact Hne].
        -- intros [[<-|Hy] Hne]; [left; reflexivity|].
           right. apply Hiff. auto.
Qed.

Lemma py_remove_Raise :
  forall x l e, py_remove x l = Raise e -> ~ In x l.
Proof.
  intros x l. induction l as [|h t IH]; intros e H Hin.
  - destruct Hin.
  - cbn [py_remove] in H. destruct (Z.eqb_spec h x) as [E|E]; [discriminate|].
    destruct (py_remove x t) as [t'|e'] eqn:Ht; [discriminate|].
    destruct Hin as [Hin|Hin]; [contradiction|].
    exact (IH e' eq_refl Hin).
Qed.

Lemma need_versions_spec :
  forall re need v,
    NoDup need ->
    In v (need_versions need re) ->
    In v need /\ ~ In v (map version re).
Proof.
  induction re as [|i t IH]; intros need v Hn Hv; cbn [need_versions] in Hv.
  - split; [exact Hv | intros []].
  - destruct (py_remove (version i) need) as [need'|e] eqn:E.
    + destruct (py_remove_spec _ _ _ E Hn) as [Hn' Hiff].
      destruct (IH need' v Hn' Hv) as [H1 H2].
      apply Hiff in H1. destruct H1 as [H1 Hne].
      split; [exact H1|]. cbn [map]. intros [Ei|Hin]; [congruence | auto].
    + destruct (IH need v Hn Hv) as [H1 H2].
      split; [exact H1|]. cbn [map]. intros [Ei|Hin]; [|auto].
      apply (py_remove_Raise _ _ _ E). rewrite Ei. exact H1.
Qed.

Lemma need_versions_NoDup :
  forall re need, NoDup need -> NoDup (need_versions need re).
Proof.
  induction re as [|i t IH]; intros need Hn; cbn [need_versions].
  - exact Hn.
  - destruct (py_remove (version i) need) as [need'|e] eqn:E.
    + apply IH. exact (proj1 (py_remove_spec _ _ _ E Hn)).
    + apply IH. exact Hn.
Qed.

Lemma NoDup_46 : NoDup [4; 6].
Proof.
  constructor; [intros [H|[]]; discriminate|].
  constructor; [intros []|constructor].
Qed.

Lemma BOTH_choose_fills :
  forall context net_id version segment ip re w subs w',
    NoDup (map sub_id (subnets (db w))) ->
    BOTH_choose_available_subnet context net_id version segment ip re w
    = (Ok subs, w') ->
    Forall (fills_version net_id re) subs
    /\ NoDup (map ip_version subs)
    /\ (re = [] -> subs <> []).
Proof.
  intros context net_id version segment ip re w subs w' Hn H.
  unfold BOTH_choose_available_subnet in H.
  apply bind_Ok in H. destruct H as [both [w1 [Hs H]]].
  destruct (select_each_versions _ _ _ _ _ _ _ _ Hn
              (need_versions_NoDup re _ NoDup_46) Hs) as [Hall Hnd].
  assert (Hsubs : subs = both).
  { destruct re; destruct both; unfold ret, raise in H; congruence. }
  subst both. split; [|split; [exact Hnd|]].
  - eapply Forall_impl; [|exact Hall]. intros s [H1 H2].
    destruct (need_versions_spec _ _ _ NoDup_46 H2) as [H3 H4].
    split; [exact H1|]. split; [|exact H4].
    destruct H3 as [<-|[<-|[]]]; auto.
  - intros -> ->. unfold raise in H. discriminate.
Qed.

(** The subnets a strategy chooses for the create path.  [ANY] chooses one
    subnet of the network.  [BOTH] chooses subnets of the network, at most
    one of version 4 and one of version 6, and none of a version that an
    address already in hand has; it chooses at least one when no address
    is in hand.  [BOTH_REQUIRED] chooses as [BOTH] does, and so that
    addresses in hand and subnets chosen make two at least.  The subnet id
    is taken to be the key of the table. *)
Theorem _choose_available_subnet_fills :
  forall s context net_id version segment ip re w subs w',
    NoDup (map sub_id (subnets (db w))) ->
    _choose_available_subnet s context net_id version segment ip re w
    = (Ok subs, w') ->
    match s with
    | ANY => exists x, subs = [x] /\ sub_network_id x = net_id
    | BOTH =>
        Forall (fills_version net_id re) subs
        /\ NoDup (map ip_version subs)
        /\ (re = [] -> subs <> [])
    | BOTH_REQUIRED =>
        Forall (fills_version net_id re) subs
        /\ NoDup (map ip_version subs)
        /\ (2 <= List.length re + List.length subs)%nat
    end.
Proof.
  intros s context net_id version segment ip re w subs w' Hn H.
  destruct s; cbn [_choose_available_subnet] in H.
  - unfold ANY_choose_available_subnet in H.
    apply bind_Ok in H. destruct H as [o [w1 [Hs H]]].
    destruct o as [x|]; [|unfold raise in H; discriminate].
    unfold ret in H. injection H as <- _.
    destruct (select_subnet_version _ _ _ _ _ _ _ _ _ Hn Hs) as [H1 _].
    exists x. auto.
  - exact (BOTH_choose_fills _ _ _ _ _ _ _ _ _ Hn H).
  - unfold BOTHREQ_choose_available_subnet in H.
    apply bind_Ok in H. destruct H as [both [w1 [Hb H]]].
    destruct (BOTH_choose_fills _ _ _ _ _ _ _ _ _ Hn Hb) as [H1 [H2 _]].
    destruct (List.length re + List.length both <? 2)%nat eqn:E;
      [unfold raise in H; discriminate|].
    unfold ret in H. injection H as <- _.
    split; [exact H1|]. split; [exact H2|].
    apply Nat.ltb_ge in E. exact E.
Qed.

(** [BOTH_REQUIRED] on the dual-stack network, with no address in hand. *)
Lemma _choose_available_subnet_fills_example :
  exists subs w',
    _choose_available_subnet BOTH_REQUIRED tenant 1 None None None []
                             world_dual = (Ok subs, w')
    /\ Forall (fills_version 1 []) subs
    /\ NoDup (map ip_version subs)
    /\ (2 <= List.length (@nil IPAddressRow) + List.length subs)%nat.
Proof.
  eexists. eexists. split; [vm_compute; reflexivity|].
  eapply (_choose_available_subnet_fills BOTH_REQUIRED tenant 1 None None None
            [] world_dual _ _).
  - cbn. constructor; [intros [H|[]]; discriminate|].
    constructor; [intros []|constructor].
  - vm_compute. reflexivity.
Defined.

End ChooseFacts.

(** ** The MAC range an allocation draws from *)

Module MacRangeFacts.

Import Examples MoreExamples PyFacts.
Open Scope string_scope.
Open Scope Z_scope.

Lemma best_range_spec :
  forall d l,
    match best_range d l with
    | Some (r, c) =>
        In r l /\ c = mac_count d r
        /\ forall r', In r' l -> mac_count d r' <= c
    | None => l = []
    end.
Proof.
  intros d l. induction l as [|r t IH]; cbn [best_range].
  - reflexivity.
  - destruct (best_range d t) as [[r' c']|].
    + destruct IH as [Hin [Hc Hmax]].
      destruct (Z.leb_spec c' (mac_count d r)) as [Hle|Hlt].
      * split; [left; reflexivity|]. split; [reflexivity|].
        intros x [<-|Hx]; [lia|]. specialize (Hmax x Hx). lia.
      * split; [right; exact Hin|]. split; [exact Hc|].
        intros x [<-|Hx]; [lia|]. exact (Hmax x Hx).
    + subst t. split; [left; reflexivity|]. split; [reflexivity|].
      intros x [<-|[]]. lia.
Qed.

Lemma range_filters_iff :
  forall address forbidden r,
    (match address with
     | Some a => if a =? 0 then true
                 else (a <=? last_address r) && (first_address r <=? a)
     | None => true
     end
     && negb (next_auto_assign_mac r =? -1)
     && (forbidden || negb (range_do_not_use r))) = true
    <-> passes_range_filters address forbidden r.
Proof.
  intros address forbidden r. unfold passes_range_filters.
  rewrite !andb_true_iff, negb_true_iff, Z.eqb_neq, orb_true_iff,
    negb_true_iff.
  split.
  - intros [[Ha Hn] Hf]. split; [exact Hn|]. split.
    + intros ->. destruct Hf as [Hf|Hf]; [discriminate | exact Hf].
    + intros a -> Ha0. destruct (Z.eqb_spec a 0) as [E|E]; [contradiction|].
      apply andb_true_iff in Ha. destruct Ha as [H1 H2].
      apply Z.leb_le in H1. apply Z.leb_le in H2. lia.
  - intros [Hn [Hf Ha]]. split; [split; [|exact Hn]|].
    + destruct address as [a|]; [|reflexivity].
      destruct (Z.eqb_spec a 0) as [E|E]; [reflexivity|].
      specialize (Ha a eq_refl E). apply andb_true_iff.
      split; apply Z.leb_le; lia.
    + destruct forbidden; [left; reflexivity | right; auto].
Qed.

(** The range [mac_address_range_find_allocation_counts] returns is a stored
    range that passes the filters of the query (not full, not [do_not_use]
    unless forbidden ranges were asked for, containing the address when one
    is given), it comes with the number of MAC addresses stored under it,
    and no stored range passing the filters has more; nothing is returned
    only when no stored range passes them.  The tables are left as they
    are. *)
Theorem mac_address_range_find_allocation_counts_fullest :
  forall context address forbidden w o w',
    mac_address_range_find_allocation_counts context address forbidden w
    = (Ok o, w') ->
    db w' = db w
    /\ match o with
       | Some (r, c) =>
           In r (mac_address_ranges (db w))
           /\ passes_range_filters address forbidden r
           /\ c = mac_count (db w) r
           /\ forall r', In r' (mac_address_ranges (db w)) ->
                         passes_range_filters address forbidden r' ->
                         mac_count (db w) r' <= c
       | None =>
           forall r', In r' (mac_address_ranges (db w)) ->
                      ~ passes_range_filters address forbidden r'
       end.
Proof.
  intros context address forbidden w o w' H.
  unfold mac_address_range_find_allocation_counts in H.
  apply bind_Ok in H. destruct H as [u [w1 [Hs H]]].
  apply stmt_Ok in Hs. destruct Hs as [Hdb _].
  unfold bind, get_db, ret in H. injection H as <- <-.
  split; [exact Hdb|]. rewrite Hdb.
  match goal with
  | |- context [best_range ?d (filter ?f ?l)] =>
      pose proof (best_range_spec d (filter f l)) as Hb;
      destruct (best_range d (filter f l)) as [[r c]|]
  end.
  - destruct Hb as [Hin [Hc Hmax]]. apply filter_In in Hin.
    destruct Hin as [Hin Hok]. apply range_filters_iff in Hok.
    split; [exact Hin|]. split; [exact Hok|]. split; [exact Hc|].
    intros r' Hr' Hp. apply Hmax. apply filter_In.
    split; [exact Hr'|]. apply range_filters_iff. exact Hp.
  - intros r' Hr' Hp.
    assert (Hin : In r' (filter
      (fun r0 =>
         match address with
         | Some a => if a =? 0 then true
                     else (a <=? last_address r0) && (first_address r0 <=? a)
         | None => true
         end
         && negb (next_auto_assign_mac r0 =? -1)
         && (forbidden || negb (range_do_not_use r0)))
      (mac_address_ranges (db w)))).
    { apply filter_In. split; [exact Hr'|]. apply range_filters_iff.
      exact Hp. }
    rewrite Hb in Hin. destruct Hin.
Qed.

(** A query for any address on the store with one usable range. *)
Lemma mac_address_range_find_allocation_counts_fullest_example :
  exists r c w',
    mac_address_range_find_allocation_counts tenant None false
                                             world_usable_mac
    = (Ok (Some (r, c)), w')
    /\ db w' = db world_usable_mac
    /\ In r (mac_address_ranges (db world_usable_mac))
    /\ passes_range_filters None false r
    /\ c = mac_count (db world_usable_mac) r
    /\ forall r', In r' (mac_address_ranges (db world_usable_mac)) ->
                  passes_range_filters None false r' ->
                  mac_count (db world_usable_mac) r' <= c.
Proof.
  eexists. eexists. eexists. split; [vm_compute; reflexivity|].
  eapply (mac_address_range_find_allocation_counts_fullest tenant None false
            world_usable_mac (Some (_, _)) _).
  vm_compute. reflexivity.
Defined.

End MacRangeFacts.
